(** * Sparse matrices in coordinate format: the [SparseMatrix] class of
    [src/main.py], embedded and verified.

    Python integers are unbounded, so every number is a [Z].  A [dict] is a
    finite map with unique keys ([gmap]); the class never observes insertion
    order except through [sorted], so iteration follows [map_to_list].
    [SparseMatrix] instances are mutable objects: they live in a heap and the
    methods are computations of a small state-and-exception monad. *)

From stdpp Require Import gmap strings list fin_maps sorting.
From Stdlib Require Import ZArith Lia Ascii DecimalZ DecimalPos.
From Stdlib Require String.

Local Open Scope Z_scope.

(** ** Exceptions *)

(** The exceptions the class can raise.  [WrongFormat] is the [ValueError]
    of [_read_matrix_from_file], whose message embeds the exception it caught;
    [DimensionsDoNotMatch] is the [ValueError] of the three operators.
    [ExceedsLimit] is the [ValueError] of a conversion between an integer
    and a string of more than 4300 digits: [int] gives the number of digits
    it has counted, [str] gives none.
    [Dangling] is not a Python exception: it is the model's answer to a
    reference that names no object, which no Python program can hold. *)
Inductive exception : Type :=
  | IndexError
  | InvalidLiteral (literal : list ascii)
  | ExceedsLimit (digits : option nat)
  | NotEnoughValues (expected got : nat)
  | TooManyValues (expected : nat)
  | WrongFormat (cause : exception)
  | DimensionsDoNotMatch (operation : string)
  | Dangling.

(** ** Objects and the heap *)

(** The three attributes set by [__init__].  The dimensions default to [None]
    in the constructor, hence [option Z].  The dictionary is kept in the
    object: [__init__] gives every instance a dictionary of its own and no
    method hands it out, so no two instances share one. *)
Record object : Type := Build_object {
  num_rows : option Z;
  num_cols : option Z;
  elements : gmap (Z * Z) Z
}.

Abbreviation loc := positive.
Abbreviation heap := (gmap positive object).

Inductive outcome (A : Type) : Type :=
  | Returned (a : A)
  | Raised (e : exception).
Arguments Returned {A} a.
Arguments Raised {A} e.

Definition Py (A : Type) : Type := heap → outcome A * heap.

#[global] Instance Py_ret : MRet Py := λ A a σ, (Returned a, σ).
#[global] Instance Py_bind : MBind Py := λ A B f m σ,
  match m σ with
  | (Returned a, σ') => f a σ'
  | (Raised e, σ') => (Raised e, σ')
  end.

Definition raise {A} (e : exception) : Py A := λ σ, (Raised e, σ).

(** [try: m except Exception as e: h e] *)
Definition try_except {A} (m : Py A) (h : exception → Py A) : Py A := λ σ,
  match m σ with
  | (Returned a, σ') => (Returned a, σ')
  | (Raised e, σ') => h e σ'
  end.

(** Lifting of a pure computation that may raise. *)
Definition lift {A} (r : exception + A) : Py A :=
  match r with
  | inl e => raise e
  | inr a => mret a
  end.

(** Allocation of an object, and the access to the attributes of the
    object that a reference names. *)
Definition new (o : object) : Py loc := λ σ,
  let l := fresh (dom σ) in (Returned l, <[l := o]> σ).

Definition read (l : loc) : Py object := λ σ,
  match σ !! l with
  | Some o => (Returned o, σ)
  | None => (Raised Dangling, σ)
  end.

Definition write (l : loc) (o : object) : Py unit := λ σ,
  match σ !! l with
  | Some _ => (Returned (), <[l := o]> σ)
  | None => (Raised Dangling, σ)
  end.

(** [for x in xs: body x] *)
Fixpoint for_each {A} (xs : list A) (body : A → Py unit) : Py unit :=
  match xs with
  | [] => mret ()
  | x :: xs' => body x ;; for_each xs' body
  end.

Definition with_elements (o : object) (m : gmap (Z * Z) Z) : object :=
  {| num_rows := num_rows o; num_cols := num_cols o; elements := m |}.

(** [self.elements[key] = value] *)
Definition setitem (self : loc) (key : Z * Z) (value : Z) : Py unit :=
  o ← read self; write self (with_elements o (<[key := value]> (elements o))).

(** [del self.elements[key]]; the class only deletes keys it has just seen. *)
Definition delitem (self : loc) (key : Z * Z) : Py unit :=
  o ← read self; write self (with_elements o (delete key (elements o))).

(** ** Python strings and built-ins *)

(** A [str] is the list of its characters; the characters are the code points
    below 256.  Integers are printed and read in base 10, with the limit
    of 4300 digits that the interpreter sets on both conversions. *)
Definition chars (s : string) : list ascii := String.list_ascii_of_string s.

(** Errors of pure computations. *)
#[global] Instance exc_ret : MRet (sum exception) := λ A a, inr a.
#[global] Instance exc_bind : MBind (sum exception) := λ A B f m,
  match m with
  | inl e => inl e
  | inr a => f a
  end.

Module str.

(** [str.isspace] on one character: the white space that [strip]
    removes. *)
Definition isspace (c : ascii) : bool :=
  let n := N_of_ascii c in
  ((9 <=? n) && (n <=? 13) || (28 <=? n) && (n <=? 32)
   || (n =? 133) || (n =? 160))%N.

Fixpoint lstrip_with (p : ascii → bool) (s : list ascii) : list ascii :=
  match s with
  | [] => []
  | c :: s' => if p c then lstrip_with p s' else s
  end.

Definition rstrip_with (p : ascii → bool) (s : list ascii) : list ascii :=
  reverse (lstrip_with p (reverse s)).

Definition strip_with (p : ascii → bool) (s : list ascii) : list ascii :=
  rstrip_with p (lstrip_with p s).

(** [s.strip()] *)
Definition strip : list ascii → list ascii := strip_with isspace.

(** [s.strip(set)] *)
Definition strip_chars (set : list ascii) : list ascii → list ascii :=
  strip_with (λ c, bool_decide (c ∈ set)).

(** [s.split(sep)] for a separator of one character. *)
Fixpoint split (sep : ascii) (s : list ascii) : list (list ascii) :=
  match s with
  | [] => [[]]
  | c :: s' =>
    if decide (c = sep) then [] :: split sep s'
    else match split sep s' with
         | field :: fields => (c :: field) :: fields
         | [] => [[c]]
         end
  end.

(** [sep.join(xs)] *)
Fixpoint join (sep : list ascii) (xs : list (list ascii)) : list ascii :=
  match xs with
  | [] => []
  | [x] => x
  | x :: xs' => x ++ sep ++ join sep xs'
  end.

End str.

Module file.

(** [file.readlines()] on the text of the file: every line keeps its
    newline, a last line without one is a line too. *)
Fixpoint readlines (text : list ascii) : list (list ascii) :=
  match text with
  | [] => []
  | c :: text' =>
    if decide (c = "010"%char) then [c] :: readlines text'
    else match readlines text' with
         | line :: lines => (c :: line) :: lines
         | [] => [[c]]
         end
  end.

End file.

Module builtins.

Definition digit (c : ascii) : option Z :=
  let n := N_of_ascii c in
  if ((48 <=? n) && (n <=? 57))%N then Some (Z.of_N n - 48) else None.

(** The digits after a first digit; one underscore may separate two digits. *)
Fixpoint int_digits (acc : Z) (s : list ascii) : option Z :=
  match s with
  | [] => Some acc
  | c :: s' =>
    match digit c with
    | Some d => int_digits (10 * acc + d) s'
    | None =>
      if decide (c = "_"%char) then
        match s' with
        | c' :: s'' =>
          match digit c' with
          | Some d => int_digits (10 * acc + d) s''
          | None => None
          end
        | [] => None
        end
      else None
    end
  end.

Definition int_unsigned (s : list ascii) : option Z :=
  match s with
  | c :: s' => d ← digit c; int_digits d s'
  | [] => None
  end.

(** [sys.get_int_max_str_digits()], as the interpreter starts. *)
Definition max_str_digits : nat := 4300.

(** The white space that [int] skips at either end of a string.  The
    separators U+001C to U+001F, which [str.strip] removes, are not among
    it. *)
Definition int_space (c : ascii) : bool :=
  let n := N_of_ascii c in
  ((9 <=? n) && (n <=? 13) || (n =? 32) || (n =? 133) || (n =? 160))%N.

(** The numeral that [int] scans at the head of a string: the digits and
    underscores up to the first other character, and the number of digits
    among them. *)
Fixpoint numeral (s : list ascii) : list ascii :=
  match s with
  | c :: s' =>
    if decide (is_Some (digit c) ∨ c = "_"%char) then c :: numeral s' else []
  | [] => []
  end.

Definition count_digits (s : list ascii) : nat :=
  length (filter (λ c, is_Some (digit c)) s).

(** [int(s)]: white space around, an optional sign, digits.  The numeral is
    scanned first: when it is malformed the literal is invalid; when it has
    too many digits the limit is exceeded, whatever follows it; and then
    nothing may follow it. *)
Definition int (s : list ascii) : exception + Z :=
  match str.strip_with int_space s with
  | c :: t =>
    let body := if decide (c = "-"%char ∨ c = "+"%char) then t else c :: t in
    match int_unsigned (numeral body) with
    | Some _ =>
      if decide (max_str_digits < count_digits (numeral body))%nat then
        inl (ExceedsLimit (Some (count_digits (numeral body))))
      else
        match int_unsigned body with
        | Some z => inr (if decide (c = "-"%char) then - z else z)
        | None => inl (InvalidLiteral s)
        end
    | None => inl (InvalidLiteral s)
    end
  | [] => inl (InvalidLiteral s)
  end.

Fixpoint uint_digits (d : Decimal.uint) : list ascii :=
  match d with
  | Decimal.Nil => []
  | Decimal.D0 d => "0"%char :: uint_digits d
  | Decimal.D1 d => "1"%char :: uint_digits d
  | Decimal.D2 d => "2"%char :: uint_digits d
  | Decimal.D3 d => "3"%char :: uint_digits d
  | Decimal.D4 d => "4"%char :: uint_digits d
  | Decimal.D5 d => "5"%char :: uint_digits d
  | Decimal.D6 d => "6"%char :: uint_digits d
  | Decimal.D7 d => "7"%char :: uint_digits d
  | Decimal.D8 d => "8"%char :: uint_digits d
  | Decimal.D9 d => "9"%char :: uint_digits d
  end.

(** The decimal numeral of an integer, and the number of its digits. *)
Definition decimal (z : Z) : list ascii :=
  match Z.to_int z with
  | Decimal.Pos d => uint_digits d
  | Decimal.Neg d => "-"%char :: uint_digits d
  end.

Definition digits (z : Z) : nat :=
  match Z.to_int z with
  | Decimal.Pos d | Decimal.Neg d => length (uint_digits d)
  end.

(** [str(z)] for an integer, which is also what an f-string makes of it:
    the numeral, unless it has more digits than the limit. *)
Definition str_int (z : Z) : exception + list ascii :=
  if decide (max_str_digits < digits z)%nat then inl (ExceedsLimit None)
  else inr (decimal z).

(** [str(x)] for the value of a dimension attribute. *)
Definition str (x : option Z) : exception + list ascii :=
  match x with
  | Some z => str_int z
  | None => inr (chars "None")
  end.

(** Python's [sum]: a left fold from 0. *)
Definition sum (xs : list Z) : Z := foldl Z.add 0 xs.

(** The order of the tuples [((row, col), value)]. *)
Definition item_le (x y : Z * Z * Z) : Prop :=
  x.1.1 < y.1.1 ∨
  (x.1.1 = y.1.1 ∧ (x.1.2 < y.1.2 ∨ (x.1.2 = y.1.2 ∧ x.2 ≤ y.2))).

#[global] Instance item_le_dec : RelDecision item_le.
Proof. intros x y. unfold item_le. apply _. Defined.

(** [sorted(d.items())] *)
Definition sorted (xs : list (Z * Z * Z)) : list (Z * Z * Z) :=
  merge_sort item_le xs.

(** [xs[i]] *)
Definition getitem {A} (xs : list A) (i : nat) : exception + A :=
  match xs !! i with
  | Some x => inr x
  | None => inl IndexError
  end.

(** [row, col, value = map(int, fields)].  [map] is lazy: the fields are
    converted one by one as the assignment asks for them, three and then a
    fourth to see that there is none. *)
Definition unpack3 (fields : list (list ascii)) : exception + (Z * Z * Z) :=
  match fields with
  | [] => inl (NotEnoughValues 3 0)
  | [a] => _ ← int a; inl (NotEnoughValues 3 1)
  | [a; b] => _ ← int a; _ ← int b; inl (NotEnoughValues 3 2)
  | a :: b :: c :: rest =>
    row ← int a; col ← int b; value ← int c;
    match rest with
    | [] => inr (row, col, value)
    | d :: _ => _ ← int d; inl (TooManyValues 3)
    end
  end.

End builtins.

(** ** The class *)

Module SparseMatrix.

(** The argument is the text that the file at [matrix_file_path] delivers
    once opened with [open(matrix_file_path, 'r')]: decoded, and with every
    line ending already a newline. *)
Definition _read_matrix_from_file (self : loc) (matrix_file : list ascii)
    : Py unit :=
  try_except
    (let lines := file.readlines matrix_file in
     line0 ← lift (builtins.getitem lines 0);
     field ← lift (builtins.getitem (str.split "="%char line0) 1);
     rows ← lift (builtins.int (str.strip field));
     o ← read self;
     write self {| num_rows := Some rows; num_cols := num_cols o;
                   elements := elements o |} ;;
     line1 ← lift (builtins.getitem lines 1);
     field ← lift (builtins.getitem (str.split "="%char line1) 1);
     cols ← lift (builtins.int (str.strip field));
     o ← read self;
     write self {| num_rows := num_rows o; num_cols := Some cols;
                   elements := elements o |} ;;
     for_each (drop 2 lines) (λ line,
       if decide (str.strip line ≠ []) then
         let entry := str.strip_chars (chars "()" ++ ["010"%char]) line in
         '(row, col, value) ←
           lift (builtins.unpack3 (str.split ","%char entry));
         setitem self (row, col) value
       else mret ()))
    (λ e, raise (WrongFormat e)).

(** [SparseMatrix(matrix_file_path, num_rows, num_cols)]; [matrix_file] is
    [None] when no path is given and the text of the file otherwise. *)
Definition __init__ (matrix_file : option (list ascii))
    (num_rows num_cols : option Z) : Py loc :=
  self ← new {| num_rows := num_rows; num_cols := num_cols; elements := ∅ |};
  match matrix_file with
  | Some text => _read_matrix_from_file self text
  | None => mret ()
  end ;;
  mret self.

Definition get_element (self : loc) (row col : Z) : Py Z :=
  o ← read self; mret (default 0 (elements o !! (row, col))).

Definition set_element (self : loc) (row col value : Z) : Py unit :=
  if decide (value ≠ 0) then setitem self (row, col) value
  else
    o ← read self;
    if decide (is_Some (elements o !! (row, col))) then delitem self (row, col)
    else mret ().

(** [self.elements.items()], read once when the loop starts: the loops of
    the class never change the dictionary they iterate over. *)
Definition items (self : loc) : Py (list (Z * Z * Z)) :=
  o ← read self; mret (map_to_list (elements o)).

(** [f"({row}, {col}, {value})"] *)
Definition entry_line (item : Z * Z * Z) : exception + list ascii :=
  row ← builtins.str_int item.1.1;
  col ← builtins.str_int item.1.2;
  value ← builtins.str_int item.2;
  mret (chars "(" ++ row ++ chars ", " ++ col ++ chars ", " ++ value
          ++ chars ")").

(** The lines that the loop of [__str__] appends, one for each item. *)
Fixpoint entry_lines (items : list (Z * Z * Z))
    : exception + list (list ascii) :=
  match items with
  | [] => mret []
  | item :: items' =>
    line ← entry_line item; lines ← entry_lines items'; mret (line :: lines)
  end.

Definition __str__ (self : loc) : Py (list ascii) :=
  o ← read self;
  rows ← lift (builtins.str (num_rows o));
  cols ← lift (builtins.str (num_cols o));
  lines ← lift (entry_lines (builtins.sorted (map_to_list (elements o))));
  mret (str.join ["010"%char]
          ([chars "rows=" ++ rows; chars "cols=" ++ cols] ++ lines)).

Definition __add__ (self other : loc) : Py loc :=
  s ← read self; o ← read other;
  if decide (num_rows s ≠ num_rows o ∨ num_cols s ≠ num_cols o)
  then raise (DimensionsDoNotMatch "addition")
  else
    result ← __init__ None (num_rows s) (num_cols s);
    self_items ← items self;
    for_each self_items (λ '(row, col, value),
      setitem result (row, col) value) ;;
    other_items ← items other;
    for_each other_items (λ '(row, col, value),
      v ← get_element result row col;
      setitem result (row, col) (v + value) ;;
      r ← read result;
      if decide (elements r !! (row, col) = Some 0)
      then delitem result (row, col)
      else mret ()) ;;
    mret result.

Definition __sub__ (self other : loc) : Py loc :=
  s ← read self; o ← read other;
  if decide (num_rows s ≠ num_rows o ∨ num_cols s ≠ num_cols o)
  then raise (DimensionsDoNotMatch "subtraction")
  else
    result ← __init__ None (num_rows s) (num_cols s);
    self_items ← items self;
    for_each self_items (λ '(row, col, value),
      setitem result (row, col) value) ;;
    other_items ← items other;
    for_each other_items (λ '(row, col, value),
      v ← get_element result row col;
      set_element result row col (v - value)) ;;
    mret result.

(** One step of the grouping loops of [__mul__]:
    [if outer not in index: index[outer] = {}; index[outer][inner] = value]. *)
Definition group (index : gmap Z (gmap Z Z)) (outer inner value : Z)
    : gmap Z (gmap Z Z) :=
  let index' :=
    if decide (index !! outer = None) then <[outer := ∅]> index else index in
  alter (<[inner := value]>) outer index'.

(** [sum(row.get(k, 0) * col.get(k, 0) for k in set(row) & set(col))] *)
Definition product_sum (row col : gmap Z Z) : Z :=
  builtins.sum ((λ k, default 0 (row !! k) * default 0 (col !! k))
         <$> base.elements (dom row ∩ dom col : gset Z)).

Definition __mul__ (self other : loc) : Py loc :=
  s ← read self; o ← read other;
  if decide (num_cols s ≠ num_rows o)
  then raise (DimensionsDoNotMatch "multiplication")
  else
    result ← __init__ None (num_rows s) (num_cols o);
    self_items ← items self;
    let self_by_row :=
      foldl (λ index '(row, col, value), group index row col value)
            ∅ self_items in
    other_items ← items other;
    let other_by_col :=
      foldl (λ index '(row, col, value), group index col row value)
            ∅ other_items in
    for_each (map_to_list self_by_row).*1 (λ i,
      for_each (map_to_list other_by_col).*1 (λ j,
        let product_sum :=
          product_sum (self_by_row !!! i) (other_by_col !!! j) in
        if decide (product_sum ≠ 0)
        then setitem result (i, j) product_sum
        else mret ())) ;;
    mret result.

End SparseMatrix.

(** ** The table of operations of [main] *)

Inductive operation : Type := addition | subtraction | multiplication.

Definition name (op : operation) : string :=
  match op with
  | addition => "addition"
  | subtraction => "subtraction"
  | multiplication => "multiplication"
  end.

Definition func (op : operation) : loc → loc → Py loc :=
  match op with
  | addition => SparseMatrix.__add__
  | subtraction => SparseMatrix.__sub__
  | multiplication => SparseMatrix.__mul__
  end.

Definition check (op : operation) (a b : object) : Prop :=
  match op with
  | addition | subtraction =>
    num_rows a = num_rows b ∧ num_cols a = num_cols b
  | multiplication => num_cols a = num_rows b
  end.

#[global] Instance check_dec op a b : Decision (check op a b).
Proof. destruct op; simpl; apply _. Defined.

(** * The program around the class: [matrix_operation] and [main] *)

(** ** Messages *)

(** [s.capitalize()] for a name in ASCII, as the names of the table are:
    the first letter in upper case, the other letters in lower case. *)
Definition upper (c : ascii) : ascii :=
  let n := N_of_ascii c in
  if ((97 <=? n) && (n <=? 122))%N then ascii_of_N (n - 32) else c.

Definition lower (c : ascii) : ascii :=
  let n := N_of_ascii c in
  if ((65 <=? n) && (n <=? 90))%N then ascii_of_N (n + 32) else c.

Definition capitalize (s : list ascii) : list ascii :=
  match s with
  | [] => []
  | c :: s' => upper c :: (lower <$> s')
  end.

(** [repr(s)] for a string: between apostrophes, or between quotation marks
    when the string has an apostrophe and no quotation mark; the quote and
    the backslash escaped, and every character that cannot be printed. *)
Definition hex_digit (n : N) : ascii :=
  nth (N.to_nat n) (chars "0123456789abcdef") "0"%char.

Definition isprintable (c : ascii) : bool :=
  let n := N_of_ascii c in
  ((32 <=? n) && (n <? 127) || (161 <=? n) && negb (n =? 173))%N.

Definition repr_char (quote c : ascii) : list ascii :=
  if decide (c = quote ∨ c = "092"%char) then ["092"%char; c]
  else if decide (c = "009"%char) then chars "\t"
  else if decide (c = "010"%char) then chars "\n"
  else if decide (c = "013"%char) then chars "\r"
  else if isprintable c then [c]
  else chars "\x" ++ [hex_digit (N_of_ascii c / 16);
                      hex_digit (N_of_ascii c mod 16)].

Definition repr (s : list ascii) : list ascii :=
  let quote :=
    if decide ("039"%char ∈ s ∧ "034"%char ∉ s) then "034"%char
    else "039"%char in
  quote :: concat (repr_char quote <$> s) ++ [quote].

(** [str(e)] for an exception.  The literal that [int] refused is shown
    by the first 200 characters of its [repr].  The numbers in the messages
    are counts of digits, of fields and of variables: they are printed
    without a thought for the limit, which they cannot reach. *)
Fixpoint message (e : exception) : list ascii :=
  match e with
  | IndexError => chars "list index out of range"
  | InvalidLiteral literal =>
    chars "invalid literal for int() with base 10: "
      ++ take 200 (repr literal)
  | ExceedsLimit digits =>
    chars "Exceeds the limit (4300 digits) for integer string conversion"
      ++ match digits with
         | Some n =>
           chars ": value has " ++ builtins.decimal (Z.of_nat n)
             ++ chars " digits"
         | None => []
         end
      ++ chars "; use sys.set_int_max_str_digits() to increase the limit"
  | NotEnoughValues expected got =>
    chars "not enough values to unpack (expected "
      ++ builtins.decimal (Z.of_nat expected) ++ chars ", got "
      ++ builtins.decimal (Z.of_nat got) ++ chars ")"
  | TooManyValues expected =>
    chars "too many values to unpack (expected "
      ++ builtins.decimal (Z.of_nat expected) ++ chars ")"
  | WrongFormat cause =>
    chars "Input file has wrong format: " ++ message cause
  | DimensionsDoNotMatch operation =>
    chars "Matrices dimensions do not match for " ++ chars operation
  | Dangling => []
  end.

(** [isinstance(e, ValueError)] *)
Definition is_ValueError (e : exception) : bool :=
  match e with
  | IndexError | Dangling => false
  | _ => true
  end.

(** ** The world of the program *)

(** What the program sees of its surroundings: the objects it has built,
    the names that [os.listdir(input_dir)] returns and the text of the file
    of each name, the lines that [input] will read, what has been printed,
    and the files written in [output_dir].  Every name of the directory is
    taken to be a file that can be read, and [output_dir], which [main]
    makes, to accept new files. *)
Record world : Type := World {
  memory : heap;
  input_dir : list ascii;
  input_dir_exists : bool;
  listing : list (list ascii);
  texts : list ascii → list ascii;
  stdin : list (list ascii);
  stdout : list ascii;
  output : gmap (list ascii) (list ascii)
}.

Definition set_memory (w : world) (σ : heap) : world :=
  World σ (input_dir w) (input_dir_exists w) (listing w) (texts w)
        (stdin w) (stdout w) (output w).
Definition set_stdin (w : world) (lines : list (list ascii)) : world :=
  World (memory w) (input_dir w) (input_dir_exists w) (listing w) (texts w)
        lines (stdout w) (output w).
Definition set_stdout (w : world) (text : list ascii) : world :=
  World (memory w) (input_dir w) (input_dir_exists w) (listing w) (texts w)
        (stdin w) text (output w).
Definition set_output (w : world) (files : gmap (list ascii) (list ascii))
    : world :=
  World (memory w) (input_dir w) (input_dir_exists w) (listing w) (texts w)
        (stdin w) (stdout w) files.

(** What stops a run: an exception of the class, the [EOFError] of [input],
    the [KeyError] of a dictionary. *)
Inductive signal : Type :=
  | Error (e : exception)
  | EOFError
  | KeyError.

Definition IO (A : Type) : Type := world → (signal + A) * world.

#[global] Instance IO_ret : MRet IO := λ A a w, (inr a, w).
#[global] Instance IO_bind : MBind IO := λ A B f m w,
  match m w with
  | (inr a, w') => f a w'
  | (inl s, w') => (inl s, w')
  end.

Definition stop {A} (s : signal) : IO A := λ w, (inl s, w).

(** A computation on the objects, run in the world. *)
Definition run_py {A} (m : Py A) : IO A := λ w,
  match m (memory w) with
  | (Returned a, σ) => (inr a, set_memory w σ)
  | (Raised e, σ) => (inl (Error e), set_memory w σ)
  end.

Definition run_exc {A} (r : exception + A) : IO A :=
  match r with
  | inl e => stop (Error e)
  | inr a => mret a
  end.

(** [try: m except ValueError as e: h e] *)
Definition except_ValueError {A} (m : IO A) (h : exception → IO A) : IO A :=
  λ w,
  match m w with
  | (inl (Error e), w') =>
    if is_ValueError e then h e w' else (inl (Error e), w')
  | res => res
  end.

(** [print(s)] *)
Definition print (s : list ascii) : IO unit := λ w,
  (inr (), set_stdout w (stdout w ++ s ++ ["010"%char])).

(** [input(prompt)]: the prompt is written, a line is read. *)
Definition input (prompt : list ascii) : IO (list ascii) := λ w,
  let w' := set_stdout w (stdout w ++ prompt) in
  match stdin w with
  | [] => (inl EOFError, w')
  | line :: lines => (inr line, set_stdin w' lines)
  end.

(** [os.listdir(input_dir)] *)
Definition listdir : IO (list (list ascii)) := λ w, (inr (listing w), w).

(** [os.path.exists(input_dir)], and the path [input_dir] itself. *)
Definition path_exists : IO bool := λ w, (inr (input_dir_exists w), w).
Definition the_input_dir : IO (list ascii) := λ w, (inr (input_dir w), w).

(** [SparseMatrix(os.path.join(input_dir, file))] *)
Definition load (file : list ascii) : IO loc := λ w,
  run_py (SparseMatrix.__init__ (Some (texts w file)) None None) w.

(** [with open(os.path.join(output_dir, name), 'w') as file:
    file.write(text)] *)
Definition write_file (name text : list ascii) : IO unit := λ w,
  (inr (), set_output w (<[name := text]> (output w))).

(** [for x in xs: body], for a body that changes local variables [s]. *)
Fixpoint for_in {X S} (xs : list X) (s : S) (body : S → X → IO S) : IO S :=
  match xs with
  | [] => mret s
  | x :: xs' => s' ← body s x; for_in xs' s' body
  end.

(** [enumerate(xs)] *)
Definition enumerate {X} (xs : list X) : list (nat * X) :=
  imap (λ i x, (i, x)) xs.

(** [dimension_check(matrix1, matrix2)] for the [check] of an operation. *)
Definition dimension_check (op : operation) (matrix1 matrix2 : loc)
    : IO bool :=
  a ← run_py (read matrix1); b ← run_py (read matrix2);
  mret (bool_decide (check op a b)).

(** The choices that [matrix_operation] reads; [None] when it has printed
    why it returns. *)
Definition select (count : nat) : IO (option (Z * Z)) :=
  except_ValueError
    (line1 ← input (chars "Select first matrix (by number): ");
     number1 ← run_exc (builtins.int line1);
     let choice1 := number1 - 1 in
     line2 ← input (chars "Select second matrix (by number): ");
     number2 ← run_exc (builtins.int line2);
     let choice2 := number2 - 1 in
     if decide (choice1 < 0 ∨ Z.of_nat count ≤ choice1
                ∨ choice2 < 0 ∨ Z.of_nat count ≤ choice2)
     then
       print (chars "Invalid selection. Please choose a number from the list.") ;;
       mret None
     else mret (Some (choice1, choice2)))
    (λ _, print (chars "Invalid input. Please enter a number.") ;; mret None).

(** The four parts of [matrix_operation], for an operation of the table of
    [main] and the list [matrix_files].  First the loops that collect the
    pairs of distinct files whose matrices pass the check: every file is
    read once for each pair it is tried in. *)
Definition find_compatible_pairs (op : operation)
    (matrix_files : list (list ascii)) : IO (list (nat * nat)) :=
  for_in (enumerate matrix_files) ([] : list (nat * nat))
         (λ (pairs : list (nat * nat)) '(i, file1),
    matrix1 ← load file1;
    for_in (enumerate matrix_files) pairs
           (λ (pairs : list (nat * nat)) '(j, file2),
      if decide (i ≠ j) then
        matrix2 ← load file2;
        compatible ← dimension_check op matrix1 matrix2;
        if compatible : bool then mret (pairs ++ [(i, j)]) else mret pairs
      else (mret pairs : IO (list (nat * nat))))).

(** Then the list of the files, those of a compatible pair recommended.
    The number of a file is a position in a Python list, far below the
    limit of [str]: it is printed as its numeral. *)
Definition display (op : operation) (matrix_files : list (list ascii))
    (compatible_pairs : list (nat * nat)) : IO unit :=
  print ("010"%char :: chars "Select matrices for " ++ chars (name op)
           ++ chars ":") ;;
  print (chars "Available matrix files:") ;;
  for_in (enumerate matrix_files) () (λ _ '(i, file),
    let recommendation :=
      if decide (Exists (λ pair : nat * nat, i = pair.1 ∨ i = pair.2)
                        compatible_pairs)
      then chars " (recommended)" else [] in
    print (builtins.decimal (Z.of_nat i + 1) ++ chars ". " ++ file
             ++ recommendation)).

(** Then the two choices, read by [select] above, and last the operation
    on the two files chosen.  The choices have been checked when this part
    is reached: they are positions of the list, never negative. *)
Definition operate (op : operation) (matrix_files : list (list ascii))
    (choice1 choice2 : Z) : IO unit :=
  file1 ← run_exc (builtins.getitem matrix_files (Z.to_nat choice1));
  matrix1 ← load file1;
  file2 ← run_exc (builtins.getitem matrix_files (Z.to_nat choice2));
  matrix2 ← load file2;
  compatible ← dimension_check op matrix1 matrix2;
  if negb compatible then
    print (capitalize (chars (name op))
             ++ chars " Error: Matrices dimensions do not match")
  else
    except_ValueError
      (result ← run_py (func op matrix1 matrix2);
       print ("010"%char :: capitalize (chars (name op))
                ++ chars " Result:") ;;
       text ← run_py (SparseMatrix.__str__ result);
       print text ;;
       text ← run_py (SparseMatrix.__str__ result);
       write_file (chars "result_" ++ chars (name op) ++ chars ".txt") text)
      (λ e, print (capitalize (chars (name op)) ++ chars " Error: "
                     ++ message e)).

(** [matrix_operation(input_dir, output_dir, operation['name'],
    operation['func'], operation['check'])] for an operation of the table. *)
Definition matrix_operation (op : operation) : IO unit :=
  files ← listdir;
  let matrix_files :=
    filter (λ f, chars "matrix" `prefix_of` f ∧ chars ".txt" `suffix_of` f)
           files in
  if decide (matrix_files = []) then
    print (chars "No matrix files found in the input directory.")
  else
    compatible_pairs ← find_compatible_pairs op matrix_files;
    display op matrix_files compatible_pairs ;;
    choices ← select (length matrix_files);
    match choices with
    | None => mret ()
    | Some (choice1, choice2) => operate op matrix_files choice1 choice2
    end.

(** The dictionary [operations] of [main], by its keys. *)
Definition operations (choice : Z) : option operation :=
  if decide (choice = 1) then Some addition
  else if decide (choice = 2) then Some subtraction
  else if decide (choice = 3) then Some multiplication
  else None.

(** The operation that [main] reads; [None] when it has printed why it
    returns. *)
Definition choose : IO (option Z) :=
  except_ValueError
    (line ← input (chars "Enter the operation number: ");
     choice ← run_exc (builtins.int line);
     if decide (operations choice = None) then
       print (chars "Invalid choice. Please select a valid operation.") ;;
       mret None
     else mret (Some choice))
    (λ _, print (chars "Invalid input. Please enter a number.") ;; mret None).

Definition main : IO unit :=
  found ← path_exists;
  if negb found then
    input_dir ← the_input_dir;
    print (chars "Input directory '" ++ input_dir
             ++ chars "' does not exist.")
  else
    print (chars "Choose an operation:") ;;
    for_in [(1, addition); (2, subtraction); (3, multiplication)] ()
      (λ _ '(op_num, op),
         print (builtins.decimal op_num ++ chars ". "
                  ++ capitalize (chars (name op)))) ;;
    choice ← choose;
    match choice with
    | None => mret ()
    | Some choice =>
      match operations choice with
      | Some op => matrix_operation op
      | None => stop KeyError
      end
    end.

(** * Specification-level definitions *)

(** Invariant I1: no stored entry has value 0. *)
Definition I1 (o : object) : Prop := map_Forall (λ _ v, v ≠ 0) (elements o).

#[global] Instance I1_dec o : Decision (I1 o).
Proof. unfold I1. apply _. Defined.

(** A computation fails when it raises. *)
Definition fails {A} (m : Py A) (σ : heap) : Prop :=
  ∃ e σ', m σ = (Raised e, σ').

(** The matrices of the scenarios: A and B are 2×2, C is 2×1. *)
Definition matrix_A : object :=
  Build_object (Some 2) (Some 2) (<[(0, 0) := 1]> (<[(1, 1) := 2]> ∅)).
Definition matrix_B : object :=
  Build_object (Some 2) (Some 2) (<[(0, 0) := 3]> (<[(0, 1) := 4]> ∅)).
Definition matrix_C : object :=
  Build_object (Some 2) (Some 1) (<[(0, 0) := 5]> (<[(1, 0) := 6]> ∅)).
Definition heap_ABC : heap :=
  <[1%positive := matrix_A]>
    (<[2%positive := matrix_B]> (<[3%positive := matrix_C]> ∅)).

(** A 2×2 matrix that stores a zero, as the parser builds it from the entry
    line [(1, 0, 0)], beside matrix A. *)
Definition matrix_Z : object :=
  Build_object (Some 2) (Some 2) (<[(1, 0) := 0]> ∅).
Definition heap_Z : heap :=
  <[1%positive := matrix_Z]> (<[2%positive := matrix_A]> ∅).

(** A computation that does nothing but replace the dictionary of the object
    at [l] by its image under [f]. *)
Definition updates (l : loc) (f : gmap (Z * Z) Z → gmap (Z * Z) Z)
    (m : Py unit) : Prop :=
  ∀ σ o, σ !! l = Some o →
    m σ = (Returned (), <[l := with_elements o (f (elements o))]> σ).

(** What [set_element] does to the dictionary. *)
Definition set_element_step (key : Z * Z) (value : Z)
    (d : gmap (Z * Z) Z) : gmap (Z * Z) Z :=
  if decide (value ≠ 0) then <[key := value]> d else delete key d.

(** One step of each loop of [__add__] and [__sub__], as a function on the
    dictionary of the result. *)
Definition copy_step (d : gmap (Z * Z) Z) (x : Z * Z * Z) : gmap (Z * Z) Z :=
  <[x.1 := x.2]> d.

Definition add_step (d : gmap (Z * Z) Z) (x : Z * Z * Z) : gmap (Z * Z) Z :=
  let d' := <[x.1 := default 0 (d !! x.1) + x.2]> d in
  if decide (d' !! x.1 = Some 0) then delete x.1 d' else d'.

Definition sub_step (d : gmap (Z * Z) Z) (x : Z * Z * Z) : gmap (Z * Z) Z :=
  set_element_step x.1 (default 0 (d !! x.1) - x.2) d.

(** The dictionaries that the two loops of [__add__] and of [__sub__] build. *)
Definition add_elements (a b : gmap (Z * Z) Z) : gmap (Z * Z) Z :=
  foldl add_step (foldl copy_step ∅ (map_to_list a)) (map_to_list b).

Definition sub_elements (a b : gmap (Z * Z) Z) : gmap (Z * Z) Z :=
  foldl sub_step (foldl copy_step ∅ (map_to_list a)) (map_to_list b).

(** The value that [__add__] leaves at a key of the right operand. *)
Definition pruned (z : Z) : option Z := if decide (z = 0) then None else Some z.

(** The part of an index that the items of a dictionary decide: the value
    found under the outer key and then under the inner one. *)
Definition cell (index : gmap Z (gmap Z Z)) (outer inner : Z) : option Z :=
  index !! outer ≫= (λ line, line !! inner).

(** The two indexes of [__mul__]. *)
Definition by_row (a : gmap (Z * Z) Z) : gmap Z (gmap Z Z) :=
  foldl (λ index '(row, col, value), SparseMatrix.group index row col value)
        ∅ (map_to_list a).

Definition by_col (b : gmap (Z * Z) Z) : gmap Z (gmap Z Z) :=
  foldl (λ index '(row, col, value), SparseMatrix.group index col row value)
        ∅ (map_to_list b).

(** The dot product that [__mul__] computes for the cell [(i, j)]. *)
Definition dot (a b : gmap (Z * Z) Z) (i j : Z) : Z :=
  SparseMatrix.product_sum (by_row a !!! i) (by_col b !!! j).

Definition mul_cell (a b : gmap (Z * Z) Z) (i j : Z)
    (d : gmap (Z * Z) Z) : gmap (Z * Z) Z :=
  if decide (dot a b i j ≠ 0) then <[(i, j) := dot a b i j]> d else d.

(** The dictionary that the nested loops of [__mul__] build. *)
Definition mul_elements (a b : gmap (Z * Z) Z) : gmap (Z * Z) Z :=
  foldl (λ d i, foldl (λ d j, mul_cell a b i j d) d (map_to_list (by_col b)).*1)
        ∅ (map_to_list (by_row a)).*1.

(** The dot product of [__mul__] in terms of the two operands. *)
Definition term (a b : gmap (Z * Z) Z) (i j k : Z) : Z :=
  default 0 (a !! (i, k)) * default 0 (b !! (k, j)).

(** The assignment in the body of the nested loops of [__mul__], for any
    function of the cell. *)
Definition put (f : Z → Z → Z) (i j : Z) (d : gmap (Z * Z) Z)
    : gmap (Z * Z) Z :=
  if decide (f i j ≠ 0) then <[(i, j) := f i j]> d else d.

(** The sorted items of the matrix that a computation returns. *)
Definition stored (res : outcome loc * heap) : option (list (Z * Z * Z)) :=
  match res with
  | (Returned r, σ) =>
    (λ o, builtins.sorted (map_to_list (elements o))) <$> σ !! r
  | (Raised _, _) => None
  end.

(** The characters of a printed integer. *)
Definition plain (c : ascii) : Prop := c ∈ chars "-0123456789".

(** What [_read_matrix_from_file] reads in a header line: the integer in
    the second field of line [i]. *)
Definition read_header (lines : list (list ascii)) (i : nat) : exception + Z :=
  line ← builtins.getitem lines i;
  field ← builtins.getitem (str.split "="%char line) 1;
  builtins.int (str.strip field).

(** What the loop of [_read_matrix_from_file] reads in one line: nothing in
    a blank line, an item in any other. *)
Definition read_entry (line : list ascii) : exception + option (Z * Z * Z) :=
  if decide (str.strip line ≠ []) then
    item ← builtins.unpack3
      (str.split ","%char
         (str.strip_chars (chars "()" ++ ["010"%char]) line));
    mret (Some item)
  else mret None.

(** What the loop does to the dictionary, and the exception it stops at. *)
Fixpoint read_entries (lines : list (list ascii)) (d : gmap (Z * Z) Z)
    : option exception * gmap (Z * Z) Z :=
  match lines with
  | [] => (None, d)
  | line :: lines' =>
    match read_entry line with
    | inl e => (Some e, d)
    | inr None => read_entries lines' d
    | inr (Some item) => read_entries lines' (<[item.1 := item.2]> d)
    end
  end.

(** What [_read_matrix_from_file] does to the object it fills, and the
    exception it catches. *)
Definition read_file (text : list ascii) (o : object)
    : option exception * object :=
  let lines := file.readlines text in
  match read_header lines 0 with
  | inl e => (Some e, o)
  | inr rows =>
    match read_header lines 1 with
    | inl e => (Some e, Build_object (Some rows) (num_cols o) (elements o))
    | inr cols =>
      let res := read_entries (drop 2 lines) (elements o) in
      (res.1, Build_object (Some rows) (Some cols) res.2)
    end
  end.

(** The outcome of a computation that stops at the exception [e], if any. *)
Definition stopped (wrap : exception → exception) (e : option exception)
    : outcome unit :=
  match e with
  | None => Returned ()
  | Some e => Raised (wrap e)
  end.

(** The lines of a text that was joined with newlines, as [readlines] gives
    them back: all but the last keep a newline. *)
Fixpoint terminated (lines : list (list ascii)) : list (list ascii) :=
  match lines with
  | [] => []
  | [line] => [line]
  | line :: lines' => (line ++ ["010"%char]) :: terminated lines'
  end.

(** An integer that [str] prints: it has no more digits than the limit.
    A matrix that [__str__] prints: its dimensions, when they are integers,
    and every coordinate and value it stores are such integers. *)
Definition short (z : Z) : Prop :=
  (builtins.digits z ≤ builtins.max_str_digits)%nat.

#[global] Instance short_dec z : Decision (short z).
Proof. unfold short. apply _. Defined.

Definition short_dimension (x : option Z) : Prop := from_option short True x.

#[global] Instance short_dimension_dec x : Decision (short_dimension x).
Proof. destruct x; simpl; apply _. Defined.

Definition short_item (item : Z * Z * Z) : Prop :=
  short item.1.1 ∧ short item.1.2 ∧ short item.2.

#[global] Instance short_item_dec item : Decision (short_item item).
Proof. unfold short_item. apply _. Defined.

Definition printable (o : object) : Prop :=
  short_dimension (num_rows o)
  ∧ short_dimension (num_cols o)
  ∧ map_Forall (λ key value, short_item (key, value)) (elements o).

#[global] Instance printable_dec o : Decision (printable o).
Proof. unfold printable. apply _. Defined.

(** The text of a dimension and of an item, and the string that [__str__]
    returns for an object that it prints. *)
Definition dimension_text (x : option Z) : list ascii :=
  match x with
  | Some z => builtins.decimal z
  | None => chars "None"
  end.

Definition entry_text (item : Z * Z * Z) : list ascii :=
  chars "(" ++ builtins.decimal item.1.1 ++ chars ", "
    ++ builtins.decimal item.1.2 ++ chars ", "
    ++ builtins.decimal item.2 ++ chars ")".

Definition serialize (o : object) : list ascii :=
  str.join ["010"%char]
    ([chars "rows=" ++ dimension_text (num_rows o);
      chars "cols=" ++ dimension_text (num_cols o)]
     ++ (entry_text <$> builtins.sorted (map_to_list (elements o)))).

(** The order of the coordinates: by row, then by column. *)
Definition key_lt (x y : Z * Z * Z) : Prop :=
  x.1.1 < y.1.1 ∨ (x.1.1 = y.1.1 ∧ x.1.2 < y.1.2).

(** A line matches [name=<integer>]: the name, the sign [=], an integer. *)
Definition matches_header (name : string) (line : list ascii) : Prop :=
  ∃ field z, line = chars name ++ "="%char :: field
             ∧ builtins.int field = inr z.

(** A header line as the parser takes it: the second of the fields that
    [=] separates is, once trimmed, an integer.  Nothing is asked of the
    first field, nor of a third. *)
Definition header_field (line : list ascii) (z : Z) : Prop :=
  ∃ field, str.split "="%char line !! 1%nat = Some field
           ∧ builtins.int (str.strip field) = inr z.

(** A line that is not blank and holds the three integers of [item]. *)
Definition well_formed_entry (line : list ascii) (item : Z * Z * Z) : Prop :=
  str.strip line ≠ []
  ∧ builtins.unpack3
      (str.split ","%char
         (str.strip_chars (chars "()" ++ ["010"%char]) line))
    = inr item.

(** What is wrong with line [i] of the header, as an exception: the index
    error of Python when there is no such line or no second field in it,
    the error of [int] when the field is not an integer for it. *)
Definition header_error (lines : list (list ascii)) (i : nat)
    (cause : exception) : Prop :=
  match lines !! i with
  | Some line =>
    match str.split "="%char line !! 1%nat with
    | Some field => builtins.int (str.strip field) = inl cause
    | None => cause = IndexError
    end
  | None => cause = IndexError
  end.

(** What is wrong with an entry line: the line is not blank, and the
    assignment of its fields to the three variables raises. *)
Definition entry_error (line : list ascii) (cause : exception) : Prop :=
  str.strip line ≠ []
  ∧ builtins.unpack3
      (str.split ","%char
         (str.strip_chars (chars "()" ++ ["010"%char]) line))
    = inl cause.

(** An entry line that the parser passes: blank, or well formed. *)
Definition in_order (line : list ascii) : Prop :=
  str.strip line = [] ∨ ∃ item, well_formed_entry line item.

(** The matrix of one entry, 10^4300, the least integer of 4301 digits. *)
Definition matrix_L : object :=
  Build_object (Some 1) (Some 1) (<[(0, 0) := 10 ^ 4300]> ∅).

(** A matrix whose entry has 4300 digits, the most that can be printed;
    its double has one digit more. *)
Definition matrix_H : object :=
  Build_object (Some 1) (Some 1) (<[(0, 0) := 5 * 10 ^ 4299]> ∅).

(** The parser raises its format error, with some cause. *)
Definition format_error {A} (res : outcome A * heap) : Prop :=
  ∃ cause σ', res = (Raised (WrongFormat cause), σ').

(** The object that an operator of the table constructs from its operands. *)
Definition result (op : operation) (A B : object) : object :=
  match op with
  | addition =>
    Build_object (num_rows A) (num_cols A)
      (add_elements (elements A) (elements B))
  | subtraction =>
    Build_object (num_rows A) (num_cols A)
      (sub_elements (elements A) (elements B))
  | multiplication =>
    Build_object (num_rows A) (num_cols B)
      (mul_elements (elements A) (elements B))
  end.

(** What [get_element] returns for an object. *)
Definition get (o : object) (row col : Z) : Z :=
  default 0 (elements o !! (row, col)).

(** Two references name matrices that [get_element] cannot tell apart. *)
Definition same_elements (σ : heap) (p q : loc) : Prop :=
  ∀ row col, ∃ v,
    SparseMatrix.get_element p row col σ = (Returned v, σ)
    ∧ SparseMatrix.get_element q row col σ = (Returned v, σ).

(** The columns that a dictionary stores something in, and the rows. *)
Definition cols_of (d : gmap (Z * Z) Z) : gset Z := set_map snd (dom d).
Definition rows_of (d : gmap (Z * Z) Z) : gset Z := set_map fst (dom d).

(** The [n]×[n] matrix that stores 1 at the coordinates [(k, k)],
    [0 <= k < n]. *)
Definition identity (n : Z) : object :=
  Build_object (Some n) (Some n)
    (list_to_map ((λ k : Z, ((k, k), 1)) <$> seqZ 0 n)).

(** Matrix A beside the 2×2 identity, and beside a 2×3 matrix that stores
    nothing. *)
Definition heap_I : heap :=
  <[1%positive := matrix_A]> (<[2%positive := identity 2]> ∅).
Definition matrix_E : object := Build_object (Some 2) (Some 3) ∅.
Definition heap_E : heap :=
  <[1%positive := matrix_A]> (<[2%positive := matrix_E]> ∅).

(** The white space that [int] accepts around a number, the newline apart
    (tab, vertical tab, form feed, carriage return, space, next line and
    no-break space), and the characters that [line.strip('()\n')] removes. *)
Definition padding (w : list ascii) : Prop :=
  Forall (λ c, N_of_ascii c ∈ [9; 11; 12; 13; 32; 133; 160]%N) w.
Definition brackets (s : list ascii) : Prop :=
  Forall (λ c, bool_decide (c ∈ chars "()" ++ ["010"%char]) = true) s.

(** What the constructor makes of a text: the matrix, or the exception. *)
Definition parse (text : list ascii) : exception + object :=
  let res := read_file text (Build_object None None ∅) in
  match res.1 with
  | None => inr res.2
  | Some e => inl (WrongFormat e)
  end.

(** The matrix files of the directory, and the name of the file that
    [matrix_operation] writes. *)
Definition matrix_files (w : world) : list (list ascii) :=
  filter (λ f, chars "matrix" `prefix_of` f ∧ chars ".txt" `suffix_of` f)
         (listing w).

Definition result_file (op : operation) : list ascii :=
  chars "result_" ++ chars (name op) ++ chars ".txt".

(** Steps that build objects and do nothing else. *)
Definition quiet (w w' : world) : Prop :=
  memory w ⊆ memory w' ∧ w' = set_memory w (memory w').

(** What a step of the program may do: build objects, read at most [n]
    lines from the keyboard, print, and, when [allowed] is an operation,
    write the result file of that operation.  The objects there were, the
    directory and its files, and the other files of the output directory
    stay as they are. *)
Definition frame (allowed : option operation) (n : nat) (w w' : world)
    : Prop :=
  memory w ⊆ memory w'
  ∧ (∃ k, (k ≤ n)%nat ∧ stdin w' = drop k (stdin w))
  ∧ stdout w `prefix_of` stdout w'
  ∧ (output w' = output w
     ∨ ∃ op text, allowed = Some op
                  ∧ output w' = <[result_file op := text]> (output w))
  ∧ input_dir w' = input_dir w
  ∧ input_dir_exists w' = input_dir_exists w
  ∧ listing w' = listing w
  ∧ texts w' = texts w.

(** Two files of the directory are compatible for an operation when the
    constructor reads both and their matrices, in this order, pass the
    check of the operation; [compatible_pairs] lists the positions of the
    compatible pairs of distinct files, in the order of the two loops. *)
Definition compatible (op : operation) (tx : list ascii → list ascii)
    (f1 f2 : list ascii) : Prop :=
  match parse (tx f1), parse (tx f2) with
  | inr M1, inr M2 => check op M1 M2
  | _, _ => False
  end.

#[global] Instance compatible_dec op tx f1 f2 :
  Decision (compatible op tx f1 f2).
Proof.
  unfold compatible. destruct (parse (tx f1)), (parse (tx f2)); apply _.
Defined.

Definition compatible_with (op : operation) (tx : list ascii → list ascii)
    (i : nat) (f1 : list ascii) (ixs : list (nat * list ascii))
    : list (nat * nat) :=
  x ← ixs;
  if decide (i ≠ x.1 ∧ compatible op tx f1 x.2) then [(i, x.1)] else [].

Definition compatible_pairs (op : operation) (tx : list ascii → list ascii)
    (files : list (list ascii)) : list (nat * nat) :=
  x ← enumerate files; compatible_with op tx x.1 x.2 (enumerate files).

(** The line of a file in the list that [matrix_operation] prints. *)
Definition listed (mark : nat → bool) (x : nat * list ascii) : list ascii :=
  builtins.decimal (Z.of_nat x.1 + 1) ++ chars ". " ++ x.2
    ++ (if mark x.1 then chars " (recommended)" else []) ++ ["010"%char].

(** The two ways in which the program stops: the keyboard has no line
    left, or the constructor has raised its format error for a file. *)
Definition fatal (s : signal) : Prop :=
  s = EOFError ∨ ∃ cause, s = Error (WrongFormat cause).

(** What [main] prints before it reads the number of the operation. *)
Definition menu : list ascii :=
  chars "Choose an operation:" ++ "010"%char
    :: chars "1. Addition" ++ "010"%char
    :: chars "2. Subtraction" ++ "010"%char
    :: chars "3. Multiplication" ++ "010"%char
    :: chars "Enter the operation number: ".

(** Every run of [m] relates the world it starts in to the world it ends
    in. *)
Definition keeps {A} (R : relation world) (m : IO A) : Prop :=
  ∀ w res w', m w = (res, w') → R w w'.

(** The constructor reads every file of the list into a matrix. *)
Definition readable (w : world) (files : list (list ascii)) : Prop :=
  Forall (λ f, ∃ M, parse (texts w f) = inr M) files.

(** The lines that [matrix_operation] prints before it asks for the two
    matrices are of no interest here: [shows w w' tail] says that the run
    from [w] to [w'] has printed something that ends with [tail]. *)
Definition shows (w w' : world) (tail : list ascii) : Prop :=
  ∃ shown, stdout w' = stdout w ++ shown ++ tail.

(** A directory with the matrices A, B and C of the scenarios, as [__str__]
    prints them, a file that is no matrix file, and the lines [lines] at the
    keyboard; and the same directory with a matrix file that stops after
    its first line. *)
Definition sample_texts (f : list ascii) : list ascii :=
  if decide (f = chars "matrix1.txt") then serialize matrix_A
  else if decide (f = chars "matrix2.txt") then serialize matrix_B
  else if decide (f = chars "matrix3.txt") then serialize matrix_C
  else chars "rows=2".

Definition sample_world (lines : list (list ascii)) : world :=
  World ∅ (chars "/sample_inputs") true
        [chars "matrix1.txt"; chars "notes.txt"; chars "matrix2.txt";
         chars "matrix3.txt"]
        sample_texts lines [] ∅.

Definition broken_world (lines : list (list ascii)) : world :=
  World ∅ (chars "/sample_inputs") true
        [chars "matrix1.txt"; chars "matrix2.txt"; chars "matrix_bad.txt";
         chars "matrix3.txt"]
        sample_texts lines [] ∅.

(** A directory whose one matrix file holds the matrix H. *)
Definition long_world (lines : list (list ascii)) : world :=
  World ∅ (chars "/sample_inputs") true [chars "matrix1.txt"]
        (λ _, serialize matrix_H) lines [] ∅.

(** * Verification *)

#[local] Set Warnings "-clear-no-such-hyp".

(** ** Running computations *)

Section monad.
Context {A B : Type}.
Implicit Types (m : Py A) (f : A → Py B) (σ : heap).

Lemma run_bind m f σ a σ' :
  m σ = (Returned a, σ') → (m ≫= f) σ = f a σ'.
Proof. unfold mbind, Py_bind. by intros ->. Qed.

Lemma run_bind_raised m f σ e σ' :
  m σ = (Raised e, σ') → (m ≫= f) σ = (Raised e, σ').
Proof. unfold mbind, Py_bind. by intros ->. Qed.
End monad.

Lemma run_read σ l o : σ !! l = Some o → read l σ = (Returned o, σ).
Proof. unfold read. by intros ->. Qed.

Lemma run_write σ l o o' :
  σ !! l = Some o → write l o' σ = (Returned (), <[l := o']> σ).
Proof. unfold write. by intros ->. Qed.

Lemma with_elements_id o : with_elements o (elements o) = o.
Proof. by destruct o. Qed.

Lemma updates_ext l f g m : (∀ d, f d = g d) → updates l f m → updates l g m.
Proof. intros Hfg Hm σ o Hl. rewrite <-Hfg. by apply Hm. Qed.

Lemma updates_skip l : updates l id (mret ()).
Proof.
  intros σ o Hl. unfold mret, Py_ret. simpl.
  by rewrite with_elements_id, insert_id.
Qed.

Lemma updates_seq l f g m1 m2 :
  updates l f m1 → updates l g m2 → updates l (g ∘ f) (m1 ;; m2).
Proof.
  intros H1 H2 σ o Hl. erewrite run_bind by (by apply H1).
  erewrite H2 by apply lookup_insert_eq. by rewrite insert_insert_eq.
Qed.

Lemma updates_setitem l key value :
  updates l (<[key := value]>) (setitem l key value).
Proof.
  intros σ o Hl. unfold setitem. erewrite run_bind by (by apply run_read).
  by erewrite run_write.
Qed.

Lemma updates_delitem l key : updates l (delete key) (delitem l key).
Proof.
  intros σ o Hl. unfold delitem. erewrite run_bind by (by apply run_read).
  by erewrite run_write.
Qed.

Lemma updates_for_each {X} (l : loc) (step : X → gmap (Z * Z) Z → gmap (Z * Z) Z)
    (xs : list X) body :
  (∀ x, updates l (step x) (body x)) →
  updates l (λ d, foldl (λ d x, step x d) d xs) (for_each xs body).
Proof.
  intros Hbody. induction xs as [|x xs IH]; simpl.
  - apply updates_skip.
  - eapply updates_ext; [|by apply updates_seq]. done.
Qed.

Lemma run_get_element σ l o row col :
  σ !! l = Some o →
  SparseMatrix.get_element l row col σ
  = (Returned (default 0 (elements o !! (row, col))), σ).
Proof.
  intros Hl. unfold SparseMatrix.get_element.
  by erewrite run_bind by (by apply run_read).
Qed.

Lemma run_items σ l o :
  σ !! l = Some o →
  SparseMatrix.items l σ = (Returned (map_to_list (elements o)), σ).
Proof.
  intros Hl. unfold SparseMatrix.items.
  by erewrite run_bind by (by apply run_read).
Qed.

Lemma updates_set_element l row col value :
  updates l (set_element_step (row, col) value)
    (SparseMatrix.set_element l row col value).
Proof.
  unfold SparseMatrix.set_element, set_element_step.
  destruct (decide (value ≠ 0)); [apply updates_setitem|].
  intros σ o Hl. erewrite run_bind by (by apply run_read).
  destruct (decide (is_Some (elements o !! (row, col)))) as [|Hno].
  - by apply updates_delitem.
  - rewrite delete_id by (by apply eq_None_not_Some). by apply updates_skip.
Qed.

(** ** Folds that change one key at a time *)

(** A loop over the items of a dictionary, whose step at key [k] changes the
    state only as seen at [k], leaves at every key what one step makes of it. *)
Lemma foldl_pointwise `{Countable K} {V W S : Type}
    (view : S → K → option W) (step : S → K * V → S)
    (g : V → option W → option W) (l : list (K * V)) (s : S) (k : K) :
  (∀ s k v k', view (step s (k, v)) k'
               = if decide (k = k') then g v (view s k) else view s k') →
  NoDup l.*1 →
  view (foldl step s l) k
  = match (list_to_map l : gmap K V) !! k with
    | Some v => g v (view s k)
    | None => view s k
    end.
Proof.
  intros Hstep. revert s. induction l as [|[k1 v1] l IH]; intros s Hnd.
  { simpl. by rewrite lookup_empty. }
  apply NoDup_cons in Hnd as [Hk1 Hnd]. simpl. rewrite IH, Hstep by done.
  destruct (decide (k1 = k)) as [->|Hne].
  - rewrite lookup_insert_eq.
    by rewrite (proj1 (not_elem_of_list_to_map l k)).
  - by rewrite lookup_insert_ne.
Qed.

Lemma foldl_pointwise_items `{Countable K} {V W S : Type}
    (view : S → K → option W) (step : S → K * V → S)
    (g : V → option W → option W) (d : gmap K V) (s : S) (k : K) :
  (∀ s k v k', view (step s (k, v)) k'
               = if decide (k = k') then g v (view s k) else view s k') →
  view (foldl step s (map_to_list d)) k
  = match d !! k with
    | Some v => g v (view s k)
    | None => view s k
    end.
Proof.
  intros Hstep.
  rewrite (foldl_pointwise view step g);
    [|done|apply NoDup_fst_map_to_list].
  by rewrite list_to_map_to_list.
Qed.

(** ** Addition and subtraction *)

Lemma run_init σ nr nc :
  SparseMatrix.__init__ None nr nc σ
  = (Returned (fresh (dom σ)), <[fresh (dom σ) := Build_object nr nc ∅]> σ).
Proof. done. Qed.

Lemma fresh_unused (σ : heap) : σ !! fresh (dom σ) = None.
Proof. apply not_elem_of_dom, is_fresh. Qed.

Lemma lookup_fresh_ne (σ : heap) l o : σ !! l = Some o → l ≠ fresh (dom σ).
Proof. intros Hl ->. by rewrite fresh_unused in Hl. Qed.

Lemma updates_add_body l x :
  updates l (λ d, add_step d x)
    (let '(row, col, value) := x in
     v ← SparseMatrix.get_element l row col;
     setitem l (row, col) (v + value) ;;
     r ← read l;
     if decide (elements r !! (row, col) = Some 0)
     then delitem l (row, col)
     else mret ()).
Proof.
  destruct x as [[row col] value]. intros σ o Hl.
  erewrite run_bind by (by apply run_get_element).
  erewrite run_bind by (by apply updates_setitem).
  erewrite run_bind by apply run_read, lookup_insert_eq.
  unfold add_step. simpl. case_decide.
  - erewrite updates_delitem by apply lookup_insert_eq.
    by rewrite insert_insert_eq.
  - done.
Qed.

Lemma updates_sub_body l x :
  updates l (λ d, sub_step d x)
    (let '(row, col, value) := x in
     v ← SparseMatrix.get_element l row col;
     SparseMatrix.set_element l row col (v - value)).
Proof.
  destruct x as [[row col] value]. intros σ o Hl.
  erewrite run_bind by (by apply run_get_element).
  by apply updates_set_element.
Qed.

Lemma updates_copy_body l x :
  updates l (λ d, copy_step d x)
    (let '(row, col, value) := x in setitem l (row, col) value).
Proof. destruct x as [[row col] value]. apply updates_setitem. Qed.

Lemma run_add σ a b A B :
  σ !! a = Some A → σ !! b = Some B →
  num_rows A = num_rows B → num_cols A = num_cols B →
  SparseMatrix.__add__ a b σ
  = (Returned (fresh (dom σ)),
     <[fresh (dom σ) := Build_object (num_rows A) (num_cols A)
                          (add_elements (elements A) (elements B))]> σ).
Proof.
  intros Ha Hb Hr Hc. unfold SparseMatrix.__add__.
  erewrite run_bind by (by apply run_read).
  erewrite run_bind by (by apply run_read).
  rewrite decide_False by (intros [?|?]; done).
  erewrite run_bind by apply run_init.
  set (r := fresh (dom σ)).
  assert (a ≠ r) by eauto using lookup_fresh_ne.
  assert (b ≠ r) by eauto using lookup_fresh_ne.
  erewrite run_bind by (apply run_items; by rewrite lookup_insert_ne).
  erewrite run_bind; last first.
  { apply (updates_for_each r (λ x d, copy_step d x)).
    - intros x. apply updates_copy_body.
    - apply lookup_insert_eq. }
  rewrite insert_insert_eq. simpl.
  erewrite run_bind by (apply run_items; by rewrite lookup_insert_ne).
  erewrite run_bind; last first.
  { apply (updates_for_each r (λ x d, add_step d x)).
    - intros x. apply updates_add_body.
    - apply lookup_insert_eq. }
  by rewrite insert_insert_eq.
Qed.

Lemma run_sub σ a b A B :
  σ !! a = Some A → σ !! b = Some B →
  num_rows A = num_rows B → num_cols A = num_cols B →
  SparseMatrix.__sub__ a b σ
  = (Returned (fresh (dom σ)),
     <[fresh (dom σ) := Build_object (num_rows A) (num_cols A)
                          (sub_elements (elements A) (elements B))]> σ).
Proof.
  intros Ha Hb Hr Hc. unfold SparseMatrix.__sub__.
  erewrite run_bind by (by apply run_read).
  erewrite run_bind by (by apply run_read).
  rewrite decide_False by (intros [?|?]; done).
  erewrite run_bind by apply run_init.
  set (r := fresh (dom σ)).
  assert (a ≠ r) by eauto using lookup_fresh_ne.
  assert (b ≠ r) by eauto using lookup_fresh_ne.
  erewrite run_bind by (apply run_items; by rewrite lookup_insert_ne).
  erewrite run_bind; last first.
  { apply (updates_for_each r (λ x d, copy_step d x)).
    - intros x. apply updates_copy_body.
    - apply lookup_insert_eq. }
  rewrite insert_insert_eq. simpl.
  erewrite run_bind by (apply run_items; by rewrite lookup_insert_ne).
  erewrite run_bind; last first.
  { apply (updates_for_each r (λ x d, sub_step d x)).
    - intros x. apply updates_sub_body.
    - apply lookup_insert_eq. }
  by rewrite insert_insert_eq.
Qed.

Lemma dims_equal_or_not (A B : object) :
  (num_rows A = num_rows B ∧ num_cols A = num_cols B)
  ∨ (num_rows A ≠ num_rows B ∨ num_cols A ≠ num_cols B).
Proof.
  destruct (decide (num_rows A = num_rows B)),
    (decide (num_cols A = num_cols B)); auto.
Qed.

Lemma run_add_mismatch σ a b A B :
  σ !! a = Some A → σ !! b = Some B →
  num_rows A ≠ num_rows B ∨ num_cols A ≠ num_cols B →
  SparseMatrix.__add__ a b σ = (Raised (DimensionsDoNotMatch "addition"), σ).
Proof.
  intros Ha Hb Hne. unfold SparseMatrix.__add__.
  erewrite run_bind by (by apply run_read).
  erewrite run_bind by (by apply run_read).
  by rewrite decide_True.
Qed.

Lemma run_sub_mismatch σ a b A B :
  σ !! a = Some A → σ !! b = Some B →
  num_rows A ≠ num_rows B ∨ num_cols A ≠ num_cols B →
  SparseMatrix.__sub__ a b σ
  = (Raised (DimensionsDoNotMatch "subtraction"), σ).
Proof.
  intros Ha Hb Hne. unfold SparseMatrix.__sub__.
  erewrite run_bind by (by apply run_read).
  erewrite run_bind by (by apply run_read).
  by rewrite decide_True.
Qed.

(** The copy of a dictionary is the dictionary. *)
Lemma copy_elements (a : gmap (Z * Z) Z) :
  foldl copy_step ∅ (map_to_list a) = a.
Proof.
  apply map_eq. intros k.
  rewrite (foldl_pointwise_items (λ d k, d !! k) copy_step (λ v _, Some v)).
  - rewrite lookup_empty. by destruct (a !! k).
  - intros d k1 v k2. unfold copy_step. simpl. by rewrite lookup_insert.
Qed.

Lemma lookup_add_elements a b k :
  add_elements a b !! k
  = match b !! k with
    | Some v => pruned (default 0 (a !! k) + v)
    | None => a !! k
    end.
Proof.
  unfold add_elements. rewrite copy_elements.
  rewrite (foldl_pointwise_items (λ d k, d !! k) add_step
             (λ v o, pruned (default 0 o + v))); [done|].
  intros d k1 v k2. unfold add_step, pruned. simpl.
  rewrite lookup_insert_eq.
  destruct (decide (k1 = k2)) as [<-|Hne].
  - destruct (decide (default 0 (d !! k1) + v = 0)) as [Hz|Hnz].
    + rewrite decide_True by (by rewrite Hz). apply lookup_delete_eq.
    + rewrite decide_False by congruence. apply lookup_insert_eq.
  - case_decide.
    + by rewrite lookup_delete_ne, lookup_insert_ne.
    + by rewrite lookup_insert_ne.
Qed.

Lemma lookup_sub_elements a b k :
  sub_elements a b !! k
  = match b !! k with
    | Some v => pruned (default 0 (a !! k) - v)
    | None => a !! k
    end.
Proof.
  unfold sub_elements. rewrite copy_elements.
  rewrite (foldl_pointwise_items (λ d k, d !! k) sub_step
             (λ v o, pruned (default 0 o - v))); [done|].
  intros d k1 v k2. unfold sub_step, set_element_step, pruned. simpl.
  destruct (decide (k1 = k2)) as [<-|Hne].
  - destruct (decide (default 0 (d !! k1) - v = 0)) as [Hz|Hnz].
    + rewrite decide_False by tauto. apply lookup_delete_eq.
    + rewrite decide_True by done. apply lookup_insert_eq.
  - case_decide.
    + by rewrite lookup_insert_ne.
    + by rewrite lookup_delete_ne.
Qed.

Lemma default_pruned z : default 0 (pruned z) = z.
Proof. unfold pruned. by case_decide. Qed.

Lemma get_add_elements a b k :
  default 0 (add_elements a b !! k)
  = default 0 (a !! k) + default 0 (b !! k).
Proof.
  rewrite lookup_add_elements. destruct (b !! k); simpl.
  - apply default_pruned.
  - lia.
Qed.

Lemma get_sub_elements a b k :
  default 0 (sub_elements a b !! k)
  = default 0 (a !! k) - default 0 (b !! k).
Proof.
  rewrite lookup_sub_elements. destruct (b !! k); simpl.
  - apply default_pruned.
  - lia.
Qed.

(** ** Multiplication *)

Lemma cell_group index outer inner value outer' inner' :
  cell (SparseMatrix.group index outer inner value) outer' inner'
  = if decide (outer = outer' ∧ inner = inner') then Some value
    else cell index outer' inner'.
Proof.
  unfold cell, SparseMatrix.group. rewrite lookup_alter.
  destruct (decide (outer = outer')) as [<-|Hne]; last first.
  { destruct (decide (outer = outer' ∧ inner = inner')) as [[? _]|_]; [done|].
    case_decide; [by rewrite lookup_insert_ne|done]. }
  destruct (index !! outer) as [line|] eqn:Hline.
  - rewrite (decide_False (P := Some line = None)) by done.
    rewrite Hline. simpl.
    rewrite lookup_insert.
    destruct (decide (inner = inner')); case_decide; naive_solver.
  - rewrite (decide_True (P := None = None)) by done.
    rewrite lookup_insert_eq. simpl.
    rewrite lookup_insert, lookup_empty.
    destruct (decide (inner = inner')); case_decide; naive_solver.
Qed.

Lemma cell_by_row a i k : cell (by_row a) i k = a !! (i, k).
Proof.
  unfold by_row.
  rewrite (foldl_pointwise_items (λ index key, cell index key.1 key.2) _
             (λ v _, Some v) a ∅ (i, k)).
  - unfold cell. rewrite lookup_empty. by destruct (a !! (i, k)).
  - intros index [r c] v [r' c']. simpl. rewrite cell_group.
    destruct (decide ((r, c) = (r', c'))); case_decide; naive_solver.
Qed.

Lemma cell_by_col b k j : cell (by_col b) j k = b !! (k, j).
Proof.
  unfold by_col.
  rewrite (foldl_pointwise_items (λ index key, cell index key.2 key.1) _
             (λ v _, Some v) b ∅ (k, j)).
  - unfold cell. rewrite lookup_empty. by destruct (b !! (k, j)).
  - intros index [r c] v [r' c']. simpl. rewrite cell_group.
    destruct (decide ((r, c) = (r', c'))); case_decide; naive_solver.
Qed.

Lemma lookup_total_cell (index : gmap Z (gmap Z Z)) outer inner :
  (index !!! outer) !! inner = cell index outer inner.
Proof.
  unfold cell. rewrite lookup_total_alt.
  destruct (index !! outer); simpl; [done|apply lookup_empty].
Qed.

Lemma updates_mul_cell l a b i j :
  updates l (mul_cell a b i j)
    (if decide (dot a b i j ≠ 0) then setitem l (i, j) (dot a b i j)
     else mret ()).
Proof.
  unfold mul_cell. case_decide; [apply updates_setitem|apply updates_skip].
Qed.

Lemma run_mul σ a b A B :
  σ !! a = Some A → σ !! b = Some B → num_cols A = num_rows B →
  SparseMatrix.__mul__ a b σ
  = (Returned (fresh (dom σ)),
     <[fresh (dom σ) := Build_object (num_rows A) (num_cols B)
                          (mul_elements (elements A) (elements B))]> σ).
Proof.
  intros Ha Hb Hdim. unfold SparseMatrix.__mul__.
  erewrite run_bind by (by apply run_read).
  erewrite run_bind by (by apply run_read).
  rewrite decide_False by (by intros ?).
  erewrite run_bind by apply run_init.
  set (r := fresh (dom σ)).
  assert (a ≠ r) by eauto using lookup_fresh_ne.
  assert (b ≠ r) by eauto using lookup_fresh_ne.
  erewrite run_bind by (apply run_items; by rewrite lookup_insert_ne).
  erewrite run_bind by (apply run_items; by rewrite lookup_insert_ne).
  erewrite run_bind; last first.
  { apply (updates_for_each r
             (λ i d, foldl (λ d j, mul_cell (elements A) (elements B) i j d) d
                           (map_to_list (by_col (elements B))).*1)).
    - intros i.
      apply (updates_for_each r (mul_cell (elements A) (elements B) i)).
      intros j. apply updates_mul_cell.
    - apply lookup_insert_eq. }
  by rewrite insert_insert_eq.
Qed.

Lemma run_mul_mismatch σ a b A B :
  σ !! a = Some A → σ !! b = Some B → num_cols A ≠ num_rows B →
  SparseMatrix.__mul__ a b σ
  = (Raised (DimensionsDoNotMatch "multiplication"), σ).
Proof.
  intros Ha Hb Hne. unfold SparseMatrix.__mul__.
  erewrite run_bind by (by apply run_read).
  erewrite run_bind by (by apply run_read).
  by rewrite decide_True.
Qed.

Ltac split_cons :=
  repeat match goal with
         | H : context [_ ∈ _ :: _] |- _ => rewrite elem_of_cons in H
         end;
  rewrite ?elem_of_cons.

Section cells.
Context (f : Z → Z → Z).

Lemma lookup_foldl_put_inner js d i i' j :
  foldl (λ d j, put f i j d) d js !! (i', j)
  = if decide (i = i' ∧ j ∈ js ∧ f i j ≠ 0) then Some (f i j)
    else d !! (i', j).
Proof.
  revert d. induction js as [|j1 js IH]; intros d; simpl.
  { case_decide as Hin; [|done]. rewrite elem_of_nil in Hin. tauto. }
  rewrite IH. unfold put.
  destruct (decide (f i j1 ≠ 0)); rewrite ?lookup_insert;
    repeat case_decide; try done; split_cons; naive_solver.
Qed.

Lemma lookup_foldl_put (rows js : list Z) d i j :
  foldl (λ d i, foldl (λ d j, put f i j d) d js) d rows !! (i, j)
  = if decide (i ∈ rows ∧ j ∈ js ∧ f i j ≠ 0) then Some (f i j)
    else d !! (i, j).
Proof.
  revert d. induction rows as [|i1 rows IH]; intros d.
  { case_decide as Hin; [|done]. rewrite elem_of_nil in Hin. tauto. }
  simpl. rewrite IH, lookup_foldl_put_inner.
  repeat case_decide; try done; split_cons; naive_solver.
Qed.
End cells.

(** ** Sums *)

Lemma foldl_add (a : Z) (xs : list Z) :
  foldl Z.add a xs = a + foldr Z.add 0 xs.
Proof.
  revert a. induction xs as [|x xs IH]; intros a; simpl; [lia|].
  rewrite IH. lia.
Qed.

Lemma sum_foldr xs : builtins.sum xs = foldr Z.add 0 xs.
Proof. unfold builtins.sum. by rewrite foldl_add. Qed.

Lemma sum_cons x xs : builtins.sum (x :: xs) = x + builtins.sum xs.
Proof. by rewrite !sum_foldr. Qed.

#[global] Instance sum_Permutation : Proper ((≡ₚ) ==> (=)) builtins.sum.
Proof.
  intros xs ys Hperm. rewrite !sum_foldr.
  induction Hperm; simpl; lia.
Qed.

(** Terms that are zero do not count. *)
Lemma sum_filter_nonzero (f : Z → Z) (ks : list Z) :
  builtins.sum (f <$> ks)
  = builtins.sum (f <$> filter (λ k, f k ≠ 0) ks).
Proof.
  induction ks as [|k ks IH]; [done|].
  rewrite fmap_cons, sum_cons, IH, filter_cons.
  case_decide; [by rewrite fmap_cons, sum_cons|lia].
Qed.

(** The sum of a function over a finite set of indices depends only on the
    indices where the function is not zero. *)
Lemma sum_support (f : Z → Z) (X Y : gset Z) :
  (∀ k, f k ≠ 0 → (k ∈ X ↔ k ∈ Y)) →
  builtins.sum (f <$> base.elements X) = builtins.sum (f <$> base.elements Y).
Proof.
  intros Hsupp.
  rewrite (sum_filter_nonzero f (base.elements X)).
  rewrite (sum_filter_nonzero f (base.elements Y)).
  apply sum_Permutation, fmap_Permutation, NoDup_Permutation.
  - apply NoDup_filter, NoDup_elements.
  - apply NoDup_filter, NoDup_elements.
  - intros k. rewrite !list_elem_of_filter, !elem_of_elements. naive_solver.
Qed.

Lemma dot_sum a b i j (K : gset Z) :
  (∀ k, term a b i j k ≠ 0 → k ∈ K) →
  dot a b i j = builtins.sum (term a b i j <$> base.elements K).
Proof.
  intros HK. unfold dot, SparseMatrix.product_sum.
  set (row := by_row a !!! i). set (col := by_col b !!! j).
  assert (∀ k, row !! k = a !! (i, k)) as Hrow.
  { intros k. unfold row. by rewrite lookup_total_cell, cell_by_row. }
  assert (∀ k, col !! k = b !! (k, j)) as Hcol.
  { intros k. unfold col. by rewrite lookup_total_cell, cell_by_col. }
  erewrite (list_fmap_ext _ (term a b i j)); last first.
  { intros _ k _. unfold term. by rewrite Hrow, Hcol. }
  apply sum_support. intros k Hk. split; [auto|]. intros _.
  unfold term in Hk. rewrite elem_of_intersection, !elem_of_dom, Hrow, Hcol.
  destruct (a !! (i, k)), (b !! (k, j)); simpl in Hk; split; by eauto || lia.
Qed.

Lemma dot_zero_row a b i j : by_row a !! i = None → dot a b i j = 0.
Proof.
  intros Hi. rewrite (dot_sum a b i j ∅); [by rewrite elements_empty|].
  intros k Hk. exfalso. apply Hk. unfold term.
  rewrite <-cell_by_row. unfold cell. rewrite Hi. simpl. lia.
Qed.

Lemma dot_zero_col a b i j : by_col b !! j = None → dot a b i j = 0.
Proof.
  intros Hj. rewrite (dot_sum a b i j ∅); [by rewrite elements_empty|].
  intros k Hk. exfalso. apply Hk. unfold term.
  rewrite <-(cell_by_col b k j). unfold cell. rewrite Hj. simpl. lia.
Qed.

Lemma elem_of_keys `{Countable K} {V} (m : gmap K V) k :
  k ∈ (map_to_list m).*1 ↔ is_Some (m !! k).
Proof.
  split.
  - intros ([k' v] & -> & Hin)%list_elem_of_fmap.
    apply elem_of_map_to_list in Hin. by eexists.
  - intros [v Hv]. apply list_elem_of_fmap. exists (k, v).
    by rewrite elem_of_map_to_list.
Qed.

Lemma lookup_mul_elements a b i j :
  mul_elements a b !! (i, j) = pruned (dot a b i j).
Proof.
  unfold mul_elements, mul_cell.
  rewrite (lookup_foldl_put (dot a b)), lookup_empty. unfold pruned.
  destruct (decide (dot a b i j = 0)) as [Hz|Hnz].
  - case_decide; [|done]. naive_solver.
  - case_decide as Hno; [done|]. exfalso; apply Hno.
    split_and!; [apply elem_of_keys..|done].
    + destruct (by_row a !! i) eqn:Hi; [by eexists|].
      by rewrite dot_zero_row in Hnz.
    + destruct (by_col b !! j) eqn:Hj; [by eexists|].
      by rewrite dot_zero_col in Hnz.
Qed.

(** ** Integers in base 10 *)

Lemma int_digits_acc (d : Decimal.uint) (p : positive) :
  builtins.int_digits (Z.pos p) (builtins.uint_digits d)
  = Some (Z.pos (Pos.of_uint_acc d p)).
Proof.
  revert p. induction d as [|d IH|d IH|d IH|d IH|d IH|d IH|d IH|d IH|d IH|d IH];
    intros p; [done|..];
    cbn [builtins.uint_digits builtins.int_digits Pos.of_uint_acc];
    match goal with
    | |- context [builtins.digit ?c] =>
      let v := eval vm_compute in (builtins.digit c) in
      change (builtins.digit c) with v
    end; cbv iota beta; rewrite <-IH; f_equal; lia.
Qed.

Lemma int_digits_zero (d : Decimal.uint) :
  builtins.int_digits 0 (builtins.uint_digits d)
  = Some (Z.of_N (Pos.of_uint d)).
Proof.
  induction d as [|d IH|d IH|d IH|d IH|d IH|d IH|d IH|d IH|d IH|d IH];
    [done|..];
    cbn [builtins.uint_digits builtins.int_digits Pos.of_uint];
    match goal with
    | |- context [builtins.digit ?c] =>
      let v := eval vm_compute in (builtins.digit c) in
      change (builtins.digit c) with v
    end; cbv iota beta; [exact IH|exact (int_digits_acc d _)..].
Qed.

Lemma int_unsigned_uint_digits (d : Decimal.uint) :
  d ≠ Decimal.Nil →
  builtins.int_unsigned (builtins.uint_digits d) = Some (Z.of_uint d).
Proof.
  unfold Z.of_uint.
  destruct d as [|d|d|d|d|d|d|d|d|d|d]; intros Hd; [done|..];
    cbn [builtins.uint_digits builtins.int_unsigned Pos.of_uint];
    match goal with
    | |- context [builtins.digit ?c] =>
      let v := eval vm_compute in (builtins.digit c) in
      change (builtins.digit c) with v
    end; cbn [mbind option_bind];
    [apply int_digits_zero|exact (int_digits_acc d _)..].
Qed.

(** ** Stripping *)

Section strip.
Context (p : ascii → bool).

Lemma lstrip_with_app_all pre s :
  Forall (λ c, p c = true) pre →
  str.lstrip_with p (pre ++ s) = str.lstrip_with p s.
Proof. induction 1 as [|c pre Hc _ IH]; simpl; [done|]. by rewrite Hc. Qed.

Lemma lstrip_with_none s :
  Forall (λ c, p c = false) s → str.lstrip_with p s = s.
Proof. destruct 1 as [|c s Hc _]; simpl; [done|]. by rewrite Hc. Qed.

Lemma lstrip_with_nil s :
  str.lstrip_with p s = [] ↔ Forall (λ c, p c = true) s.
Proof.
  induction s as [|c s IH]; simpl; [by split|].
  destruct (p c) eqn:Hc.
  - rewrite IH. split; [by constructor|]. by inversion 1.
  - split; [done|]. inversion 1; congruence.
Qed.

Lemma lstrip_with_dropped s :
  ∃ pre, s = pre ++ str.lstrip_with p s ∧ Forall (λ c, p c = true) pre.
Proof.
  induction s as [|c s (pre & Hs & Hpre)]; simpl; [by exists []|].
  destruct (p c) eqn:Hc.
  - exists (c :: pre). split; [by rewrite Hs at 1|by constructor].
  - by exists [].
Qed.

Lemma rstrip_with_app_all s post :
  Forall (λ c, p c = true) post →
  str.rstrip_with p (s ++ post) = str.rstrip_with p s.
Proof.
  intros Hpost. unfold str.rstrip_with.
  rewrite reverse_app, lstrip_with_app_all; [done|].
  by apply Forall_reverse.
Qed.

Lemma rstrip_with_none s :
  Forall (λ c, p c = false) s → str.rstrip_with p s = s.
Proof.
  intros Hs. unfold str.rstrip_with.
  rewrite lstrip_with_none by (by apply Forall_reverse).
  apply reverse_involutive.
Qed.

Lemma rstrip_with_nil s :
  str.rstrip_with p s = [] ↔ Forall (λ c, p c = true) s.
Proof.
  unfold str.rstrip_with.
  rewrite <-(Forall_reverse _ s), <-lstrip_with_nil.
  split; [|by intros ->].
  intros Hrev. by rewrite <-(reverse_involutive (str.lstrip_with _ _)), Hrev.
Qed.

(** White space around a word without white space is what [strip]
    removes. *)
Lemma strip_with_framed pre s post :
  Forall (λ c, p c = true) pre → Forall (λ c, p c = true) post →
  Forall (λ c, p c = false) s →
  str.strip_with p (pre ++ s ++ post) = s.
Proof.
  intros Hpre Hpost Hs. unfold str.strip_with.
  rewrite lstrip_with_app_all by done.
  destruct s as [|c s].
  - simpl. by rewrite (proj2 (lstrip_with_nil post) Hpost).
  - assert (str.lstrip_with p ((c :: s) ++ post) = (c :: s) ++ post) as ->.
    { simpl. by rewrite (Forall_inv Hs). }
    rewrite rstrip_with_app_all by done. by apply rstrip_with_none.
Qed.

(** [strip] leaves nothing exactly when there is nothing but white space. *)
Lemma strip_with_nil s :
  str.strip_with p s = [] ↔ Forall (λ c, p c = true) s.
Proof.
  unfold str.strip_with. split.
  - intros Hall%rstrip_with_nil.
    destruct (lstrip_with_dropped s) as (pre & Hs & Hpre).
    rewrite Hs. by apply Forall_app.
  - intros Hs. apply rstrip_with_nil.
    rewrite (proj2 (lstrip_with_nil s) Hs). constructor.
Qed.
End strip.

(** ** Splitting *)

Lemma split_no_sep sep s : sep ∉ s → str.split sep s = [s].
Proof.
  induction s as [|c s IH]; intros Hsep; simpl; [done|].
  apply not_elem_of_cons in Hsep as [Hc Hs].
  rewrite decide_False by done. by rewrite IH.
Qed.

Lemma split_app_sep sep s rest :
  sep ∉ s → str.split sep (s ++ sep :: rest) = s :: str.split sep rest.
Proof.
  induction s as [|c s IH]; intros Hsep; simpl.
  { by rewrite decide_True. }
  apply not_elem_of_cons in Hsep as [Hc Hs].
  rewrite decide_False by done. by rewrite IH.
Qed.

(** ** Lines *)

Lemma readlines_no_newline s :
  "010"%char ∉ s → s ≠ [] → file.readlines s = [s].
Proof.
  induction s as [|c s IH]; intros Hnl Hs; [done|].
  cbn [file.readlines].
  apply not_elem_of_cons in Hnl as [Hc Hnl].
  destruct (decide (c = "010"%char)) as [|_]; [done|].
  destruct s as [|c' s]; [done|]. by rewrite IH.
Qed.

Lemma readlines_app_newline s rest :
  "010"%char ∉ s →
  file.readlines (s ++ "010"%char :: rest)
  = (s ++ ["010"%char]) :: file.readlines rest.
Proof.
  induction s as [|c s IH]; intros Hnl; cbn [file.readlines app].
  { by destruct (decide ("010"%char = "010"%char)). }
  apply not_elem_of_cons in Hnl as [Hc Hnl].
  destruct (decide (c = "010"%char)) as [|_]; [done|]. by rewrite IH.
Qed.

(** ** Printed integers *)

Lemma plain_cases (P : ascii → Prop) :
  Forall P (chars "-0123456789") → ∀ c, plain c → P c.
Proof. intros HP c Hc. by eapply Forall_forall in HP. Qed.

Lemma plain_uint_digits d : Forall plain (builtins.uint_digits d).
Proof.
  induction d; simpl; constructor; try done;
    unfold plain; apply (bool_decide_unpack _); by vm_compute.
Qed.

Lemma plain_decimal z : Forall plain (builtins.decimal z).
Proof.
  unfold builtins.decimal. destruct (Z.to_int z).
  - apply plain_uint_digits.
  - constructor; [|apply plain_uint_digits].
    unfold plain; apply (bool_decide_unpack _); by vm_compute.
Qed.

Lemma plain_Forall (P : ascii → Prop) s :
  Forall P (chars "-0123456789") → Forall plain s → Forall P s.
Proof. intros HP Hs. eapply Forall_impl; [done|]. by apply plain_cases. Qed.

Lemma plain_not_isspace s :
  Forall plain s → Forall (λ c, str.isspace c = false) s.
Proof. apply plain_Forall, (bool_decide_unpack _). by vm_compute. Qed.

Lemma plain_not_int_space s :
  Forall plain s → Forall (λ c, builtins.int_space c = false) s.
Proof. apply plain_Forall, (bool_decide_unpack _). by vm_compute. Qed.

Lemma plain_not_elem_of (sep : ascii) s :
  sep ∉ chars "-0123456789" → Forall plain s → sep ∉ s.
Proof.
  intros Hsep Hs Hin. eapply Forall_forall in Hs; [|done]. by apply Hsep.
Qed.

Lemma to_int_digits z :
  match Z.to_int z with
  | Decimal.Pos d | Decimal.Neg d => d ≠ Decimal.Nil
  end.
Proof.
  destruct z; simpl; [done|apply Unsigned.to_uint_nonnil..].
Qed.

Lemma uint_digits_head d :
  d ≠ Decimal.Nil →
  ∃ c t, builtins.uint_digits d = c :: t
         ∧ c ≠ "-"%char ∧ c ≠ "+"%char.
Proof. destruct d; intros Hd; [done|..]; by eexists _, _. Qed.

Lemma digit_uint_digits d :
  Forall (λ c, is_Some (builtins.digit c)) (builtins.uint_digits d).
Proof. induction d; simpl; constructor; by try done. Qed.

Lemma numeral_all s :
  Forall (λ c, is_Some (builtins.digit c)) s → builtins.numeral s = s.
Proof.
  induction 1 as [|c s Hc _ IH]; [done|]. cbn [builtins.numeral].
  rewrite decide_True by (by left). by rewrite IH.
Qed.

Lemma count_digits_all s :
  Forall (λ c, is_Some (builtins.digit c)) s →
  builtins.count_digits s = length s.
Proof.
  intros Hs. unfold builtins.count_digits. f_equal.
  induction Hs as [|c s Hc _ IH]; [done|].
  rewrite filter_cons_True by done. by rewrite IH.
Qed.

(** [int] reads the numeral of an integer that is not too long, with any
    white space around it. *)
Lemma int_decimal pre post z :
  Forall (λ c, builtins.int_space c = true) pre →
  Forall (λ c, builtins.int_space c = true) post →
  (builtins.digits z ≤ builtins.max_str_digits)%nat →
  builtins.int (pre ++ builtins.decimal z ++ post) = inr z.
Proof.
  intros Hpre Hpost Hshort. unfold builtins.int.
  rewrite strip_with_framed
    by auto using plain_not_int_space, plain_decimal.
  unfold builtins.decimal, builtins.digits in *.
  pose proof (to_int_digits z) as Hd. pose proof (DecimalZ.of_to z) as Hz.
  destruct (Z.to_int z) as [d|d]; simpl in Hz.
  - destruct (uint_digits_head d Hd) as (c & t & Hct & Hminus & Hplus).
    rewrite Hct. rewrite decide_False by (by intros [|]).
    rewrite <-Hct.
    rewrite numeral_all, count_digits_all by apply digit_uint_digits.
    rewrite int_unsigned_uint_digits by done.
    rewrite decide_False by lia. rewrite decide_False by done. by rewrite Hz.
  - rewrite decide_True by (by left).
    rewrite numeral_all, count_digits_all by apply digit_uint_digits.
    rewrite int_unsigned_uint_digits by done.
    rewrite decide_False by lia. rewrite decide_True by done. by rewrite <-Hz.
Qed.

Lemma int_decimal_plain z :
  (builtins.digits z ≤ builtins.max_str_digits)%nat →
  builtins.int (builtins.decimal z) = inr z.
Proof.
  intros Hz. rewrite <-(int_decimal [] [] z) by done. by rewrite app_nil_r.
Qed.

(** The two ways in which [int] fails. *)
Lemma int_inl s e :
  builtins.int s = inl e →
  e = InvalidLiteral s
  ∨ ∃ n, e = ExceedsLimit (Some n) ∧ (builtins.max_str_digits < n)%nat.
Proof.
  unfold builtins.int. destruct (str.strip_with _ s) as [|c t].
  { intros [= <-]. by left. }
  destruct (builtins.int_unsigned (builtins.numeral _)).
  - case_decide as Hn.
    + intros [= <-]. right. by eexists.
    + destruct (builtins.int_unsigned _); [done|]. intros [= <-]. by left.
  - intros [= <-]. by left.
Qed.

(** ** Lines of a joined text *)

Lemma readlines_join lines :
  Forall (λ line, ("010"%char ∉ line) ∧ line ≠ []) lines →
  file.readlines (str.join ["010"%char] lines) = terminated lines.
Proof.
  induction 1 as [|line lines [Hnl Hne] Hlines IH]; [done|].
  destruct lines as [|line' lines].
  - by apply readlines_no_newline.
  - change (file.readlines
              (line ++ "010"%char :: str.join ["010"%char] (line' :: lines))
            = (line ++ ["010"%char]) :: terminated (line' :: lines)).
    by rewrite readlines_app_newline, IH.
Qed.

(** ** Running the parser *)

Lemma run_lift_bind {A B} (r : exception + A) (f : A → Py B) σ :
  (lift r ≫= f) σ
  = match r with
    | inl e => (Raised e, σ)
    | inr a => f a σ
    end.
Proof. by destruct r. Qed.

Lemma run_read_entries self lines σ o :
  σ !! self = Some o →
  for_each lines (λ line,
    if decide (str.strip line ≠ []) then
      let entry := str.strip_chars (chars "()" ++ ["010"%char]) line in
      '(row, col, value) ←
        lift (builtins.unpack3 (str.split ","%char entry));
      setitem self (row, col) value
    else mret ()) σ
  = (stopped id (read_entries lines (elements o)).1,
     <[self := with_elements o (read_entries lines (elements o)).2]> σ).
Proof.
  revert σ o. induction lines as [|line lines IH]; intros σ o Hself.
  { simpl. by rewrite with_elements_id, insert_id. }
  cbn [for_each read_entries]. unfold read_entry.
  destruct (decide (str.strip line ≠ [])) as [Hline|Hline].
  - destruct (builtins.unpack3 _) as [e|[[row col] value]] eqn:Hitem.
    + erewrite run_bind_raised by (by rewrite run_lift_bind).
      simpl. by rewrite with_elements_id, insert_id.
    + erewrite run_bind; last first.
      { rewrite run_lift_bind. by apply updates_setitem. }
      erewrite IH by apply lookup_insert_eq.
      by rewrite insert_insert_eq.
  - simpl. erewrite run_bind by done. by apply IH.
Qed.

Lemma lift_read_header {B} lines i (k : Z → Py B) σ :
  (line ← lift (builtins.getitem lines i);
   field ← lift (builtins.getitem (str.split "="%char line) 1);
   n ← lift (builtins.int (str.strip field));
   k n) σ
  = (lift (read_header lines i) ≫= k) σ.
Proof.
  unfold read_header. destruct (builtins.getitem lines i) as [e|line]; [done|].
  rewrite run_lift_bind. cbn [mbind exc_bind].
  destruct (builtins.getitem (str.split _ line) 1) as [e|field]; [done|].
  rewrite run_lift_bind. cbn [mbind exc_bind].
  destruct (builtins.int (str.strip field)); reflexivity.
Qed.

Lemma run_read_matrix_from_file self text σ o :
  σ !! self = Some o →
  SparseMatrix._read_matrix_from_file self text σ
  = (stopped WrongFormat (read_file text o).1,
     <[self := (read_file text o).2]> σ).
Proof.
  intros Hself.
  unfold SparseMatrix._read_matrix_from_file, try_except, read_file.
  rewrite lift_read_header, run_lift_bind.
  destruct (read_header (file.readlines text) 0) as [e|rows].
  { simpl. by rewrite insert_id. }
  erewrite run_bind by (by apply run_read).
  erewrite run_bind by (by eapply run_write).
  rewrite lift_read_header, run_lift_bind.
  destruct (read_header (file.readlines text) 1) as [e|cols]; [done|].
  erewrite run_bind by apply run_read, lookup_insert_eq.
  erewrite run_bind by (eapply run_write; apply lookup_insert_eq).
  rewrite insert_insert_eq.
  erewrite run_read_entries by apply lookup_insert_eq.
  rewrite insert_insert_eq. simpl.
  by destruct (read_entries _ _) as [[e|] d].
Qed.

Lemma run_init_file text nr nc σ :
  SparseMatrix.__init__ (Some text) nr nc σ
  = match (read_file text (Build_object nr nc ∅)).1 with
    | None =>
      (Returned (fresh (dom σ)),
       <[fresh (dom σ) := (read_file text (Build_object nr nc ∅)).2]> σ)
    | Some e =>
      (Raised (WrongFormat e),
       <[fresh (dom σ) := (read_file text (Build_object nr nc ∅)).2]> σ)
    end.
Proof.
  unfold SparseMatrix.__init__.
  erewrite run_bind by done.
  destruct (read_file text _) as [[e|] o'] eqn:Hread.
  - erewrite run_bind_raised; [done|].
    erewrite run_read_matrix_from_file by apply lookup_insert_eq.
    by rewrite Hread, insert_insert_eq.
  - erewrite run_bind; [done|].
    erewrite run_read_matrix_from_file by apply lookup_insert_eq.
    by rewrite Hread, insert_insert_eq.
Qed.

(** ** Reading what [__str__] writes *)

Lemma strip_with_trailing p s post :
  Forall (λ c, p c = true) post → Forall (λ c, p c = false) s →
  str.strip_with p (s ++ post) = s.
Proof. intros Hpost Hs. by apply (strip_with_framed p []). Qed.

Lemma int_decimal_space z :
  short z → builtins.int (" "%char :: builtins.decimal z) = inr z.
Proof.
  intros Hz. rewrite <-(int_decimal [" "%char] [] z); [|by repeat constructor..|done].
  by rewrite app_nil_r.
Qed.

Lemma newlines_isspace t :
  Forall (λ c, c = "010"%char) t → Forall (λ c, str.isspace c = true) t.
Proof. intros Ht. eapply Forall_impl; [done|]. by intros c ->. Qed.

Lemma read_header_printed lines i key z t :
  lines !! i = Some (key ++ "="%char :: builtins.decimal z ++ t) →
  "="%char ∉ key → Forall (λ c, c = "010"%char) t → short z →
  read_header lines i = inr z.
Proof.
  intros Hline Hkey Ht Hz. unfold read_header, builtins.getitem.
  rewrite Hline. cbn [mbind exc_bind].
  rewrite split_app_sep, split_no_sep; [|rewrite elem_of_app|done].
  - cbn [lookup list_lookup mbind exc_bind]. unfold str.strip.
    rewrite strip_with_trailing
      by auto using plain_not_isspace, plain_decimal, newlines_isspace.
    by apply int_decimal_plain.
  - intros [Hin|Hin].
    + revert Hin.
      apply plain_not_elem_of; [by apply (bool_decide_unpack _)|].
      apply plain_decimal.
    + by eapply Forall_forall in Ht; [|done].
Qed.

Lemma entry_text_body x t :
  entry_text x ++ t
  = ["("%char]
    ++ (builtins.decimal x.1.1 ++ ","%char
          :: (" "%char :: builtins.decimal x.1.2) ++ ","%char
          :: " "%char :: builtins.decimal x.2)
    ++ ")"%char :: t.
Proof.
  unfold entry_text. cbn [chars String.list_ascii_of_string].
  rewrite <-!app_assoc. cbn [app]. rewrite <-!app_assoc. by cbn [app].
Qed.

Lemma read_entry_printed x t :
  Forall (λ c, c = "010"%char) t → short_item x →
  read_entry (entry_text x ++ t) = inr (Some x).
Proof.
  intros Ht (Hrow & Hcol & Hvalue). unfold read_entry.
  destruct (decide (str.strip (entry_text x ++ t) ≠ []))
    as [_|Hblank]; last first.
  { apply dec_stable in Hblank. apply strip_with_nil in Hblank.
    rewrite entry_text_body in Hblank. by inversion Hblank. }
  unfold str.strip_chars. rewrite entry_text_body, strip_with_framed.
  - rewrite split_app_sep, split_app_sep, split_no_sep.
    + cbn [builtins.unpack3].
      rewrite int_decimal_plain by done. cbn [mbind exc_bind].
      rewrite !int_decimal_space by done. cbn [mbind exc_bind mret exc_ret].
      by destruct x as [[r c] v].
    + apply not_elem_of_cons. split; [done|].
      apply plain_not_elem_of; [by apply (bool_decide_unpack _)|].
      apply plain_decimal.
    + apply not_elem_of_cons. split; [done|].
      apply plain_not_elem_of; [by apply (bool_decide_unpack _)|].
      apply plain_decimal.
    + apply plain_not_elem_of; [by apply (bool_decide_unpack _)|].
      apply plain_decimal.
  - by repeat constructor.
  - constructor; [done|]. eapply Forall_impl; [done|]. by intros c ->.
  - assert (∀ s, Forall plain s →
        Forall (λ c, bool_decide (c ∈ chars "()" ++ ["010"%char]) = false) s)
      as Hplain.
    { intros s. apply plain_Forall, (bool_decide_unpack _). by vm_compute. }
    repeat first [apply Forall_app; split | apply Forall_cons; split];
      auto using plain_decimal.
Qed.

Lemma read_entries_printed items d :
  Forall short_item items →
  read_entries (terminated (entry_text <$> items)) d
  = (None, foldl copy_step d items).
Proof.
  intros Hitems. revert d.
  induction Hitems as [|x items Hx Hitems IH]; intros d; [done|].
  destruct items as [|y items].
  - cbn [fmap list_fmap terminated read_entries].
    rewrite <-(app_nil_r (entry_text x)).
    by rewrite read_entry_printed.
  - change (terminated (entry_text <$> x :: y :: items))
      with ((entry_text x ++ ["010"%char])
              :: terminated (entry_text <$> y :: items)).
    cbn [read_entries].
    rewrite read_entry_printed by (done || by repeat constructor).
    by rewrite IH.
Qed.

(** ** Sorting the items *)

#[global] Instance item_le_total : Total builtins.item_le.
Proof. intros [[r1 c1] v1] [[r2 c2] v2]. unfold builtins.item_le. simpl. lia. Qed.

#[global] Instance item_le_trans : Transitive builtins.item_le.
Proof.
  intros [[r1 c1] v1] [[r2 c2] v2] [[r3 c3] v3].
  unfold builtins.item_le. simpl. lia.
Qed.

Lemma sorted_Permutation items : builtins.sorted items ≡ₚ items.
Proof. apply merge_sort_Permutation. Qed.

Lemma sorted_by_key (d : gmap (Z * Z) Z) :
  StronglySorted key_lt (builtins.sorted (map_to_list d)).
Proof.
  assert (NoDup (builtins.sorted (map_to_list d)).*1) as Hnd.
  { rewrite sorted_Permutation. apply NoDup_fst_map_to_list. }
  assert (StronglySorted builtins.item_le (builtins.sorted (map_to_list d)))
    as Hsorted by apply (StronglySorted_merge_sort _).
  induction Hsorted as [|x l _ IH Hx]; [constructor|].
  apply NoDup_cons in Hnd as [Hnotin Hnd].
  constructor; [by apply IH|].
  apply Forall_forall. intros y Hy.
  eapply Forall_forall in Hx; [|done].
  assert (x.1 ≠ y.1) as Hne.
  { intros Heq. apply Hnotin. rewrite Heq. by apply list_elem_of_fmap_2. }
  destruct x as [[r1 c1] v1], y as [[r2 c2] v2].
  unfold builtins.item_le, key_lt in *. simpl in *.
  destruct (decide (r1 = r2)), (decide (c1 = c2)); [congruence|lia..].
Qed.

(** Storing the items of a dictionary in any order gives the dictionary. *)
Lemma copy_permuted (d : gmap (Z * Z) Z) items :
  items ≡ₚ map_to_list d → foldl copy_step ∅ items = d.
Proof.
  intros Hperm. apply map_eq. intros k.
  rewrite (foldl_pointwise (λ d k, d !! k) copy_step (λ v _, Some v)).
  - rewrite lookup_empty, (list_to_map_proper items (map_to_list d)),
      list_to_map_to_list; [by destruct (d !! k)| |done].
    rewrite Hperm. apply NoDup_fst_map_to_list.
  - intros m k1 v k2. unfold copy_step. simpl. by rewrite lookup_insert.
  - rewrite Hperm. apply NoDup_fst_map_to_list.
Qed.

(** ** The round trip *)

Lemma decimal_line z :
  "010"%char ∉ builtins.decimal z.
Proof.
  apply plain_not_elem_of; [by apply (bool_decide_unpack _)|].
  apply plain_decimal.
Qed.

Lemma entry_text_one_line x :
  ("010"%char ∉ entry_text x) ∧ entry_text x ≠ [].
Proof.
  split; [|done]. unfold entry_text.
  cbn [chars String.list_ascii_of_string].
  rewrite !not_elem_of_app, !not_elem_of_cons.
  pose proof (decimal_line x.1.1). pose proof (decimal_line x.1.2).
  pose proof (decimal_line x.2). rewrite !elem_of_nil. naive_solver.
Qed.

Lemma printable_items o :
  printable o →
  Forall short_item (builtins.sorted (map_to_list (elements o))).
Proof.
  intros (_ & _ & Hitems). rewrite sorted_Permutation.
  apply map_Forall_to_list in Hitems.
  eapply Forall_impl; [done|]. by intros [key value].
Qed.

Lemma read_file_serialize o nr nc r c :
  printable o → num_rows o = Some r → num_cols o = Some c →
  read_file (serialize o) (Build_object nr nc ∅) = (None, o).
Proof.
  intros Hprint Hr Hc. unfold read_file, serialize.
  pose proof (printable_items o Hprint) as Hitems.
  destruct Hprint as (Hrows & Hcols & _). rewrite Hr in Hrows |- *.
  rewrite Hc in Hcols |- *. simpl in Hrows, Hcols.
  set (items := builtins.sorted (map_to_list (elements o))) in *.
  rewrite readlines_join; last first.
  { repeat apply Forall_cons_2.
    - split; [|done]. apply not_elem_of_app. split; [|apply decimal_line].
      by apply (bool_decide_unpack _).
    - split; [|done]. apply not_elem_of_app. split; [|apply decimal_line].
      by apply (bool_decide_unpack _).
    - apply Forall_fmap, Forall_true. intros x. apply entry_text_one_line. }
  cbn [dimension_text].
  set (rows := chars "rows=" ++ builtins.decimal r).
  set (cols := chars "cols=" ++ builtins.decimal c).
  assert (∃ t, Forall (λ c, c = "010"%char) t
             ∧ terminated ([rows; cols] ++ (entry_text <$> items))
               = (rows ++ ["010"%char]) :: (cols ++ t)
                   :: terminated (entry_text <$> items))
    as (t & Ht & ->).
  { destruct items as [|x items].
    - exists []. split; [done|].
      cbn [fmap list_fmap app terminated]. by rewrite app_nil_r.
    - exists ["010"%char]. split; [by repeat constructor|done]. }
  rewrite (read_header_printed _ 0 (chars "rows") r ["010"%char]);
    [|reflexivity|by apply (bool_decide_unpack _)|by repeat constructor|done].
  rewrite (read_header_printed _ 1 (chars "cols") c t);
    [|reflexivity|by apply (bool_decide_unpack _)|done|done].
  cbn [skipn]. rewrite drop_0, read_entries_printed by done. simpl.
  rewrite (copy_permuted (elements o)) by apply sorted_Permutation.
  destruct o; simpl in *; by subst.
Qed.

(** ** What the parser accepts *)

Lemma read_header_inr lines i z :
  read_header lines i = inr z
  ↔ ∃ line, lines !! i = Some line ∧ header_field line z.
Proof.
  unfold read_header, header_field, builtins.getitem. split.
  - destruct (lines !! i) as [line|]; [|done]. cbn [mbind exc_bind].
    destruct (str.split _ line !! 1%nat) as [field|] eqn:Hfield; [|done].
    cbn [mbind exc_bind]. intros Hint. eexists. split; [done|]. by eexists.
  - intros (line & Hline & field & Hfield & Hint).
    rewrite Hline. cbn [mbind exc_bind]. by rewrite Hfield.
Qed.

Lemma read_entry_inr line x :
  read_entry line = inr x
  ↔ match x with
    | Some item => well_formed_entry line item
    | None => str.strip line = []
    end.
Proof.
  unfold read_entry, well_formed_entry.
  destruct (decide (str.strip line ≠ [])) as [Hline|Hline].
  - destruct (builtins.unpack3 _) as [e|item]; cbn [mbind exc_bind mret exc_ret].
    + destruct x; split; try done. by intros [_ ?].
    + destruct x; split; try done.
      * by intros [= ->].
      * by intros [_ [= ->]].
  - apply dec_stable in Hline. cbn [mret exc_ret].
    destruct x; split; try done. by intros [? _].
Qed.

Lemma read_entries_None lines d :
  (read_entries lines d).1 = None
  ↔ Forall (λ line, ∃ x, read_entry line = inr x) lines.
Proof.
  revert d. induction lines as [|line lines IH]; intros d; [by split|].
  cbn [read_entries]. rewrite Forall_cons.
  destruct (read_entry line) as [e|[item|]].
  - split; [done|]. by intros [[x ?] _].
  - rewrite IH. naive_solver.
  - rewrite IH. naive_solver.
Qed.

Lemma read_file_None text o :
  (read_file text o).1 = None
  ↔ (∃ r, read_header (file.readlines text) 0 = inr r)
    ∧ (∃ c, read_header (file.readlines text) 1 = inr c)
    ∧ Forall (λ line, ∃ x, read_entry line = inr x)
        (drop 2 (file.readlines text)).
Proof.
  unfold read_file.
  destruct (read_header _ 0) as [e|r]; [naive_solver|].
  destruct (read_header _ 1) as [e|c]; [naive_solver|].
  cbn [fst]. rewrite read_entries_None. naive_solver.
Qed.

Lemma read_file_dims text o e o' :
  read_file text o = (e, o') → e = None →
  ∃ r c, read_header (file.readlines text) 0 = inr r
         ∧ read_header (file.readlines text) 1 = inr c
         ∧ num_rows o' = Some r ∧ num_cols o' = Some c
         ∧ elements o' = (read_entries (drop 2 (file.readlines text))
                            (elements o)).2.
Proof.
  unfold read_file.
  destruct (read_header _ 0) as [e0|r]; [by intros [= <- <-]|].
  destruct (read_header _ 1) as [e1|c]; [by intros [= <- <-]|].
  intros [= <- <-] _. by eexists _, _.
Qed.

Lemma unpack3_short fields :
  (length fields < 3)%nat → ∃ e, builtins.unpack3 fields = inl e.
Proof.
  destruct fields as [|a [|b [|c rest]]]; simpl; intros Hlen; [| | |lia].
  - by eexists.
  - destruct (builtins.int a); by eexists.
  - destruct (builtins.int a); [by eexists|].
    destruct (builtins.int b); by eexists.
Qed.

(** A coordinate keeps its value through the lines that do not name it. *)
Lemma read_entries_keep lines d key value :
  d !! key = Some value →
  (∀ line v, line ∈ lines → read_entry line ≠ inr (Some (key, v))) →
  (read_entries lines d).2 !! key = Some value.
Proof.
  revert d. induction lines as [|line lines IH]; intros d Hd Hlines; [done|].
  cbn [read_entries].
  destruct (read_entry line) as [e|[[key' v']|]] eqn:Hline; [done|..].
  - apply IH.
    + rewrite lookup_insert_ne; [done|]. simpl. intros ->.
      by eapply Hlines; [left|].
    + intros l v Hl. apply Hlines. by right.
  - apply IH; [done|]. intros l v Hl. apply Hlines. by right.
Qed.

(** The last line that names a coordinate decides what is stored there. *)
Lemma read_entries_last before line after d key value :
  (read_entries (before ++ line :: after) d).1 = None →
  read_entry line = inr (Some (key, value)) →
  (∀ line' v, line' ∈ after → read_entry line' ≠ inr (Some (key, v))) →
  (read_entries (before ++ line :: after) d).2 !! key = Some value.
Proof.
  intros Hok Hline Hafter. revert d Hok.
  induction before as [|line0 before IH]; intros d Hok.
  - cbn [app read_entries]. rewrite Hline.
    apply read_entries_keep; [apply lookup_insert_eq|done].
  - cbn [app read_entries] in Hok |- *.
    destruct (read_entry line0) as [e|[item|]]; [done|by apply IH..].
Qed.

(** ** The constructor and [__str__] *)

Lemma str_int_short z :
  short z → builtins.str_int z = inr (builtins.decimal z).
Proof.
  intros Hz. unfold builtins.str_int. rewrite decide_False; [done|].
  unfold short in Hz. lia.
Qed.

Lemma str_int_long z :
  ¬ short z → builtins.str_int z = inl (ExceedsLimit None).
Proof.
  intros Hz. unfold builtins.str_int. rewrite decide_True; [done|].
  unfold short in Hz. lia.
Qed.

Lemma str_int_cases z :
  builtins.str_int z
  = if decide (short z) then inr (builtins.decimal z)
    else inl (ExceedsLimit None).
Proof. case_decide; [by apply str_int_short|by apply str_int_long]. Qed.

Lemma str_cases x :
  builtins.str x
  = if decide (short_dimension x) then inr (dimension_text x)
    else inl (ExceedsLimit None).
Proof.
  destruct x as [z|]; [exact (str_int_cases z)|reflexivity].
Qed.

Lemma entry_line_cases x :
  SparseMatrix.entry_line x
  = if decide (short_item x) then inr (entry_text x)
    else inl (ExceedsLimit None).
Proof.
  unfold SparseMatrix.entry_line, short_item. rewrite !str_int_cases.
  destruct (decide (short x.1.1)); cbn [mbind exc_bind];
    [|rewrite decide_False; [done|tauto]].
  destruct (decide (short x.1.2)); cbn [mbind exc_bind];
    [|rewrite decide_False; [done|tauto]].
  destruct (decide (short x.2)); cbn [mbind exc_bind];
    [|rewrite decide_False; [done|tauto]].
  by rewrite decide_True.
Qed.

Lemma entry_lines_cases items :
  SparseMatrix.entry_lines items
  = if decide (Forall short_item items) then inr (entry_text <$> items)
    else inl (ExceedsLimit None).
Proof.
  induction items as [|x items IH]; [by rewrite decide_True|].
  cbn [SparseMatrix.entry_lines]. rewrite entry_line_cases, IH.
  destruct (decide (short_item x)); cbn [mbind exc_bind];
    [|rewrite decide_False; [done|by inversion 1]].
  destruct (decide (Forall short_item items)); cbn [mbind exc_bind];
    [|rewrite decide_False; [done|by inversion 1]].
  by rewrite decide_True by (by constructor).
Qed.

(** [__str__] returns its text for a matrix that is printable and raises
    the error of the limit for any other. *)
Lemma run_str σ m M :
  σ !! m = Some M →
  SparseMatrix.__str__ m σ
  = (if decide (printable M) then Returned (serialize M)
     else Raised (ExceedsLimit None), σ).
Proof.
  intros Hm. unfold SparseMatrix.__str__.
  erewrite run_bind by (by apply run_read).
  rewrite run_lift_bind, str_cases.
  destruct (decide (short_dimension (num_rows M))) as [Hr|Hr];
    [|rewrite decide_False; [done|by intros (? & _)]].
  cbv beta iota. rewrite run_lift_bind, str_cases.
  destruct (decide (short_dimension (num_cols M))) as [Hc|Hc];
    [|rewrite decide_False; [done|by intros (_ & ? & _)]].
  cbv beta iota. rewrite run_lift_bind, entry_lines_cases.
  destruct (decide (Forall short_item _)) as [Hitems|Hitems].
  - rewrite decide_True; [done|]. split_and!; [done..|].
    apply map_Forall_to_list. rewrite sorted_Permutation in Hitems.
    eapply Forall_impl; [done|]. by intros [key value].
  - rewrite decide_False; [done|]. intros Hprint. apply Hitems.
    by apply printable_items.
Qed.

Lemma run_str_printable σ m M :
  σ !! m = Some M → printable M →
  SparseMatrix.__str__ m σ = (Returned (serialize M), σ).
Proof. intros Hm HM. by rewrite (run_str σ m M), decide_True. Qed.

Lemma init_file_returns text nr nc σ l σ' :
  SparseMatrix.__init__ (Some text) nr nc σ = (Returned l, σ') →
  (read_file text (Build_object nr nc ∅)).1 = None
  ∧ σ' !! l = Some (read_file text (Build_object nr nc ∅)).2.
Proof.
  rewrite run_init_file.
  destruct (read_file text _) as [[e|] o']; [done|].
  intros [= <- <-]. split; [done|apply lookup_insert_eq].
Qed.

Lemma init_file_raises text nr nc σ :
  (read_file text (Build_object nr nc ∅)).1 ≠ None →
  format_error (SparseMatrix.__init__ (Some text) nr nc σ).
Proof.
  rewrite run_init_file.
  destruct (read_file text _) as [[e|] o']; [|done].
  intros _. by eexists _, _.
Qed.

(** ** What the parser refuses, and why *)

Lemma read_header_inl lines i cause :
  read_header lines i = inl cause ↔ header_error lines i cause.
Proof.
  unfold read_header, header_error, builtins.getitem.
  destruct (lines !! i) as [line|]; cbn [mbind exc_bind]; [|naive_solver].
  destruct (str.split _ line !! 1%nat) as [field|]; cbn [mbind exc_bind];
    naive_solver.
Qed.

Lemma read_entry_inl line cause :
  read_entry line = inl cause ↔ entry_error line cause.
Proof.
  unfold read_entry, entry_error.
  destruct (decide (str.strip line ≠ [])) as [Hline|Hline].
  - destruct (builtins.unpack3 _) as [e|item]; cbn [mbind exc_bind mret exc_ret];
      naive_solver.
  - cbn [mret exc_ret]. naive_solver.
Qed.

Lemma in_order_read_entry line :
  in_order line ↔ ∃ x, read_entry line = inr x.
Proof.
  unfold in_order. split.
  - intros [Hblank|[item Hitem]].
    + exists None. by apply read_entry_inr.
    + exists (Some item). by apply read_entry_inr.
  - intros [[item|] Hx%read_entry_inr]; [right; by exists item|by left].
Qed.

Lemma read_entries_Some lines d cause :
  (read_entries lines d).1 = Some cause
  ↔ ∃ before line after,
      lines = before ++ line :: after
      ∧ Forall in_order before ∧ entry_error line cause.
Proof.
  revert d. induction lines as [|line lines IH]; intros d.
  { split; [done|]. intros (before & l & after & Hnil & _).
    by destruct before. }
  cbn [read_entries].
  destruct (read_entry line) as [e|x] eqn:Hline.
  - cbn [fst]. split.
    + intros [= ->]. exists [], line, lines.
      split_and!; [done..|]. by apply read_entry_inl.
    + intros ([|l0 before] & l & after & [= <- Hrest] & Hbefore & Herr).
      * apply read_entry_inl in Herr. congruence.
      * apply Forall_cons in Hbefore as [Hl0%in_order_read_entry _].
        destruct Hl0 as [x Hx]. congruence.
  - assert ((read_entries lines (match x with
                                 | Some item => <[item.1 := item.2]> d
                                 | None => d
                                 end)).1 = Some cause
            ↔ ∃ before l after,
                line :: lines = before ++ l :: after
                ∧ Forall in_order before ∧ entry_error l cause) as Hiff.
    { rewrite IH. split.
      - intros (before & l & after & -> & Hbefore & Herr).
        exists (line :: before), l, after. split_and!; [done| |done].
        constructor; [|done]. apply in_order_read_entry. by exists x.
      - intros ([|l0 before] & l & after & [= <- Hrest] & Hbefore & Herr).
        + apply read_entry_inl in Herr. congruence.
        + apply Forall_cons in Hbefore as [_ Hbefore]. by exists before, l, after. }
    by destruct x.
Qed.

Lemma read_file_Some text o cause :
  (read_file text o).1 = Some cause
  ↔ let lines := file.readlines text in
    header_error lines 0 cause
    ∨ ((∃ r, read_header lines 0 = inr r) ∧ header_error lines 1 cause)
    ∨ ((∃ r, read_header lines 0 = inr r)
       ∧ (∃ c, read_header lines 1 = inr c)
       ∧ ∃ before line after,
           drop 2 lines = before ++ line :: after
           ∧ Forall in_order before ∧ entry_error line cause).
Proof.
  cbv zeta. unfold read_file. rewrite <-!read_header_inl.
  destruct (read_header _ 0) as [e0|r]; [naive_solver|].
  destruct (read_header _ 1) as [e1|c]; [naive_solver|].
  cbn [fst]. rewrite read_entries_Some. naive_solver.
Qed.

Lemma init_file_cause text nr nc σ cause :
  (SparseMatrix.__init__ (Some text) nr nc σ).1 = Raised (WrongFormat cause)
  ↔ (read_file text (Build_object nr nc ∅)).1 = Some cause.
Proof.
  rewrite run_init_file.
  destruct (read_file text _) as [[e|] o']; simpl; [|done].
  split; by intros [= ->].
Qed.

Lemma init_file_raised text nr nc σ e σ' :
  SparseMatrix.__init__ (Some text) nr nc σ = (Raised e, σ') →
  ∃ cause, e = WrongFormat cause
           ∧ (read_file text (Build_object nr nc ∅)).1 = Some cause.
Proof.
  rewrite run_init_file.
  destruct (read_file text _) as [[e'|] o']; simpl; [|done].
  intros [= <- <-]. by eexists.
Qed.

Lemma unpack3_short_cause fields :
  (length fields < 3)%nat →
  Forall (λ field, ∃ z, builtins.int field = inr z) fields →
  builtins.unpack3 fields = inl (NotEnoughValues 3 (length fields)).
Proof.
  destruct fields as [|a [|b [|c rest]]]; simpl; intros Hlen Hint; [done| | |lia].
  - apply Forall_cons in Hint as [[z ->] _]. done.
  - apply Forall_cons in Hint as [[z ->] Hint].
    apply Forall_cons in Hint as [[z' ->] _]. done.
Qed.

(** * The claims *)

Lemma I1_matrix_A : I1 matrix_A.
Proof. apply (bool_decide_unpack (I1 matrix_A)). vm_compute. exact I. Defined.

Lemma I1_matrix_B : I1 matrix_B.
Proof. apply (bool_decide_unpack (I1 matrix_B)). vm_compute. exact I. Defined.

(** C6: [get_element] at a coordinate with no stored entry returns 0 and
    raises nothing, whatever the coordinate: there is no bounds check, so
    coordinates outside the declared dimensions are covered as well. *)
Theorem get_element_absent (σ : heap) m M (r c : Z) :
  σ !! m = Some M → elements M !! (r, c) = None →
  SparseMatrix.get_element m r c σ = (Returned 0, σ).
Proof.
  intros Hm Habs. erewrite run_get_element by done. by rewrite Habs.
Qed.

Lemma get_element_absent_witness :
  SparseMatrix.get_element 1 (-5) 700 heap_ABC = (Returned 0, heap_ABC).
Proof. apply (get_element_absent heap_ABC 1%positive matrix_A); reflexivity. Defined.

(** C2: the three operators raise the dimension error exactly when their
    compatibility test fails (equal dimensions for addition and subtraction,
    equal inner dimensions for multiplication); when an operator raises, the
    heap is the one it started from: nothing was computed, no result matrix
    exists and both operands are as they were. *)
Theorem dimension_mismatch (σ : heap) a b A B :
  σ !! a = Some A → σ !! b = Some B →
  (fails (SparseMatrix.__add__ a b) σ
     ↔ num_rows A ≠ num_rows B ∨ num_cols A ≠ num_cols B)
  ∧ (fails (SparseMatrix.__sub__ a b) σ
     ↔ num_rows A ≠ num_rows B ∨ num_cols A ≠ num_cols B)
  ∧ (fails (SparseMatrix.__mul__ a b) σ ↔ num_cols A ≠ num_rows B)
  ∧ ∀ op e σ', func op a b σ = (Raised e, σ') →
      e = DimensionsDoNotMatch (name op) ∧ σ' = σ
      ∧ σ' !! a = Some A ∧ σ' !! b = Some B.
Proof.
  intros Ha Hb. split_and!.
  - split.
    + intros (e & σ' & Hrun).
      destruct (dims_equal_or_not A B) as [[? ?]|]; [|done].
      by erewrite run_add in Hrun.
    + intros Hne. eexists _, _. by eapply run_add_mismatch.
  - split.
    + intros (e & σ' & Hrun).
      destruct (dims_equal_or_not A B) as [[? ?]|]; [|done].
      by erewrite run_sub in Hrun.
    + intros Hne. eexists _, _. by eapply run_sub_mismatch.
  - split.
    + intros (e & σ' & Hrun) Heq. by erewrite run_mul in Hrun.
    + intros Hne. eexists _, _. by eapply run_mul_mismatch.
  - intros op e σ' Hrun. destruct op; simpl in Hrun.
    + destruct (dims_equal_or_not A B) as [[? ?]|].
      * by erewrite run_add in Hrun.
      * erewrite run_add_mismatch in Hrun by done. by simplify_eq.
    + destruct (dims_equal_or_not A B) as [[? ?]|].
      * by erewrite run_sub in Hrun.
      * erewrite run_sub_mismatch in Hrun by done. by simplify_eq.
    + destruct (decide (num_cols A = num_rows B)) as [Heq|Hne].
      * by erewrite run_mul in Hrun.
      * erewrite run_mul_mismatch in Hrun by done. by simplify_eq.
Qed.

Lemma dimension_mismatch_witness :
  (fails (SparseMatrix.__add__ 1 3) heap_ABC
     ↔ num_rows matrix_A ≠ num_rows matrix_C
       ∨ num_cols matrix_A ≠ num_cols matrix_C)
  ∧ (fails (SparseMatrix.__sub__ 1 3) heap_ABC
     ↔ num_rows matrix_A ≠ num_rows matrix_C
       ∨ num_cols matrix_A ≠ num_cols matrix_C)
  ∧ (fails (SparseMatrix.__mul__ 1 3) heap_ABC
     ↔ num_cols matrix_A ≠ num_rows matrix_C)
  ∧ ∀ op e σ', func op 1%positive 3%positive heap_ABC = (Raised e, σ') →
      e = DimensionsDoNotMatch (name op) ∧ σ' = heap_ABC
      ∧ σ' !! 1%positive = Some matrix_A ∧ σ' !! 3%positive = Some matrix_C.
Proof.
  apply (dimension_mismatch heap_ABC 1%positive 3%positive); reflexivity.
Defined.

(** C9: when an operator returns, what it returns is a matrix that did not
    exist before the call, and every object that existed before the call, the
    two operands among them, is as it was. *)
Theorem operands_unchanged (σ : heap) op a b A B r σ' :
  σ !! a = Some A → σ !! b = Some B →
  func op a b σ = (Returned r, σ') →
  σ !! r = None ∧ is_Some (σ' !! r)
  ∧ σ' !! a = Some A ∧ σ' !! b = Some B
  ∧ ∀ l, l ≠ r → σ' !! l = σ !! l.
Proof.
  intros Ha Hb Hrun.
  assert (∃ R, r = fresh (dom σ) ∧ σ' = <[fresh (dom σ) := R]> σ)
    as (R & -> & ->).
  { destruct op; simpl in Hrun.
    - destruct (dims_equal_or_not A B) as [[? ?]|].
      + erewrite run_add in Hrun by done. simplify_eq. eauto.
      + by erewrite run_add_mismatch in Hrun.
    - destruct (dims_equal_or_not A B) as [[? ?]|].
      + erewrite run_sub in Hrun by done. simplify_eq. eauto.
      + by erewrite run_sub_mismatch in Hrun.
    - destruct (decide (num_cols A = num_rows B)) as [Heq|Hne].
      + erewrite run_mul in Hrun by done. simplify_eq. eauto.
      + by erewrite run_mul_mismatch in Hrun. }
  split_and!.
  - apply fresh_unused.
  - rewrite lookup_insert_eq. by eexists.
  - rewrite lookup_insert_ne; [done|]. symmetry. eauto using lookup_fresh_ne.
  - rewrite lookup_insert_ne; [done|]. symmetry. eauto using lookup_fresh_ne.
  - intros l Hl. by rewrite lookup_insert_ne.
Qed.

Lemma operands_unchanged_witness :
  let σ' := (func multiplication 1%positive 3%positive heap_ABC).2 in
  heap_ABC !! 4%positive = None ∧ is_Some (σ' !! 4%positive)
  ∧ σ' !! 1%positive = Some matrix_A ∧ σ' !! 3%positive = Some matrix_C
  ∧ ∀ l, l ≠ 4%positive → σ' !! l = heap_ABC !! l.
Proof.
  apply (operands_unchanged heap_ABC multiplication 1%positive 3%positive
           matrix_A matrix_C); reflexivity.
Defined.

(** C4: for operands of equal dimensions, subtracting [B] from the sum of
    [A] and [B] gives a matrix that [get_element] cannot tell from [A], at
    any coordinate. *)
Theorem sub_add_cancel (σ : heap) a b A B :
  σ !! a = Some A → σ !! b = Some B →
  num_rows A = num_rows B → num_cols A = num_cols B →
  ∃ s σ1 d σ2,
    SparseMatrix.__add__ a b σ = (Returned s, σ1)
    ∧ SparseMatrix.__sub__ s b σ1 = (Returned d, σ2)
    ∧ ∀ r c, ∃ v,
        SparseMatrix.get_element a r c σ = (Returned v, σ)
        ∧ SparseMatrix.get_element d r c σ2 = (Returned v, σ2).
Proof.
  intros Ha Hb Hr Hc.
  eexists _, _, _, _. split; [by apply run_add|].
  split.
  { eapply run_sub; [apply lookup_insert_eq| |done..].
    rewrite lookup_insert_ne; [done|]. symmetry. eauto using lookup_fresh_ne. }
  intros r c. eexists. split; [by apply run_get_element|].
  erewrite run_get_element by apply lookup_insert_eq. simpl.
  rewrite get_sub_elements, get_add_elements. do 2 f_equal. lia.
Qed.

Lemma sub_add_cancel_witness :
  ∃ s σ1 d σ2,
    SparseMatrix.__add__ 1 2 heap_ABC = (Returned s, σ1)
    ∧ SparseMatrix.__sub__ s 2 σ1 = (Returned d, σ2)
    ∧ ∀ r c, ∃ v,
        SparseMatrix.get_element 1 r c heap_ABC = (Returned v, heap_ABC)
        ∧ SparseMatrix.get_element d r c σ2 = (Returned v, σ2).
Proof.
  apply (sub_add_cancel heap_ABC 1%positive 2%positive matrix_A matrix_B);
    reflexivity.
Defined.

(** C5: for operands of equal dimensions that both satisfy I1, the sum and
    the difference satisfy I1: neither result binds a coordinate to 0. *)
Theorem add_sub_preserve_I1 (σ : heap) a b A B :
  σ !! a = Some A → σ !! b = Some B →
  num_rows A = num_rows B → num_cols A = num_cols B →
  I1 A → I1 B →
  (∃ r σ' R, SparseMatrix.__add__ a b σ = (Returned r, σ')
             ∧ σ' !! r = Some R ∧ I1 R)
  ∧ (∃ r σ' R, SparseMatrix.__sub__ a b σ = (Returned r, σ')
               ∧ σ' !! r = Some R ∧ I1 R).
Proof.
  intros Ha Hb Hr Hc HA HB. split.
  - eexists _, _, _. split; [by apply run_add|].
    split; [apply lookup_insert_eq|].
    intros k v. simpl. rewrite lookup_add_elements.
    destruct (elements B !! k); [|by apply HA].
    unfold pruned. case_decide; congruence.
  - eexists _, _, _. split; [by apply run_sub|].
    split; [apply lookup_insert_eq|].
    intros k v. simpl. rewrite lookup_sub_elements.
    destruct (elements B !! k); [|by apply HA].
    unfold pruned. case_decide; congruence.
Qed.

Lemma add_sub_preserve_I1_witness :
  (∃ r σ' R, SparseMatrix.__add__ 1 2 heap_ABC = (Returned r, σ')
             ∧ σ' !! r = Some R ∧ I1 R)
  ∧ (∃ r σ' R, SparseMatrix.__sub__ 1 2 heap_ABC = (Returned r, σ')
               ∧ σ' !! r = Some R ∧ I1 R).
Proof.
  apply (add_sub_preserve_I1 heap_ABC 1%positive 2%positive matrix_A matrix_B);
    try reflexivity; [apply I1_matrix_A|apply I1_matrix_B].
Defined.

(** C10: the product satisfies I1 whatever the operands hold, stored zeros
    included: a cell is written only when its dot product is not 0. *)
Theorem mul_I1 (σ : heap) a b A B :
  σ !! a = Some A → σ !! b = Some B → num_cols A = num_rows B →
  ∃ r σ' R, SparseMatrix.__mul__ a b σ = (Returned r, σ')
            ∧ σ' !! r = Some R ∧ I1 R.
Proof.
  intros Ha Hb Hdim. eexists _, _, _. split; [by apply run_mul|].
  split; [apply lookup_insert_eq|].
  intros [i j] v. simpl. rewrite lookup_mul_elements.
  unfold pruned. case_decide; congruence.
Qed.

Lemma mul_I1_witness :
  ∃ r σ' R, SparseMatrix.__mul__ 1 3 heap_ABC = (Returned r, σ')
            ∧ σ' !! r = Some R ∧ I1 R.
Proof.
  apply (mul_I1 heap_ABC 1%positive 3%positive matrix_A matrix_C); reflexivity.
Defined.

(** C1: for operands whose inner dimensions agree, the product has the rows
    of the left operand and the columns of the right one, and at every
    coordinate [(i, j)] [get_element] returns the sum over [k] of
    [A.get_element(i, k) * B.get_element(k, j)]; the sum runs over any finite
    set of indices that holds every [k] whose term is not 0.  The coordinate
    is stored exactly when the sum is not 0. *)
Theorem mul_correct (σ : heap) a b A B (i j : Z) (K : gset Z) :
  σ !! a = Some A → σ !! b = Some B → num_cols A = num_rows B →
  (∀ k, default 0 (elements A !! (i, k)) * default 0 (elements B !! (k, j)) ≠ 0
        → k ∈ K) →
  ∃ r σ' R,
    SparseMatrix.__mul__ a b σ = (Returned r, σ') ∧ σ' !! r = Some R
    ∧ num_rows R = num_rows A ∧ num_cols R = num_cols B
    ∧ ∃ va vb total,
        (∀ k, SparseMatrix.get_element a i k σ = (Returned (va k), σ))
        ∧ (∀ k, SparseMatrix.get_element b k j σ = (Returned (vb k), σ))
        ∧ total = builtins.sum ((λ k, va k * vb k) <$> base.elements K)
        ∧ SparseMatrix.get_element r i j σ' = (Returned total, σ')
        ∧ (is_Some (elements R !! (i, j)) ↔ total ≠ 0).
Proof.
  intros Ha Hb Hdim HK. eexists _, _, _. split; [by apply run_mul|].
  split; [apply lookup_insert_eq|]. split; [done|]. split; [done|].
  exists (λ k, default 0 (elements A !! (i, k))),
         (λ k, default 0 (elements B !! (k, j))), (dot (elements A) (elements B) i j).
  split; [intros k; by apply run_get_element|].
  split; [intros k; by apply run_get_element|].
  split; [by apply dot_sum|].
  split.
  - erewrite run_get_element by apply lookup_insert_eq. simpl.
    by rewrite lookup_mul_elements, default_pruned.
  - simpl. rewrite lookup_mul_elements. unfold pruned.
    case_decide; split; done.
Qed.

Lemma mul_correct_witness :
  ∃ r σ' R,
    SparseMatrix.__mul__ 1 3 heap_ABC = (Returned r, σ') ∧ σ' !! r = Some R
    ∧ num_rows R = Some 2 ∧ num_cols R = Some 1
    ∧ ∃ va vb total,
        (∀ k, SparseMatrix.get_element 1 1 k heap_ABC
              = (Returned (va k), heap_ABC))
        ∧ (∀ k, SparseMatrix.get_element 3 k 0 heap_ABC
                = (Returned (vb k), heap_ABC))
        ∧ total = builtins.sum ((λ k, va k * vb k) <$> base.elements ({[0; 1]} : gset Z))
        ∧ SparseMatrix.get_element r 1 0 σ' = (Returned total, σ')
        ∧ (is_Some (elements R !! (1, 0)) ↔ total ≠ 0).
Proof.
  apply (mul_correct heap_ABC 1%positive 3%positive matrix_A matrix_C 1 0
           {[0; 1]}); try reflexivity.
  intros k Hk. destruct (decide (k = 1)) as [->|Hne]; [set_solver|].
  exfalso. apply Hk. simpl.
  rewrite !lookup_insert_ne, lookup_empty by congruence. reflexivity.
Defined.

(** Scenarios 1 to 3 of the specification. *)
Example scenarios :
  stored (SparseMatrix.__add__ 1 2 heap_ABC)
  = Some [((0, 0), 4); ((0, 1), 4); ((1, 1), 2)]
  ∧ stored (SparseMatrix.__sub__ 1 2 heap_ABC)
    = Some [((0, 0), -2); ((0, 1), -4); ((1, 1), 2)]
  ∧ stored (SparseMatrix.__mul__ 1 3 heap_ABC)
    = Some [((0, 0), 5); ((1, 0), 12)].
Proof. by vm_compute. Qed.

(** The matrix of one entry, 10^4300: it satisfies I1 and has integer
    dimensions, and [__str__] raises for it; there is no text to parse. *)
Lemma long_entry_not_printed :
  I1 matrix_L
  ∧ num_rows matrix_L = Some 1 ∧ num_cols matrix_L = Some 1
  ∧ SparseMatrix.__str__ 1 {[1%positive := matrix_L]}
    = (Raised (ExceedsLimit None), {[1%positive := matrix_L]}).
Proof.
  split; [apply (bool_decide_unpack _); by vm_compute|].
  split; [done|]. split; [done|].
  rewrite (run_str _ _ matrix_L) by done.
  rewrite decide_False; [done|].
  apply (bool_decide_unpack (¬ printable matrix_L)). by vm_compute.
Qed.

(** C3, amended: for a matrix that satisfies I1 and has integer dimensions,
    and in which the dimensions and every stored coordinate and value have
    at most 4300 digits, the text that [__str__] returns is the line
    [rows=...], the line [cols=...] and then one line for each stored entry,
    in strictly ascending order of [(row, col)]; reading that text back
    constructs a matrix with the same dimensions and the same element at
    every coordinate.  For a matrix that holds a longer integer [__str__]
    raises the [ValueError] of the limit.  (The proof does not need I1: the
    parser stores what it reads.) *)
Theorem str_round_trip (σ : heap) m M (r c : Z) :
  σ !! m = Some M → I1 M → num_rows M = Some r → num_cols M = Some c →
  (printable M →
   ∃ text items,
     SparseMatrix.__str__ m σ = (Returned text, σ)
     ∧ text = str.join ["010"%char]
                ([chars "rows=" ++ builtins.decimal r;
                  chars "cols=" ++ builtins.decimal c]
                 ++ (entry_text <$> items))
     ∧ items ≡ₚ map_to_list (elements M)
     ∧ StronglySorted key_lt items
     ∧ ∀ σ0 nr nc, ∃ m' σ1 M',
         SparseMatrix.__init__ (Some text) nr nc σ0 = (Returned m', σ1)
         ∧ σ0 !! m' = None ∧ σ1 !! m' = Some M'
         ∧ num_rows M' = num_rows M ∧ num_cols M' = num_cols M
         ∧ ∀ i j, ∃ v,
             SparseMatrix.get_element m i j σ = (Returned v, σ)
             ∧ SparseMatrix.get_element m' i j σ1 = (Returned v, σ1))
  ∧ (¬ printable M →
     SparseMatrix.__str__ m σ = (Raised (ExceedsLimit None), σ)).
Proof.
  intros Hm _ Hr Hc. split; last first.
  { intros Hlong. by rewrite (run_str σ m M), decide_False. }
  intros Hprint.
  exists (serialize M), (builtins.sorted (map_to_list (elements M))).
  split; [by apply run_str_printable|].
  split; [unfold serialize; by rewrite Hr, Hc|].
  split; [apply sorted_Permutation|].
  split; [apply sorted_by_key|].
  intros σ0 nr nc. exists (fresh (dom σ0)), (<[fresh (dom σ0) := M]> σ0), M.
  split.
  { rewrite run_init_file. by erewrite read_file_serialize. }
  split; [apply fresh_unused|]. split; [apply lookup_insert_eq|].
  split; [done|]. split; [done|].
  intros i j. eexists. split; [by apply run_get_element|].
  by erewrite run_get_element by apply lookup_insert_eq.
Qed.

Lemma printable_matrix_A : printable matrix_A.
Proof. apply (bool_decide_unpack _). by vm_compute. Qed.

Lemma str_round_trip_witness :
  ∃ text items,
    SparseMatrix.__str__ 1 heap_ABC = (Returned text, heap_ABC)
    ∧ text = str.join ["010"%char]
               ([chars "rows=" ++ builtins.decimal 2;
                 chars "cols=" ++ builtins.decimal 2]
                ++ (entry_text <$> items))
    ∧ items ≡ₚ map_to_list (elements matrix_A)
    ∧ StronglySorted key_lt items
    ∧ ∀ σ0 nr nc, ∃ m' σ1 M',
        SparseMatrix.__init__ (Some text) nr nc σ0 = (Returned m', σ1)
        ∧ σ0 !! m' = None ∧ σ1 !! m' = Some M'
        ∧ num_rows M' = num_rows matrix_A ∧ num_cols M' = num_cols matrix_A
        ∧ ∀ i j, ∃ v,
            SparseMatrix.get_element 1 i j heap_ABC = (Returned v, heap_ABC)
            ∧ SparseMatrix.get_element m' i j σ1 = (Returned v, σ1).
Proof.
  apply (str_round_trip heap_ABC 1%positive matrix_A 2 2);
    [reflexivity|apply I1_matrix_A|reflexivity|reflexivity
    |apply printable_matrix_A].
Defined.

(** The text of matrix A and what the parser makes of it. *)
Example round_trip_A :
  serialize matrix_A
  = chars "rows=2" ++ "010"%char :: chars "cols=2" ++ "010"%char
      :: chars "(0, 0, 1)" ++ "010"%char :: chars "(1, 1, 2)"
  ∧ SparseMatrix.__init__ (Some (serialize matrix_A)) None None ∅
    = (Returned 1%positive, {[1%positive := matrix_A]}).
Proof. by vm_compute. Qed.

(** The text [x=2], [y=3]: neither line names [rows] or [cols], and the
    parser builds a 2×3 matrix from it. *)
Lemma header_names_unchecked :
  let text := chars "x=2" ++ "010"%char :: chars "y=3" in
  file.readlines text = [chars "x=2" ++ ["010"%char]; chars "y=3"]
  ∧ ¬ matches_header "rows" (chars "x=2" ++ ["010"%char])
  ∧ ¬ matches_header "cols" (chars "y=3")
  ∧ SparseMatrix.__init__ (Some text) None None ∅
    = (Returned 1%positive,
       {[1%positive := Build_object (Some 2) (Some 3) ∅]}).
Proof.
  split; [reflexivity|]. split; [|split].
  - intros (field & z & Hline & _). discriminate Hline.
  - intros (field & z & Hline & _). discriminate Hline.
  - by vm_compute.
Qed.

(** C7, amended: the parser raises its format error unless each of the
    first two lines has a second field, among those that [=] separates, that
    is an integer once trimmed, and every line after them is blank or holds
    three integers; the text before the first [=] is not looked at.  The
    error carries the exception raised at the first line that is not in
    order.  In particular the run fails when one of the first two lines has
    no [=], when its field is not an integer, when there are fewer than two
    lines, and when a later line that is not blank has fewer than three
    fields; and where such a line is the first out of order, the cause is the
    index error of Python for the missing line and the missing [=], the
    error of [int] for the field, and for the line of fewer than three
    integers the error of the assignment that lacks a value. *)
Theorem parser_rejects (text : list ascii) (nr nc : option Z) (σ : heap) :
  let run := SparseMatrix.__init__ (Some text) nr nc σ in
  let lines := file.readlines text in
  let headers i := ∀ k, (k < i)%nat → ∃ line z,
                     lines !! k = Some line ∧ header_field line z in
  (∀ e σ', run = (Raised e, σ') →
     ∃ cause, e = WrongFormat cause
       ∧ ((∃ i, (i < 2)%nat ∧ headers i ∧ header_error lines i cause)
          ∨ (headers 2%nat
             ∧ ∃ before line after,
                 drop 2 lines = before ++ line :: after
                 ∧ Forall in_order before ∧ entry_error line cause)))
  ∧ (∀ l σ', run = (Returned l, σ') →
      ∃ line0 line1 r c M,
        lines !! 0%nat = Some line0 ∧ header_field line0 r
        ∧ lines !! 1%nat = Some line1 ∧ header_field line1 c
        ∧ Forall in_order (drop 2 lines)
        ∧ σ' !! l = Some M ∧ num_rows M = Some r ∧ num_cols M = Some c)
  ∧ (∀ i line, (i < 2)%nat → lines !! i = Some line → "="%char ∉ line →
      format_error run
      ∧ (headers i → run.1 = Raised (WrongFormat IndexError)))
  ∧ (∀ i line field cause, (i < 2)%nat → lines !! i = Some line →
      str.split "="%char line !! 1%nat = Some field →
      builtins.int (str.strip field) = inl cause →
      format_error run
      ∧ (headers i → run.1 = Raised (WrongFormat cause))
      ∧ (cause = InvalidLiteral (str.strip field)
         ∨ ∃ n, cause = ExceedsLimit (Some n)
                ∧ (builtins.max_str_digits < n)%nat))
  ∧ (∀ i, (i < 2)%nat → lines !! i = None →
      format_error run
      ∧ (headers i → run.1 = Raised (WrongFormat IndexError)))
  ∧ (∀ before line after fields,
      drop 2 lines = before ++ line :: after → str.strip line ≠ [] →
      fields = str.split ","%char
                 (str.strip_chars (chars "()" ++ ["010"%char]) line) →
      (length fields < 3)%nat →
      format_error run
      ∧ (headers 2%nat → Forall in_order before →
         Forall (λ field, ∃ z, builtins.int field = inr z) fields →
         run.1 = Raised (WrongFormat (NotEnoughValues 3 (length fields))))).
Proof.
  intros run lines headers.
  assert (∀ i, headers i ↔ ∀ k, (k < i)%nat → ∃ z, read_header lines k = inr z)
    as Hheaders.
  { intros i. unfold headers. split; intros H k Hk.
    - destruct (H k Hk) as (line & z & Hline & Hfield).
      exists z. apply read_header_inr. by exists line.
    - destruct (H k Hk) as (z & (line & Hline & Hfield)%read_header_inr).
      by exists line, z. }
  assert (∀ i cause, (i < 2)%nat → headers i → header_error lines i cause →
            run.1 = Raised (WrongFormat cause)) as Hcause.
  { intros i cause Hi Hok Herr. apply init_file_cause, read_file_Some.
    cbv zeta. fold lines.
    assert (i = 0 ∨ i = 1)%nat as [-> | ->] by lia; [by left|].
    right. left. split; [|done]. apply (proj1 (Hheaders 1%nat) Hok). lia. }
  assert (∀ i cause, (i < 2)%nat → header_error lines i cause →
            format_error run) as Hheader.
  { intros i cause Hi Herr. apply init_file_raises. rewrite read_file_None.
    fold lines. intros ([r Hr] & [c Hc] & _).
    apply read_header_inl in Herr.
    assert (i = 0 ∨ i = 1)%nat as [-> | ->] by lia; congruence. }
  split_and!.
  - intros e σ' Hrun.
    apply init_file_raised in Hrun as (cause & -> & Hread).
    exists cause. split; [done|].
    apply read_file_Some in Hread. cbv zeta in Hread. fold lines in Hread.
    destruct Hread as [H0|[[[r Hr] H1]|([r Hr] & [c Hc] & Hentry)]].
    + left. exists 0%nat. split_and!; [lia| |done]. intros k Hk. lia.
    + left. exists 1%nat. split_and!; [lia| |done].
      apply (proj2 (Hheaders 1%nat)). intros k Hk. exists r.
      by replace k with 0%nat by lia.
    + right. split; [|done]. apply (proj2 (Hheaders 2%nat)). intros k Hk.
      assert (k = 0 ∨ k = 1)%nat as [-> | ->] by lia; by eexists.
  - intros l σ' Hrun. apply init_file_returns in Hrun as [Hok Hl].
    pose proof (proj1 (read_file_None _ _) Hok) as (_ & _ & Hlines).
    destruct (read_file text _) as [e M] eqn:Hread. simpl in Hok, Hl.
    destruct (read_file_dims _ _ _ _ Hread Hok)
      as (r & c & Hr & Hc & HMr & HMc & _).
    apply read_header_inr in Hr as (line0 & Hline0 & Hfield0).
    apply read_header_inr in Hc as (line1 & Hline1 & Hfield1).
    exists line0, line1, r, c, M. split_and!; try done.
    eapply Forall_impl; [done|]. intros line Hx.
    by apply in_order_read_entry.
  - intros i line Hi Hline Hsep.
    assert (header_error lines i IndexError) as Herr.
    { unfold header_error. rewrite Hline. by rewrite split_no_sep. }
    split; [by eapply Hheader|]. intros Hok. by apply (Hcause i).
  - intros i line field cause Hi Hline Hfield Hint.
    assert (header_error lines i cause) as Herr.
    { unfold header_error. by rewrite Hline, Hfield. }
    split_and!; [by eapply Hheader| |by apply int_inl].
    intros Hok. by apply (Hcause i).
  - intros i Hi Hline.
    assert (header_error lines i IndexError) as Herr.
    { unfold header_error. by rewrite Hline. }
    split; [by eapply Hheader|]. intros Hok. by apply (Hcause i).
  - intros before line after fields Hlines Hblank -> Hshort. split.
    + apply init_file_raises. rewrite read_file_None. fold lines.
      intros (_ & _ & Hall). rewrite Hlines in Hall.
      apply Forall_app in Hall as [_ Hall].
      apply Forall_cons in Hall as [[x Hx] _].
      apply read_entry_inr in Hx. destruct x as [item|]; [|done].
      destruct Hx as [_ Hitem].
      destruct (unpack3_short _ Hshort) as [e He]. congruence.
    + intros Hok Hbefore Hint. apply init_file_cause, read_file_Some.
      cbv zeta. fold lines. right. right.
      pose proof (proj1 (Hheaders 2%nat) Hok) as Hok'.
      split; [apply Hok'; lia|]. split; [apply Hok'; lia|].
      exists before, line, after. split_and!; [done..|].
      split; [done|]. by apply unpack3_short_cause.
Qed.

(** The two texts of scenario 5. *)
Example parse_failures :
  SparseMatrix.__init__ (Some (chars "rows=two")) None None ∅
  = (Raised (WrongFormat (InvalidLiteral (chars "two"))),
     {[1%positive := Build_object None None ∅]})
  ∧ SparseMatrix.__init__
      (Some (chars "rows=2" ++ "010"%char :: chars "cols=2" ++ "010"%char
               :: chars "(1,2)")) None None ∅
    = (Raised (WrongFormat (NotEnoughValues 3 2)),
       {[1%positive := Build_object (Some 2) (Some 2) ∅]}).
Proof. by vm_compute. Qed.

(** The text whose entry lines are [(0, 0, 0)] and then [(0, 0, 5)]: the
    first is a well-formed entry with value 0, and the parsed matrix holds 5
    at its coordinate and satisfies I1. *)
Lemma zero_entry_overwritten :
  let text := chars "rows=1" ++ "010"%char :: chars "cols=1" ++ "010"%char
                :: chars "(0, 0, 0)" ++ "010"%char :: chars "(0, 0, 5)" in
  let M := Build_object (Some 1) (Some 1) (<[(0, 0) := 5]> ∅) in
  chars "(0, 0, 0)" ++ ["010"%char] ∈ drop 2 (file.readlines text)
  ∧ well_formed_entry (chars "(0, 0, 0)" ++ ["010"%char]) (0, 0, 0)
  ∧ SparseMatrix.__init__ (Some text) None None ∅
    = (Returned 1%positive, {[1%positive := M]})
  ∧ elements M !! (0, 0) = Some 5
  ∧ I1 M.
Proof.
  split; [by left|]. split; [by split|]. split; [by vm_compute|].
  split; [done|]. apply (bool_decide_unpack _). by vm_compute.
Qed.

(** C8, amended: when the parser returns, a well-formed entry line whose
    value is exactly 0, and after which no line names the same coordinate,
    leaves that coordinate bound to 0 in the dictionary of the parsed matrix:
    the zero is stored as it is read, and the matrix violates I1 there. *)
Theorem parser_keeps_zero (text : list ascii) (nr nc : option Z) (σ σ' : heap)
    l before line after (row col : Z) :
  SparseMatrix.__init__ (Some text) nr nc σ = (Returned l, σ') →
  drop 2 (file.readlines text) = before ++ line :: after →
  well_formed_entry line (row, col, 0) →
  (∀ line' value, line' ∈ after →
     ¬ well_formed_entry line' (row, col, value)) →
  ∃ M, σ' !! l = Some M ∧ elements M !! (row, col) = Some 0 ∧ ¬ I1 M.
Proof.
  intros Hrun Hlines Hline Hafter.
  apply init_file_returns in Hrun as [Hok Hl].
  pose proof (proj1 (read_file_None _ _) Hok) as (_ & _ & Hall).
  destruct (read_file text _) as [e M] eqn:Hread. simpl in Hok, Hl.
  destruct (read_file_dims _ _ _ _ Hread Hok)
    as (r & c & Hr & Hc & _ & _ & Helements).
  assert (elements M !! (row, col) = Some 0) as Hzero.
  { rewrite Helements, Hlines. apply read_entries_last.
    - rewrite <-Hlines. by apply read_entries_None.
    - by apply (read_entry_inr line (Some (row, col, 0))).
    - intros line' v Hin Hx. apply (Hafter line' v Hin).
      by apply (read_entry_inr line' (Some (row, col, v))). }
  exists M. split; [done|]. split; [done|].
  intros HI1. by apply HI1 in Hzero.
Qed.

Lemma parser_keeps_zero_witness :
  ∃ M, (SparseMatrix.__init__
          (Some (chars "rows=1" ++ "010"%char :: chars "cols=1" ++ "010"%char
                   :: chars "(0, 0, 5)" ++ "010"%char :: chars "(0, 0, 0)"))
          None None ∅).2 !! 1%positive = Some M
       ∧ elements M !! (0, 0) = Some 0 ∧ ¬ I1 M.
Proof.
  apply (parser_keeps_zero
           (chars "rows=1" ++ "010"%char :: chars "cols=1" ++ "010"%char
              :: chars "(0, 0, 5)" ++ "010"%char :: chars "(0, 0, 0)")
           None None ∅ _ 1%positive
           [chars "(0, 0, 5)" ++ ["010"%char]] (chars "(0, 0, 0)") [] 0 0).
  - reflexivity.
  - reflexivity.
  - split; [discriminate|reflexivity].
  - intros line' value Hin. inversion Hin.
Defined.

(** * Further properties *)

(** ** [set_element] and [get_element] *)

Lemma lookup_set_element_step key value d key' :
  set_element_step key value d !! key'
  = if decide (key = key') then pruned value else d !! key'.
Proof.
  unfold set_element_step, pruned.
  destruct (decide (value ≠ 0)) as [Hv|Hv].
  - rewrite lookup_insert. destruct (decide (key = key')); [|done].
    by rewrite decide_False.
  - apply dec_stable in Hv. rewrite lookup_delete.
    destruct (decide (key = key')); [|done]. by rewrite decide_True.
Qed.

(** X1: [set_element] never raises; afterwards [get_element] returns the
    value at the coordinate that was set and what it returned before at every
    other coordinate; the dimensions and every other object are as they
    were. *)
Theorem set_then_get (σ : heap) m M (row col value : Z) :
  σ !! m = Some M →
  ∃ σ' M',
    SparseMatrix.set_element m row col value σ = (Returned (), σ')
    ∧ σ' !! m = Some M'
    ∧ num_rows M' = num_rows M ∧ num_cols M' = num_cols M
    ∧ SparseMatrix.get_element m row col σ' = (Returned value, σ')
    ∧ (∀ row' col', (row', col') ≠ (row, col) →
         ∃ v, SparseMatrix.get_element m row' col' σ = (Returned v, σ)
              ∧ SparseMatrix.get_element m row' col' σ' = (Returned v, σ'))
    ∧ ∀ l, l ≠ m → σ' !! l = σ !! l.
Proof.
  intros Hm. eexists _, _.
  split; [by apply updates_set_element|].
  split; [apply lookup_insert_eq|]. split; [done|]. split; [done|].
  split; [|split].
  - erewrite run_get_element by apply lookup_insert_eq. simpl.
    rewrite lookup_set_element_step, decide_True by done.
    by rewrite default_pruned.
  - intros row' col' Hne. eexists. split; [by apply run_get_element|].
    erewrite run_get_element by apply lookup_insert_eq. simpl.
    rewrite lookup_set_element_step, decide_False; [done|congruence].
  - intros l Hl. by rewrite lookup_insert_ne.
Qed.

Lemma set_then_get_witness :
  ∃ σ' M',
    SparseMatrix.set_element 1 0 1 7 heap_ABC = (Returned (), σ')
    ∧ σ' !! 1%positive = Some M'
    ∧ num_rows M' = num_rows matrix_A ∧ num_cols M' = num_cols matrix_A
    ∧ SparseMatrix.get_element 1 0 1 σ' = (Returned 7, σ')
    ∧ (∀ row' col', (row', col') ≠ (0, 1) →
         ∃ v, SparseMatrix.get_element 1 row' col' heap_ABC
              = (Returned v, heap_ABC)
              ∧ SparseMatrix.get_element 1 row' col' σ' = (Returned v, σ'))
    ∧ ∀ l, l ≠ 1%positive → σ' !! l = heap_ABC !! l.
Proof. apply (set_then_get heap_ABC 1%positive matrix_A 0 1 7). reflexivity. Defined.

(** X2: [set_element] keeps invariant I1, and repairs it at the coordinate
    it sets: afterwards that coordinate is bound to the value when the value
    is not 0 and is absent from the dictionary when the value is 0. *)
Theorem set_element_keeps_I1 (σ : heap) m M (row col value : Z) :
  σ !! m = Some M →
  ∃ σ' M',
    SparseMatrix.set_element m row col value σ = (Returned (), σ')
    ∧ σ' !! m = Some M'
    ∧ (value ≠ 0 → elements M' !! (row, col) = Some value)
    ∧ (value = 0 → elements M' !! (row, col) = None)
    ∧ (I1 M → I1 M').
Proof.
  intros Hm. eexists _, _.
  split; [by apply updates_set_element|].
  split; [apply lookup_insert_eq|]. cbn [elements with_elements].
  split_and!.
  - intros Hv. rewrite lookup_set_element_step, decide_True by done.
    unfold pruned. by rewrite decide_False.
  - intros ->. by rewrite lookup_set_element_step, decide_True.
  - intros HI1 key v. cbn [elements with_elements].
    rewrite lookup_set_element_step.
    destruct (decide ((row, col) = key)); [|by apply HI1].
    unfold pruned. case_decide; congruence.
Qed.

Lemma set_element_keeps_I1_witness :
  ∃ σ' M',
    SparseMatrix.set_element 1 0 0 0 heap_ABC = (Returned (), σ')
    ∧ σ' !! 1%positive = Some M'
    ∧ (0 ≠ 0 → elements M' !! (0, 0) = Some 0)
    ∧ (0 = 0 → elements M' !! (0, 0) = None)
    ∧ (I1 matrix_A → I1 M').
Proof.
  apply (set_element_keeps_I1 heap_ABC 1%positive matrix_A 0 0 0). reflexivity.
Defined.

(** ** The operators as functions of their operands *)

Lemma run_func op σ a b A B :
  σ !! a = Some A → σ !! b = Some B → check op A B →
  func op a b σ
  = (Returned (fresh (dom σ)), <[fresh (dom σ) := result op A B]> σ).
Proof.
  intros Ha Hb Hcheck. destruct op; simpl in Hcheck |- *.
  - destruct Hcheck. by apply run_add.
  - destruct Hcheck. by apply run_sub.
  - by apply run_mul.
Qed.

Lemma lookup_alloc (σ : heap) l o R :
  σ !! l = Some o → <[fresh (dom σ) := R]> σ !! l = Some o.
Proof.
  intros Hl. rewrite lookup_insert_ne; [done|].
  symmetry. eauto using lookup_fresh_ne.
Qed.

Lemma same_elements_get σ p q P Q :
  σ !! p = Some P → σ !! q = Some Q →
  (∀ row col, get P row col = get Q row col) → same_elements σ p q.
Proof.
  intros Hp Hq Hget row col. exists (get P row col).
  split; [by apply run_get_element|].
  rewrite Hget. by apply run_get_element.
Qed.

Lemma get_add A B row col :
  get (result addition A B) row col = get A row col + get B row col.
Proof. apply get_add_elements. Qed.

Lemma get_sub A B row col :
  get (result subtraction A B) row col = get A row col - get B row col.
Proof. apply get_sub_elements. Qed.

(** Dictionaries without zeros that hold the same elements are equal. *)
Lemma I1_elements_eq (d1 d2 : gmap (Z * Z) Z) :
  map_Forall (λ _ v, v ≠ 0) d1 → map_Forall (λ _ v, v ≠ 0) d2 →
  (∀ k, default 0 (d1 !! k) = default 0 (d2 !! k)) → d1 = d2.
Proof.
  intros H1 H2 Hget. apply map_eq. intros k. specialize (Hget k).
  destruct (d1 !! k) as [v1|] eqn:Hk1, (d2 !! k) as [v2|] eqn:Hk2;
    simpl in Hget; [by subst| | |done].
  - apply H1 in Hk1. congruence.
  - apply H2 in Hk2. congruence.
Qed.

Lemma I1_add_elements a b :
  map_Forall (λ _ v, v ≠ 0) a →
  map_Forall (λ _ v, v ≠ 0) (add_elements a b).
Proof.
  intros Ha k v. rewrite lookup_add_elements.
  destruct (b !! k); [|by apply Ha]. unfold pruned. case_decide; congruence.
Qed.

(** ** Laws of addition and subtraction *)

(** X3: addition commutes: for operands of equal dimensions, [A + B] and
    [B + A] hold the same element at every coordinate; when both operands
    satisfy I1 the two results have the same dimensions and the same
    dictionary. *)
Theorem add_commutes (σ : heap) a b A B :
  σ !! a = Some A → σ !! b = Some B →
  num_rows A = num_rows B → num_cols A = num_cols B →
  ∃ p q σ' P Q,
    (p ← SparseMatrix.__add__ a b; q ← SparseMatrix.__add__ b a;
     mret (p, q)) σ = (Returned (p, q), σ')
    ∧ same_elements σ' p q
    ∧ σ' !! p = Some P ∧ σ' !! q = Some Q
    ∧ (I1 A → I1 B → P = Q).
Proof.
  intros Ha Hb Hr Hc. eexists _, _, _, _, _.
  split.
  { erewrite run_bind by (by apply (run_func addition)).
    erewrite run_bind; [done|].
    apply (run_func addition); [by apply lookup_alloc..|done]. }
  assert (∀ row col, get (result addition A B) row col
                     = get (result addition B A) row col) as Hget.
  { intros row col. rewrite !get_add. lia. }
  split_and!.
  - eapply same_elements_get; [|apply lookup_insert_eq|done].
    apply lookup_alloc, lookup_insert_eq.
  - apply lookup_alloc, lookup_insert_eq.
  - apply lookup_insert_eq.
  - intros HA HB. simpl. rewrite Hr, Hc. f_equal.
    apply I1_elements_eq; [by apply I1_add_elements..|].
    intros [row col]. apply Hget.
Qed.

Lemma add_commutes_witness :
  ∃ p q σ' P Q,
    (p ← SparseMatrix.__add__ 1 2; q ← SparseMatrix.__add__ 2 1;
     mret (p, q)) heap_ABC = (Returned (p, q), σ')
    ∧ same_elements σ' p q
    ∧ σ' !! p = Some P ∧ σ' !! q = Some Q
    ∧ (I1 matrix_A → I1 matrix_B → P = Q).
Proof.
  apply (add_commutes heap_ABC 1%positive 2%positive matrix_A matrix_B);
    reflexivity.
Defined.

Ltac solve_lookup :=
  first [eassumption | apply lookup_insert_eq | apply lookup_alloc; solve_lookup].

(** Runs the next operator of a sequence of calls. *)
Ltac run_op op :=
  erewrite run_bind;
  [|apply (run_func op); [solve_lookup|solve_lookup|simpl; auto]].

(** X4: addition is associative: for three operands of equal dimensions,
    [(A + B) + C] and [A + (B + C)] hold the same element at every
    coordinate. *)
Theorem add_associates (σ : heap) a b c A B C :
  σ !! a = Some A → σ !! b = Some B → σ !! c = Some C →
  num_rows A = num_rows B → num_cols A = num_cols B →
  num_rows B = num_rows C → num_cols B = num_cols C →
  ∃ p q σ',
    (s ← SparseMatrix.__add__ a b; p ← SparseMatrix.__add__ s c;
     t ← SparseMatrix.__add__ b c; q ← SparseMatrix.__add__ a t;
     mret (p, q)) σ = (Returned (p, q), σ')
    ∧ same_elements σ' p q.
Proof.
  intros Ha Hb Hc Hr1 Hc1 Hr2 Hc2. eexists _, _, _. split.
  { run_op addition. run_op addition; [|split; congruence].
    run_op addition. run_op addition. done. }
  eapply same_elements_get; [solve_lookup..|].
  intros row col. rewrite !get_add. lia.
Qed.

Lemma add_associates_witness :
  ∃ p q σ',
    (s ← SparseMatrix.__add__ 1 2; p ← SparseMatrix.__add__ s 1;
     t ← SparseMatrix.__add__ 2 1; q ← SparseMatrix.__add__ 1 t;
     mret (p, q)) heap_ABC = (Returned (p, q), σ')
    ∧ same_elements σ' p q.
Proof.
  apply (add_associates heap_ABC 1%positive 2%positive 1%positive
           matrix_A matrix_B matrix_A); reflexivity.
Defined.

(** X5: addition undoes subtraction: for operands of equal dimensions,
    [(A - B) + B] holds the same element as [A] at every coordinate. *)
Theorem add_sub_cancel (σ : heap) a b A B :
  σ !! a = Some A → σ !! b = Some B →
  num_rows A = num_rows B → num_cols A = num_cols B →
  ∃ p σ',
    (d ← SparseMatrix.__sub__ a b; SparseMatrix.__add__ d b) σ
    = (Returned p, σ')
    ∧ same_elements σ' p a.
Proof.
  intros Ha Hb Hr Hc. eexists _, _. split.
  { run_op subtraction. apply (run_func addition); [solve_lookup..|].
    simpl. auto. }
  eapply same_elements_get; [solve_lookup..|].
  intros row col. rewrite get_add, get_sub. lia.
Qed.

Lemma add_sub_cancel_witness :
  ∃ p σ',
    (d ← SparseMatrix.__sub__ 1 2; SparseMatrix.__add__ d 2) heap_ABC
    = (Returned p, σ')
    ∧ same_elements σ' p 1%positive.
Proof.
  apply (add_sub_cancel heap_ABC 1%positive 2%positive matrix_A matrix_B);
    reflexivity.
Defined.

(** X6: the operators accept the same object on both sides: [A - A] has an
    empty dictionary, whatever [A] stores, and [A + A] holds twice the
    element of [A] at every coordinate; [A] is as it was. *)
Theorem same_operand_twice (σ : heap) a A :
  σ !! a = Some A →
  ∃ d s σ' D S,
    (d ← SparseMatrix.__sub__ a a; s ← SparseMatrix.__add__ a a;
     mret (d, s)) σ = (Returned (d, s), σ')
    ∧ σ' !! d = Some D ∧ σ' !! s = Some S ∧ σ' !! a = Some A
    ∧ elements D = ∅
    ∧ ∀ row col, get S row col = 2 * get A row col.
Proof.
  intros Ha. eexists _, _, _, _, _. split.
  { run_op subtraction. run_op addition. done. }
  split_and!; [solve_lookup..| |].
  - apply map_eq. intros k. simpl.
    rewrite lookup_sub_elements, lookup_empty.
    destruct (elements A !! k) as [v|] eqn:Hk; [|done]. simpl.
    unfold pruned. apply decide_True. lia.
  - intros row col. rewrite get_add. lia.
Qed.

Lemma same_operand_twice_witness :
  ∃ d s σ' D S,
    (d ← SparseMatrix.__sub__ 1 1; s ← SparseMatrix.__add__ 1 1;
     mret (d, s)) heap_ABC = (Returned (d, s), σ')
    ∧ σ' !! d = Some D ∧ σ' !! s = Some S ∧ σ' !! 1%positive = Some matrix_A
    ∧ elements D = ∅
    ∧ ∀ row col, get S row col = 2 * get matrix_A row col.
Proof. apply (same_operand_twice heap_ABC 1%positive matrix_A). reflexivity. Defined.

(** X7: a zero stored in the left operand, at a coordinate that the right
    operand does not store, is copied into the sum and into the difference,
    which then violate I1; a zero stored in the right operand, at a
    coordinate that the left operand does not store, is not. *)
Theorem stored_zero_of_operands (σ : heap) op a b A B (key : Z * Z) :
  σ !! a = Some A → σ !! b = Some B →
  op = addition ∨ op = subtraction →
  num_rows A = num_rows B → num_cols A = num_cols B →
  ∃ r σ' R,
    func op a b σ = (Returned r, σ') ∧ σ' !! r = Some R
    ∧ (elements A !! key = Some 0 → elements B !! key = None →
         elements R !! key = Some 0 ∧ ¬ I1 R)
    ∧ (elements A !! key = None → elements B !! key = Some 0 →
         elements R !! key = None).
Proof.
  intros Ha Hb Hop Hr Hc. eexists _, _, _.
  split; [apply run_func; [done..|by destruct Hop as [-> | ->]]|].
  split; [solve_lookup|].
  assert (elements A !! key = Some 0 → elements B !! key = None →
          elements (result op A B) !! key = Some 0) as Hleft.
  { intros HA HB. destruct Hop as [-> | ->]; simpl.
    - by rewrite lookup_add_elements, HB.
    - by rewrite lookup_sub_elements, HB. }
  split.
  - intros HA HB. split; [by apply Hleft|].
    intros HI1. by eapply HI1; [apply Hleft|].
  - intros HA HB. destruct Hop as [-> | ->]; simpl.
    + by rewrite lookup_add_elements, HB, HA.
    + by rewrite lookup_sub_elements, HB, HA.
Qed.

Lemma stored_zero_of_operands_witness :
  ∃ r σ' R,
    SparseMatrix.__add__ 1 2 heap_Z = (Returned r, σ') ∧ σ' !! r = Some R
    ∧ elements R !! (1, 0) = Some 0 ∧ ¬ I1 R.
Proof.
  destruct (stored_zero_of_operands heap_Z addition 1%positive 2%positive
              matrix_Z matrix_A (1, 0) eq_refl eq_refl (or_introl eq_refl)
              eq_refl eq_refl) as (r & σ' & R & Hrun & HR & Hleft & _).
  exists r, σ', R. split; [exact Hrun|]. split; [exact HR|].
  apply Hleft; reflexivity.
Defined.

(** ** Laws of multiplication *)

Lemma sum_nil : builtins.sum [] = 0.
Proof. done. Qed.

Lemma sum_fmap_add {X} (f g : X → Z) (l : list X) :
  builtins.sum ((λ x, f x + g x) <$> l)
  = builtins.sum (f <$> l) + builtins.sum (g <$> l).
Proof.
  induction l as [|x l IH]; [done|].
  rewrite !fmap_cons, !sum_cons, IH. lia.
Qed.

Lemma sum_fmap_mul_l {X} (c : Z) (f : X → Z) (l : list X) :
  builtins.sum ((λ x, c * f x) <$> l) = c * builtins.sum (f <$> l).
Proof.
  induction l as [|x l IH]; [cbn [fmap list_fmap]; rewrite sum_nil; lia|].
  rewrite !fmap_cons, !sum_cons, IH. lia.
Qed.

Lemma sum_fmap_mul_r {X} (c : Z) (f : X → Z) (l : list X) :
  builtins.sum ((λ x, f x * c) <$> l) = builtins.sum (f <$> l) * c.
Proof.
  induction l as [|x l IH]; [cbn [fmap list_fmap]; rewrite sum_nil; lia|].
  rewrite !fmap_cons, !sum_cons, IH. lia.
Qed.

Lemma sum_fmap_ext {X} (f g : X → Z) (l : list X) :
  (∀ x, f x = g x) → builtins.sum (f <$> l) = builtins.sum (g <$> l).
Proof. intros Hfg. f_equal. by apply list_fmap_ext. Qed.

Lemma sum_fmap_zero {X} (l : list X) : builtins.sum ((λ _, 0) <$> l) = 0.
Proof. induction l as [|x l IH]; [done|]. by rewrite fmap_cons, sum_cons, IH. Qed.

(** Sums over two lists can be taken in either order. *)
Lemma sum_swap {X Y} (f : X → Y → Z) (xs : list X) (ys : list Y) :
  builtins.sum ((λ x, builtins.sum ((λ y, f x y) <$> ys)) <$> xs)
  = builtins.sum ((λ y, builtins.sum ((λ x, f x y) <$> xs)) <$> ys).
Proof.
  induction xs as [|x xs IH].
  - simpl. by rewrite sum_fmap_zero.
  - rewrite fmap_cons, sum_cons, IH, <-sum_fmap_add.
    apply sum_fmap_ext. intros y. by rewrite fmap_cons, sum_cons.
Qed.

Lemma elem_of_cols_of d i k : is_Some (d !! (i, k)) → k ∈ cols_of d.
Proof.
  intros Hk. unfold cols_of. apply elem_of_map. exists (i, k).
  split; [done|]. by apply elem_of_dom.
Qed.

Lemma elem_of_rows_of d k j : is_Some (d !! (k, j)) → k ∈ rows_of d.
Proof.
  intros Hk. unfold rows_of. apply elem_of_map. exists (k, j).
  split; [done|]. by apply elem_of_dom.
Qed.

Lemma term_cols a b i j k : term a b i j k ≠ 0 → k ∈ cols_of a.
Proof.
  unfold term. intros Hk. apply (elem_of_cols_of a i).
  destruct (a !! (i, k)); [done|]. simpl in Hk. lia.
Qed.

Lemma term_rows a b i j k : term a b i j k ≠ 0 → k ∈ rows_of b.
Proof.
  unfold term. intros Hk. apply (elem_of_rows_of b k j).
  destruct (b !! (k, j)); [done|]. simpl in Hk. lia.
Qed.

(** The element of a product, as a sum over any set of indices that holds
    the indices of the terms that are not zero. *)
Lemma get_mul A B i j (K : gset Z) :
  (∀ k, get A i k * get B k j ≠ 0 → k ∈ K) →
  get (result multiplication A B) i j
  = builtins.sum ((λ k, get A i k * get B k j) <$> base.elements K).
Proof.
  intros HK. unfold get at 1. simpl.
  rewrite lookup_mul_elements, default_pruned.
  by apply dot_sum.
Qed.

Lemma get_mul_cols A B i j :
  get (result multiplication A B) i j
  = builtins.sum ((λ k, get A i k * get B k j)
                    <$> base.elements (cols_of (elements A))).
Proof. apply get_mul. intros k. apply term_cols. Qed.

Lemma get_mul_rows A B i j :
  get (result multiplication A B) i j
  = builtins.sum ((λ k, get A i k * get B k j)
                    <$> base.elements (rows_of (elements B))).
Proof. apply get_mul. intros k. apply term_rows. Qed.

(** X8: multiplication distributes over addition, on the left and on the
    right: [A * (B + C)] holds the elements of [A * B + A * C], and
    [(A + B) * C] those of [A * C + B * C]. *)
Theorem mul_distributes (σ : heap) a b c A B C :
  σ !! a = Some A → σ !! b = Some B → σ !! c = Some C →
  (num_cols A = num_rows B → num_rows B = num_rows C →
   num_cols B = num_cols C →
   ∃ p q σ',
     (s ← SparseMatrix.__add__ b c; p ← SparseMatrix.__mul__ a s;
      x ← SparseMatrix.__mul__ a b; y ← SparseMatrix.__mul__ a c;
      q ← SparseMatrix.__add__ x y; mret (p, q)) σ = (Returned (p, q), σ')
     ∧ same_elements σ' p q)
  ∧ (num_rows A = num_rows B → num_cols A = num_cols B →
     num_cols B = num_rows C →
     ∃ p q σ',
       (s ← SparseMatrix.__add__ a b; p ← SparseMatrix.__mul__ s c;
        x ← SparseMatrix.__mul__ a c; y ← SparseMatrix.__mul__ b c;
        q ← SparseMatrix.__add__ x y; mret (p, q)) σ = (Returned (p, q), σ')
       ∧ same_elements σ' p q).
Proof.
  intros Ha Hb Hc. split.
  - intros H1 H2 H3. eexists _, _, _. split.
    { run_op addition. run_op multiplication. run_op multiplication.
      run_op multiplication; [|congruence]. run_op addition. done. }
    eapply same_elements_get; [solve_lookup..|].
    intros i j. rewrite get_add, !get_mul_cols, <-sum_fmap_add.
    apply sum_fmap_ext. intros k. rewrite get_add. lia.
  - intros H1 H2 H3. eexists _, _, _. split.
    { run_op addition. run_op multiplication; [|congruence].
      run_op multiplication; [|congruence]. run_op multiplication.
      run_op addition. done. }
    eapply same_elements_get; [solve_lookup..|].
    intros i j. rewrite get_add, !get_mul_rows, <-sum_fmap_add.
    apply sum_fmap_ext. intros k. rewrite get_add. lia.
Qed.

Lemma mul_distributes_witness :
  (∃ p q σ',
     (s ← SparseMatrix.__add__ 2 1; p ← SparseMatrix.__mul__ 1 s;
      x ← SparseMatrix.__mul__ 1 2; y ← SparseMatrix.__mul__ 1 1;
      q ← SparseMatrix.__add__ x y; mret (p, q)) heap_ABC
     = (Returned (p, q), σ')
     ∧ same_elements σ' p q)
  ∧ (∃ p q σ',
       (s ← SparseMatrix.__add__ 1 2; p ← SparseMatrix.__mul__ s 1;
        x ← SparseMatrix.__mul__ 1 1; y ← SparseMatrix.__mul__ 2 1;
        q ← SparseMatrix.__add__ x y; mret (p, q)) heap_ABC
       = (Returned (p, q), σ')
       ∧ same_elements σ' p q).
Proof.
  destruct (mul_distributes heap_ABC 1%positive 2%positive 1%positive
              matrix_A matrix_B matrix_A eq_refl eq_refl eq_refl)
    as [Hleft Hright].
  split; [apply Hleft; reflexivity|apply Hright; reflexivity].
Defined.

(** X9: multiplication is associative: when the inner dimensions agree,
    [(A * B) * C] and [A * (B * C)] hold the same element at every
    coordinate. *)
Theorem mul_associates (σ : heap) a b c A B C :
  σ !! a = Some A → σ !! b = Some B → σ !! c = Some C →
  num_cols A = num_rows B → num_cols B = num_rows C →
  ∃ p q σ',
    (s ← SparseMatrix.__mul__ a b; p ← SparseMatrix.__mul__ s c;
     t ← SparseMatrix.__mul__ b c; q ← SparseMatrix.__mul__ a t;
     mret (p, q)) σ = (Returned (p, q), σ')
    ∧ same_elements σ' p q.
Proof.
  intros Ha Hb Hc H1 H2. eexists _, _, _. split.
  { run_op multiplication. run_op multiplication.
    run_op multiplication. run_op multiplication. done. }
  eapply same_elements_get; [solve_lookup..|].
  intros i j.
  rewrite (get_mul_rows _ C), (get_mul_cols A).
  rewrite (sum_fmap_ext _
             (λ l, builtins.sum
                     ((λ k, get A i k * get B k l * get C l j)
                        <$> base.elements (cols_of (elements A))))).
  2: { intros l. rewrite get_mul_cols, <-sum_fmap_mul_r. done. }
  rewrite (sum_fmap_ext (λ k, _ * get (result multiplication B C) k j)
             (λ k, builtins.sum
                     ((λ l, get A i k * get B k l * get C l j)
                        <$> base.elements (rows_of (elements C))))).
  2: { intros k. rewrite get_mul_rows, <-sum_fmap_mul_l.
       apply sum_fmap_ext. intros l. lia. }
  apply (sum_swap (λ l k, get A i k * get B k l * get C l j)).
Qed.

Lemma mul_associates_witness :
  ∃ p q σ',
    (s ← SparseMatrix.__mul__ 1 2; p ← SparseMatrix.__mul__ s 3;
     t ← SparseMatrix.__mul__ 2 3; q ← SparseMatrix.__mul__ 1 t;
     mret (p, q)) heap_ABC = (Returned (p, q), σ')
    ∧ same_elements σ' p q.
Proof.
  apply (mul_associates heap_ABC 1%positive 2%positive 3%positive
           matrix_A matrix_B matrix_C); reflexivity.
Defined.

Lemma lookup_identity n i j :
  elements (identity n) !! (i, j)
  = if decide (i = j ∧ 0 ≤ i < n) then Some 1 else None.
Proof.
  simpl. case_decide as Hij.
  - destruct Hij as [<- Hi]. apply elem_of_list_to_map.
    + rewrite <-list_fmap_compose. apply NoDup_fmap_2; [|apply NoDup_seqZ].
      by intros k1 k2 [= ->].
    + apply list_elem_of_fmap. exists i. split; [done|].
      apply elem_of_seqZ. lia.
  - apply not_elem_of_list_to_map.
    rewrite <-list_fmap_compose. intros (k & Hk & Hin)%list_elem_of_fmap.
    simpl in Hk. injection Hk as -> ->. apply elem_of_seqZ in Hin.
    apply Hij. split; [done|lia].
Qed.

Lemma get_identity n k j :
  get (identity n) k j = if decide (k = j ∧ 0 ≤ k < n) then 1 else 0.
Proof. unfold get. rewrite lookup_identity. by case_decide. Qed.

Lemma sum_singleton (f : Z → Z) (k : Z) :
  builtins.sum (f <$> base.elements ({[k]} : gset Z)) = f k.
Proof. rewrite elements_singleton. simpl. unfold builtins.sum. simpl. lia. Qed.

(** X10: multiplying by the identity keeps the elements that lie within
    its range and drops the others: the element of [A * I] at [(i, j)] is
    that of [A] when [0 <= j < n] and 0 otherwise, and the element of
    [I * A] is that of [A] when [0 <= i < n] and 0 otherwise.  Entries of
    [A] outside the declared dimensions are thus lost, without an error. *)
Theorem mul_identity (σ : heap) a e A (n : Z) :
  σ !! a = Some A → σ !! e = Some (identity n) →
  (num_cols A = Some n →
   ∃ p σ' P,
     SparseMatrix.__mul__ a e σ = (Returned p, σ') ∧ σ' !! p = Some P
     ∧ num_rows P = num_rows A ∧ num_cols P = Some n
     ∧ ∀ i j, get P i j = if decide (0 ≤ j < n) then get A i j else 0)
  ∧ (num_rows A = Some n →
     ∃ p σ' P,
       SparseMatrix.__mul__ e a σ = (Returned p, σ') ∧ σ' !! p = Some P
       ∧ num_rows P = Some n ∧ num_cols P = num_cols A
       ∧ ∀ i j, get P i j = if decide (0 ≤ i < n) then get A i j else 0).
Proof.
  intros Ha He. split.
  - intros Hn. eexists _, _, _.
    split; [by apply (run_func multiplication)|].
    split; [solve_lookup|]. split; [done|]. split; [done|].
    intros i j. rewrite (get_mul A (identity n) i j {[j]}).
    + rewrite (sum_singleton (λ k, get A i k * get (identity n) k j)).
      rewrite get_identity. repeat case_decide; lia.
    + intros k. rewrite get_identity. case_decide; [set_solver|lia].
  - intros Hn. eexists _, _, _.
    split; [by apply (run_func multiplication)|].
    split; [solve_lookup|]. split; [done|]. split; [done|].
    intros i j. rewrite (get_mul (identity n) A i j {[i]}).
    + rewrite (sum_singleton (λ k, get (identity n) i k * get A k j)).
      rewrite get_identity. repeat case_decide; lia.
    + intros k. rewrite get_identity. case_decide; [set_solver|lia].
Qed.

Lemma mul_identity_witness :
  (∃ p σ' P,
     SparseMatrix.__mul__ 1 2 heap_I = (Returned p, σ') ∧ σ' !! p = Some P
     ∧ num_rows P = num_rows matrix_A ∧ num_cols P = Some 2
     ∧ ∀ i j, get P i j = if decide (0 ≤ j < 2) then get matrix_A i j else 0)
  ∧ (∃ p σ' P,
       SparseMatrix.__mul__ 2 1 heap_I = (Returned p, σ') ∧ σ' !! p = Some P
       ∧ num_rows P = Some 2 ∧ num_cols P = num_cols matrix_A
       ∧ ∀ i j, get P i j = if decide (0 ≤ i < 2) then get matrix_A i j else 0).
Proof.
  destruct (mul_identity heap_I 1%positive 2%positive matrix_A 2
              eq_refl eq_refl) as [Hright Hleft].
  split; [apply Hright; reflexivity|apply Hleft; reflexivity].
Defined.

(** X11: a product with an operand that stores nothing stores nothing. *)
Theorem mul_empty (σ : heap) a b A B :
  σ !! a = Some A → σ !! b = Some B → num_cols A = num_rows B →
  elements A = ∅ ∨ elements B = ∅ →
  ∃ p σ' P,
    SparseMatrix.__mul__ a b σ = (Returned p, σ') ∧ σ' !! p = Some P
    ∧ elements P = ∅.
Proof.
  intros Ha Hb Hdim Hempty. eexists _, _, _.
  split; [by apply (run_func multiplication)|]. split; [solve_lookup|].
  apply map_eq. intros [i j]. simpl.
  rewrite lookup_mul_elements, lookup_empty.
  rewrite (dot_sum _ _ i j ∅); [done|].
  intros k Hk. exfalso. apply Hk. unfold term.
  destruct Hempty as [-> | ->]; rewrite lookup_empty; simpl; lia.
Qed.

Lemma mul_empty_witness :
  ∃ p σ' P,
    SparseMatrix.__mul__ 1 2 heap_E = (Returned p, σ') ∧ σ' !! p = Some P
    ∧ elements P = ∅.
Proof.
  apply (mul_empty heap_E 1%positive 2%positive matrix_A matrix_E);
    try reflexivity. by right.
Defined.

(** ** The parser *)

(** Where a stored value comes from: the last line that names its
    coordinate, or the dictionary the loop started with. *)
Lemma read_entries_lookup lines d key value :
  (read_entries lines d).1 = None →
  (read_entries lines d).2 !! key = Some value →
  (∃ before line after,
     lines = before ++ line :: after
     ∧ read_entry line = inr (Some (key, value))
     ∧ ∀ line' v, line' ∈ after → read_entry line' ≠ inr (Some (key, v)))
  ∨ (d !! key = Some value
     ∧ ∀ line v, line ∈ lines → read_entry line ≠ inr (Some (key, v))).
Proof.
  revert d. induction lines as [|line lines IH]; intros d Hok Hkey.
  { right. split; [done|]. intros line v Hin. by apply elem_of_nil in Hin. }
  cbn [read_entries] in Hok, Hkey.
  destruct (read_entry line) as [e|[[key' v']|]] eqn:Hline; [done|..].
  - destruct (IH _ Hok Hkey)
      as [(before & l & after & -> & Hl & Hafter)|[Hd Hnone]].
    + left. by exists (line :: before), l, after.
    + simpl in Hd. destruct (decide (key' = key)) as [->|Hne].
      * rewrite lookup_insert_eq in Hd. injection Hd as ->.
        left. by exists [], line, lines.
      * rewrite lookup_insert_ne in Hd by done. right. split; [done|].
        intros l v [->|Hin]%elem_of_cons; [|by apply Hnone].
        rewrite Hline. congruence.
  - destruct (IH _ Hok Hkey)
      as [(before & l & after & -> & Hl & Hafter)|[Hd Hnone]].
    + left. by exists (line :: before), l, after.
    + right. split; [done|].
      intros l v [->|Hin]%elem_of_cons; [|by apply Hnone].
      by rewrite Hline.
Qed.

(** X12: the last occurrence wins: when the parser returns, the dictionary
    of the parsed matrix binds a coordinate to a value exactly when some
    entry line holds that coordinate and that value and no later entry line
    holds that coordinate. *)
Theorem last_entry_wins (text : list ascii) (nr nc : option Z) (σ σ' : heap) l :
  SparseMatrix.__init__ (Some text) nr nc σ = (Returned l, σ') →
  ∃ M, σ' !! l = Some M
    ∧ ∀ row col value,
        elements M !! (row, col) = Some value
        ↔ ∃ before line after,
            drop 2 (file.readlines text) = before ++ line :: after
            ∧ well_formed_entry line (row, col, value)
            ∧ ∀ line' v, line' ∈ after →
                ¬ well_formed_entry line' (row, col, v).
Proof.
  intros Hrun. apply init_file_returns in Hrun as [Hok Hl].
  pose proof (proj1 (read_file_None _ _) Hok) as (_ & _ & Hall).
  apply read_entries_None with (d := ∅) in Hall.
  destruct (read_file text _) as [e M] eqn:Hread. simpl in Hok, Hl.
  destruct (read_file_dims _ _ _ _ Hread Hok)
    as (r & c & _ & _ & _ & _ & Helements).
  exists M. split; [done|]. intros row col value. rewrite Helements.
  cbn [elements] in *. split.
  - intros Hkey.
    destruct (read_entries_lookup _ _ _ _ Hall Hkey)
      as [(before & line & after & Hlines & Hline & Hafter)|[Hd _]]; [|done].
    exists before, line, after. split; [done|].
    split; [by apply (read_entry_inr line (Some (row, col, value)))|].
    intros line' v Hin Hx. apply (Hafter line' v Hin).
    by apply (read_entry_inr line' (Some (row, col, v))).
  - intros (before & line & after & Hlines & Hline & Hafter).
    rewrite Hlines in Hall |- *. apply read_entries_last; [done| |].
    + by apply (read_entry_inr line (Some (row, col, value))).
    + intros line' v Hin Hx. apply (Hafter line' v Hin).
      by apply (read_entry_inr line' (Some (row, col, v))).
Qed.

Lemma last_entry_wins_witness :
  ∃ M, (SparseMatrix.__init__
          (Some (chars "rows=1" ++ "010"%char :: chars "cols=1" ++ "010"%char
                   :: chars "(0, 0, 0)" ++ "010"%char :: chars "(0, 0, 5)"))
          None None ∅).2 !! 1%positive = Some M
    ∧ ∀ row col value,
        elements M !! (row, col) = Some value
        ↔ ∃ before line after,
            [chars "(0, 0, 0)" ++ ["010"%char]; chars "(0, 0, 5)"]
            = before ++ line :: after
            ∧ well_formed_entry line (row, col, value)
            ∧ ∀ line' v, line' ∈ after →
                ¬ well_formed_entry line' (row, col, v).
Proof.
  apply (last_entry_wins
           (chars "rows=1" ++ "010"%char :: chars "cols=1" ++ "010"%char
              :: chars "(0, 0, 0)" ++ "010"%char :: chars "(0, 0, 5)")
           None None ∅ _ 1%positive).
  reflexivity.
Defined.

Lemma unpack3_long fields :
  (3 < length fields)%nat → ∃ e, builtins.unpack3 fields = inl e.
Proof.
  destruct fields as [|a [|b [|c [|d rest]]]]; simpl; intros Hlen; try lia.
  destruct (builtins.int a); [by eexists|].
  destruct (builtins.int b); [by eexists|].
  destruct (builtins.int c); [by eexists|].
  destruct (builtins.int d); by eexists.
Qed.

(** X13: an entry line that is not blank and has more than three fields
    makes the parser raise its format error. *)
Theorem too_many_fields (text : list ascii) (nr nc : option Z) (σ : heap) line :
  line ∈ drop 2 (file.readlines text) → str.strip line ≠ [] →
  (3 < length (str.split ","%char
                 (str.strip_chars (chars "()" ++ ["010"%char]) line)))%nat →
  format_error (SparseMatrix.__init__ (Some text) nr nc σ).
Proof.
  intros Hline Hblank Hlong. apply init_file_raises.
  rewrite read_file_None. intros (_ & _ & Hlines).
  eapply Forall_forall in Hlines as [x Hx]; [|done].
  apply read_entry_inr in Hx. destruct x as [item|]; [|done].
  destruct Hx as [_ Hitem].
  destruct (unpack3_long _ Hlong) as [e He]. congruence.
Qed.

Lemma too_many_fields_witness :
  format_error
    (SparseMatrix.__init__
       (Some (chars "rows=1" ++ "010"%char :: chars "cols=1" ++ "010"%char
                :: chars "(0, 0, 5, 9)")) None None ∅).
Proof.
  apply (too_many_fields _ None None ∅ (chars "(0, 0, 5, 9)")).
  - by left.
  - discriminate.
  - vm_compute. lia.
Defined.

Lemma read_entries_filter lines d :
  read_entries lines d
  = read_entries (filter (λ line, str.strip line ≠ []) lines) d.
Proof.
  revert d. induction lines as [|line lines IH]; intros d; [done|].
  rewrite filter_cons. destruct (decide (str.strip line ≠ [])) as [Hline|Hline].
  - cbn [read_entries]. destruct (read_entry line) as [e|[item|]]; auto.
  - cbn [read_entries]. apply dec_stable in Hline.
    by rewrite (proj2 (read_entry_inr line None) Hline).
Qed.

Lemma read_header_take lines i :
  (i < 2)%nat → read_header lines i = read_header (take 2 lines) i.
Proof.
  intros Hi. unfold read_header, builtins.getitem.
  by rewrite lookup_take_lt.
Qed.

(** X14: blank lines among the entries change nothing: two texts with the
    same first two lines and the same lines that are not blank after them
    are read alike, into the same matrix or into the same exception. *)
Theorem blank_lines_ignored (text1 text2 : list ascii) (nr nc : option Z)
    (σ : heap) :
  take 2 (file.readlines text1) = take 2 (file.readlines text2) →
  filter (λ line, str.strip line ≠ []) (drop 2 (file.readlines text1))
  = filter (λ line, str.strip line ≠ []) (drop 2 (file.readlines text2)) →
  SparseMatrix.__init__ (Some text1) nr nc σ
  = SparseMatrix.__init__ (Some text2) nr nc σ.
Proof.
  intros Hhead Hlines. rewrite !run_init_file.
  assert (∀ o, read_file text1 o = read_file text2 o) as ->; [|done].
  intros o. unfold read_file.
  rewrite (read_header_take (file.readlines text1) 0) by lia.
  rewrite (read_header_take (file.readlines text1) 1) by lia.
  rewrite (read_entries_filter (drop 2 (file.readlines text1))).
  rewrite Hhead, Hlines.
  rewrite <-(read_header_take (file.readlines text2) 0) by lia.
  rewrite <-(read_header_take (file.readlines text2) 1) by lia.
  by rewrite <-(read_entries_filter (drop 2 (file.readlines text2))).
Qed.

Lemma blank_lines_ignored_witness :
  SparseMatrix.__init__
    (Some (chars "rows=1" ++ "010"%char :: chars "cols=1" ++ "010"%char
             :: "010"%char :: chars "(0, 0, 5)" ++ "010"%char
             :: chars "   " ++ ["010"%char])) None None ∅
  = SparseMatrix.__init__
      (Some (chars "rows=1" ++ "010"%char :: chars "cols=1" ++ "010"%char
               :: chars "(0, 0, 5)" ++ ["010"%char])) None None ∅.
Proof. apply blank_lines_ignored; reflexivity. Defined.

(** ** [__str__] and the parser *)

Lemma dimension_text_one_line x : "010"%char ∉ dimension_text x.
Proof.
  destruct x as [z|]; [apply decimal_line|].
  by apply (bool_decide_unpack _).
Qed.

Lemma readlines_serialize M :
  ∃ t, (t = [] ∨ t = ["010"%char])
    ∧ file.readlines (serialize M)
      = (chars "rows=" ++ dimension_text (num_rows M) ++ ["010"%char])
          :: (chars "cols=" ++ dimension_text (num_cols M) ++ t)
          :: terminated (entry_text <$>
                           builtins.sorted (map_to_list (elements M))).
Proof.
  unfold serialize.
  set (items := builtins.sorted (map_to_list (elements M))).
  rewrite readlines_join; last first.
  { repeat apply Forall_cons_2.
    - split; [|done]. apply not_elem_of_app.
      split; [|apply dimension_text_one_line].
      by apply (bool_decide_unpack _).
    - split; [|done]. apply not_elem_of_app.
      split; [|apply dimension_text_one_line].
      by apply (bool_decide_unpack _).
    - apply Forall_fmap, Forall_true. intros x. apply entry_text_one_line. }
  destruct items as [|x items].
  - exists []. split; [by left|].
    cbn [fmap list_fmap app terminated]. by rewrite !app_nil_r, <-app_assoc.
  - exists ["010"%char]. split; [by right|].
    change (terminated
              ([chars "rows=" ++ dimension_text (num_rows M);
                chars "cols=" ++ dimension_text (num_cols M)]
               ++ (entry_text <$> x :: items)))
      with (((chars "rows=" ++ dimension_text (num_rows M)) ++ ["010"%char])
              :: ((chars "cols=" ++ dimension_text (num_cols M))
                    ++ ["010"%char])
              :: terminated (entry_text <$> x :: items)).
    by rewrite <-!app_assoc.
Qed.

(** X15: a matrix without an integer dimension cannot be read back: when
    [num_rows] or [num_cols] is [None], and the matrix holds no integer of
    more than 4300 digits, [__str__] prints the dimension as [None] and the
    parser rejects the text, the cause being the literal [None]. *)
Theorem str_None_rejected (σ : heap) m M :
  σ !! m = Some M → num_rows M = None ∨ num_cols M = None → printable M →
  ∃ text,
    SparseMatrix.__str__ m σ = (Returned text, σ)
    ∧ ∀ nr nc σ0, ∃ σ1,
        SparseMatrix.__init__ (Some text) nr nc σ0
        = (Raised (WrongFormat (InvalidLiteral (chars "None"))), σ1).
Proof.
  intros Hm Hnone Hprint. exists (serialize M).
  split; [by apply run_str_printable|].
  intros nr nc σ0. rewrite run_init_file.
  assert ((read_file (serialize M) (Build_object nr nc ∅)).1
          = Some (InvalidLiteral (chars "None"))) as Hcause.
  { unfold read_file.
    destruct (readlines_serialize M) as (t & Ht & ->).
    destruct Hprint as (Hrows & _).
    destruct (num_rows M) as [r|] eqn:Hr; [|reflexivity].
    destruct Hnone as [|Hc]; [done|]. rewrite Hc.
    rewrite (read_header_printed _ 0 (chars "rows") r ["010"%char]);
      [|reflexivity|by apply (bool_decide_unpack _)|by repeat constructor
       |done].
    by destruct Ht as [-> | ->]. }
  destruct (read_file _ _) as [e o]. simpl in Hcause. subst e. by eexists.
Qed.

Lemma str_None_rejected_witness :
  ∃ text,
    SparseMatrix.__str__ 1 (<[1%positive := Build_object None (Some 2) ∅]> ∅)
    = (Returned text, <[1%positive := Build_object None (Some 2) ∅]> ∅)
    ∧ ∀ nr nc σ0, ∃ σ1,
        SparseMatrix.__init__ (Some text) nr nc σ0
        = (Raised (WrongFormat (InvalidLiteral (chars "None"))), σ1).
Proof.
  apply (str_None_rejected _ 1%positive (Build_object None (Some 2) ∅));
    [reflexivity|by left|].
  apply (bool_decide_unpack _). by vm_compute.
Defined.

(** X16: the text of [__str__] determines the matrix: two matrices with
    integer dimensions and no integer of more than 4300 digits get the same
    text exactly when they have the same dimensions and the same
    dictionary. *)
Theorem str_injective (σ : heap) m1 m2 M1 M2 :
  σ !! m1 = Some M1 → σ !! m2 = Some M2 →
  is_Some (num_rows M1) → is_Some (num_cols M1) →
  is_Some (num_rows M2) → is_Some (num_cols M2) →
  printable M1 → printable M2 →
  ∃ text1 text2,
    SparseMatrix.__str__ m1 σ = (Returned text1, σ)
    ∧ SparseMatrix.__str__ m2 σ = (Returned text2, σ)
    ∧ (text1 = text2 ↔ M1 = M2).
Proof.
  intros Hm1 Hm2 [r1 Hr1] [c1 Hc1] [r2 Hr2] [c2 Hc2] Hp1 Hp2.
  exists (serialize M1), (serialize M2).
  split; [by apply run_str_printable|]. split; [by apply run_str_printable|].
  split; [|by intros ->]. intros Heq.
  pose proof (read_file_serialize M1 None None r1 c1 Hp1 Hr1 Hc1) as H1.
  pose proof (read_file_serialize M2 None None r2 c2 Hp2 Hr2 Hc2) as H2.
  rewrite Heq in H1. congruence.
Qed.

Lemma printable_matrix_B : printable matrix_B.
Proof. apply (bool_decide_unpack _). by vm_compute. Qed.

Lemma str_injective_witness :
  ∃ text1 text2,
    SparseMatrix.__str__ 1 heap_ABC = (Returned text1, heap_ABC)
    ∧ SparseMatrix.__str__ 2 heap_ABC = (Returned text2, heap_ABC)
    ∧ (text1 = text2 ↔ matrix_A = matrix_B).
Proof.
  apply (str_injective heap_ABC 1%positive 2%positive matrix_A matrix_B);
    try reflexivity; try (by eexists);
    [apply printable_matrix_A|apply printable_matrix_B].
Defined.

Lemma run_func_inv op σ a b A B r σ' :
  σ !! a = Some A → σ !! b = Some B →
  func op a b σ = (Returned r, σ') →
  check op A B ∧ r = fresh (dom σ) ∧ σ' = <[r := result op A B]> σ.
Proof.
  intros Ha Hb Hrun. destruct (decide (check op A B)) as [Hcheck|Hcheck].
  { erewrite run_func in Hrun by done. by injection Hrun as <- <-. }
  exfalso. destruct op; simpl in Hcheck, Hrun.
  - erewrite run_add_mismatch in Hrun; [done..|].
    destruct (dims_equal_or_not A B); tauto.
  - erewrite run_sub_mismatch in Hrun; [done..|].
    destruct (dims_equal_or_not A B); tauto.
  - by erewrite run_mul_mismatch in Hrun.
Qed.

(** X17: what [matrix_operation] relies on: for every operation of the
    table of [main] and operands with integer dimensions, the operator
    returns exactly when the [check] of the table holds.  When its result
    holds no integer of more than 4300 digits, [__str__] gives a text for it
    that the parser reads back into a matrix with the dimensions and the
    dictionary of the result; when it holds one, [__str__] raises the
    [ValueError] of the limit. *)
Theorem result_round_trip (σ : heap) op a b A B :
  σ !! a = Some A → σ !! b = Some B →
  is_Some (num_rows A) → is_Some (num_cols A) → is_Some (num_cols B) →
  (check op A B ↔ ∃ r σ1, func op a b σ = (Returned r, σ1))
  ∧ ∀ r σ1, func op a b σ = (Returned r, σ1) →
      ∃ R,
        σ1 !! r = Some R
        ∧ (printable R →
           ∃ text,
             SparseMatrix.__str__ r σ1 = (Returned text, σ1)
             ∧ ∀ nr nc σ0, ∃ r' σ2,
                 SparseMatrix.__init__ (Some text) nr nc σ0
                 = (Returned r', σ2)
                 ∧ σ2 !! r' = Some R)
        ∧ (¬ printable R →
           SparseMatrix.__str__ r σ1 = (Raised (ExceedsLimit None), σ1)).
Proof.
  intros Ha Hb [ra Hra] [ca Hca] [cb Hcb]. split.
  - split.
    + intros Hcheck. eexists _, _. by apply run_func.
    + intros (r & σ1 & Hrun).
      by destruct (run_func_inv _ _ _ _ _ _ _ _ Ha Hb Hrun).
  - intros r σ1 Hrun.
    destruct (run_func_inv _ _ _ _ _ _ _ _ Ha Hb Hrun) as (_ & -> & ->).
    exists (result op A B). split; [apply lookup_insert_eq|]. split.
    + intros Hprint. exists (serialize (result op A B)).
      split; [by apply run_str_printable; [apply lookup_insert_eq|]|].
      assert (∃ r c, num_rows (result op A B) = Some r
                     ∧ num_cols (result op A B) = Some c)
        as (r & c & Hr & Hc).
      { destruct op; simpl; eauto. }
      intros nr nc σ0. eexists _, _. rewrite run_init_file.
      erewrite read_file_serialize by done.
      split; [done|]. apply lookup_insert_eq.
    + intros Hlong.
      rewrite (run_str _ _ (result op A B)) by apply lookup_insert_eq.
      by rewrite decide_False.
Qed.

Lemma result_round_trip_witness :
  (check multiplication matrix_A matrix_C
   ↔ ∃ r σ1, func multiplication 1%positive 3%positive heap_ABC
             = (Returned r, σ1))
  ∧ ∀ r σ1, func multiplication 1%positive 3%positive heap_ABC
            = (Returned r, σ1) →
      ∃ R,
        σ1 !! r = Some R
        ∧ (printable R →
           ∃ text,
             SparseMatrix.__str__ r σ1 = (Returned text, σ1)
             ∧ ∀ nr nc σ0, ∃ r' σ2,
                 SparseMatrix.__init__ (Some text) nr nc σ0
                 = (Returned r', σ2)
                 ∧ σ2 !! r' = Some R)
        ∧ (¬ printable R →
           SparseMatrix.__str__ r σ1 = (Raised (ExceedsLimit None), σ1)).
Proof.
  apply (result_round_trip heap_ABC multiplication 1%positive 3%positive
           matrix_A matrix_C); try reflexivity; by eexists.
Defined.

Lemma int_decimal_long z :
  ¬ short z →
  builtins.int (builtins.decimal z)
  = inl (ExceedsLimit (Some (builtins.digits z))).
Proof.
  intros Hlong. unfold builtins.int.
  pose proof (strip_with_trailing builtins.int_space (builtins.decimal z) [])
    as Hstrip.
  rewrite app_nil_r in Hstrip.
  rewrite Hstrip by auto using plain_not_int_space, plain_decimal.
  clear Hstrip.
  unfold short, builtins.decimal, builtins.digits in *.
  pose proof (to_int_digits z) as Hd.
  destruct (Z.to_int z) as [d|d].
  - destruct (uint_digits_head d Hd) as (c & t & Hct & Hminus & Hplus).
    rewrite Hct. rewrite decide_False by (by intros [|]).
    rewrite <-Hct.
    rewrite numeral_all, count_digits_all by apply digit_uint_digits.
    rewrite int_unsigned_uint_digits by done.
    by rewrite decide_True by lia.
  - rewrite decide_True by (by left).
    rewrite numeral_all, count_digits_all by apply digit_uint_digits.
    rewrite int_unsigned_uint_digits by done.
    by rewrite decide_True by lia.
Qed.

(** X18: the cause that the format error carries for a bad header: the
    index error of Python when the line is missing or has no [=]; the error
    of [int] when the field is not an integer for it, which is the literal
    that [int] refused or, for a numeral of more than 4300 digits, the
    limit of the conversion.  A field that is the numeral of an integer of
    more than 4300 digits is refused in this second way.  The second header
    line is looked at only when the first is in order. *)
Theorem header_error_cause (text : list ascii) (nr nc : option Z) (σ : heap) :
  let run := SparseMatrix.__init__ (Some text) nr nc σ in
  let lines := file.readlines text in
  ∀ i, (i < 2)%nat →
    (∀ k, (k < i)%nat → ∃ line z, lines !! k = Some line ∧ header_field line z) →
    (lines !! i = None → run.1 = Raised (WrongFormat IndexError))
    ∧ (∀ line, lines !! i = Some line → "="%char ∉ line →
         run.1 = Raised (WrongFormat IndexError))
    ∧ (∀ line field cause, lines !! i = Some line →
         str.split "="%char line !! 1%nat = Some field →
         builtins.int (str.strip field) = inl cause →
         run.1 = Raised (WrongFormat cause)
         ∧ (cause = InvalidLiteral (str.strip field)
            ∨ ∃ n, cause = ExceedsLimit (Some n)
                   ∧ (builtins.max_str_digits < n)%nat))
    ∧ (∀ key z t, lines !! i = Some (key ++ "="%char :: builtins.decimal z ++ t) →
         "="%char ∉ key → Forall (λ c, c = "010"%char) t → ¬ short z →
         run.1
         = Raised (WrongFormat (ExceedsLimit (Some (builtins.digits z))))).
Proof.
  intros run lines i Hi Hbefore.
  assert (∀ cause, header_error lines i cause →
                   run.1 = Raised (WrongFormat cause)) as Hcause.
  { intros cause Herr.
    apply init_file_cause, read_file_Some. cbv zeta. fold lines.
    assert (i = 0 ∨ i = 1)%nat as [-> | ->] by lia; [by left|].
    right. left. split; [|done].
    destruct (Hbefore 0%nat) as (line & r & Hline0 & Hfield); [lia|].
    exists r. apply read_header_inr. by exists line. }
  split_and!.
  - intros Hnone. apply Hcause. unfold header_error. by rewrite Hnone.
  - intros line Hline Hsep. apply Hcause. unfold header_error.
    rewrite Hline. by rewrite split_no_sep.
  - intros line field cause Hline Hfield Hint. split; [|by apply int_inl].
    apply Hcause. unfold header_error. by rewrite Hline, Hfield.
  - intros key z t Hline Hkey Ht Hlong. apply Hcause.
    unfold header_error. rewrite Hline.
    rewrite split_app_sep, split_no_sep; [|rewrite elem_of_app|done].
    + cbn [lookup list_lookup]. unfold str.strip.
      rewrite strip_with_trailing
        by auto using plain_not_isspace, plain_decimal, newlines_isspace.
      by apply int_decimal_long.
    + intros [Hin|Hin].
      * revert Hin.
        apply plain_not_elem_of; [by apply (bool_decide_unpack _)|].
        apply plain_decimal.
      * by eapply Forall_forall in Ht; [|done].
Qed.

Lemma header_error_cause_witness :
  (SparseMatrix.__init__
     (Some (chars "rows=2" ++ "010"%char :: chars "cols=x")) None None ∅).1
  = Raised (WrongFormat (InvalidLiteral (chars "x"))).
Proof.
  assert (∀ k, (k < 1)%nat →
            ∃ line z,
              file.readlines (chars "rows=2" ++ "010"%char :: chars "cols=x")
                !! k = Some line ∧ header_field line z) as Hbefore.
  { intros k Hk. assert (k = 0%nat) as -> by lia.
    exists (chars "rows=2" ++ ["010"%char]), 2. split; [reflexivity|].
    exists (chars "2" ++ ["010"%char]). split; reflexivity. }
  destruct (header_error_cause
              (chars "rows=2" ++ "010"%char :: chars "cols=x") None None ∅
              1%nat ltac:(lia) Hbefore) as (_ & _ & Hfield & _).
  by apply (Hfield (chars "cols=x") (chars "x")).
Defined.

Lemma decimal_nonempty z : builtins.decimal z ≠ [].
Proof.
  unfold builtins.decimal. pose proof (to_int_digits z) as Hd.
  destruct (Z.to_int z) as [d|d]; [|done].
  by destruct (uint_digits_head d Hd) as (c & t & -> & _).
Qed.

Lemma padding_char (P : ascii → Prop) c :
  Forall (λ n, P (ascii_of_N n)) [9; 11; 12; 13; 32; 133; 160]%N →
  N_of_ascii c ∈ [9; 11; 12; 13; 32; 133; 160]%N → P c.
Proof.
  intros HP Hc. eapply Forall_forall in HP; [|done].
  by rewrite ascii_N_embedding in HP.
Qed.

Lemma padding_int_space w :
  padding w → Forall (λ c, builtins.int_space c = true) w.
Proof.
  intros Hw. eapply Forall_impl; [done|]. intros c Hc.
  pattern c. apply padding_char; [|done]. by repeat constructor.
Qed.

Lemma padding_not_bracket w :
  padding w →
  Forall (λ c, bool_decide (c ∈ chars "()" ++ ["010"%char]) = false) w.
Proof.
  intros Hw. eapply Forall_impl; [done|]. intros c Hc.
  pattern c. apply padding_char; [|done]. by repeat constructor.
Qed.

Lemma padding_not_comma w : padding w → ","%char ∉ w.
Proof.
  intros Hw Hin. eapply Forall_forall in Hw; [|done].
  by apply (padding_char (λ c, ","%char ≠ c)) in Hw; [|repeat constructor].
Qed.

Lemma plain_not_bracket s :
  Forall plain s →
  Forall (λ c, bool_decide (c ∈ chars "()" ++ ["010"%char]) = false) s.
Proof. apply plain_Forall, (bool_decide_unpack _). by vm_compute. Qed.

Lemma field_not_comma w z w' :
  padding w → padding w' → ","%char ∉ w ++ builtins.decimal z ++ w'.
Proof.
  intros Hw Hw'. rewrite !not_elem_of_app.
  split_and!; [by apply padding_not_comma| |by apply padding_not_comma].
  apply plain_not_elem_of; [by apply (bool_decide_unpack _)|].
  apply plain_decimal.
Qed.

(** X19: the entry lines that the parser takes: any number of parentheses
    and newlines at either end, and around each of the three integers, of
    at most 4300 digits each, any of the white space that [int] accepts;
    [1,2,3], [((1 , 2, 3))] and [(1, 2, 3)] are read alike. *)
Theorem entry_syntax_lenient (lp rp w1 w2 w3 w4 w5 w6 : list ascii)
    (row col value : Z) :
  brackets lp → brackets rp →
  padding w1 → padding w2 → padding w3 →
  padding w4 → padding w5 → padding w6 →
  short row → short col → short value →
  well_formed_entry
    (lp ++ (w1 ++ builtins.decimal row ++ w2) ++ ","%char
        :: (w3 ++ builtins.decimal col ++ w4) ++ ","%char
        :: (w5 ++ builtins.decimal value ++ w6) ++ rp)
    (row, col, value).
Proof.
  intros Hlp Hrp H1 H2 H3 H4 H5 H6 Hrow Hcol Hvalue. split.
  - intros Hblank%strip_with_nil.
    apply Forall_app in Hblank as [_ Hblank].
    apply Forall_app in Hblank as [Hblank _].
    apply Forall_app in Hblank as [_ Hblank].
    apply Forall_app in Hblank as [Hblank _].
    pose proof (plain_not_isspace _ (plain_decimal row)) as Hplain.
    pose proof (decimal_nonempty row) as Hne.
    destruct (builtins.decimal row) as [|ch t]; [done|].
    apply Forall_cons in Hblank as [? _]. apply Forall_cons in Hplain as [? _].
    congruence.
  - set (f1 := w1 ++ builtins.decimal row ++ w2).
    set (f2 := w3 ++ builtins.decimal col ++ w4).
    set (f3 := w5 ++ builtins.decimal value ++ w6).
    assert (lp ++ f1 ++ ","%char :: f2 ++ ","%char :: f3 ++ rp
            = lp ++ (f1 ++ ","%char :: f2 ++ ","%char :: f3) ++ rp) as ->.
    { do 3 (rewrite <-?app_assoc; cbn [app]). done. }
    unfold str.strip_chars. rewrite strip_with_framed; [|done..|].
    + rewrite split_app_sep, split_app_sep, split_no_sep
        by (by apply field_not_comma).
      cbn [builtins.unpack3]. unfold f1, f2, f3.
      rewrite !int_decimal by (done || by apply padding_int_space).
      done.
    + unfold f1, f2, f3.
      repeat first [apply Forall_app; split | apply Forall_cons; split];
        auto using padding_not_bracket, plain_not_bracket, plain_decimal.
Qed.

Lemma entry_syntax_lenient_witness :
  well_formed_entry (chars "((1 , 2,  -3))" ++ ["010"%char]) (1, 2, -3).
Proof.
  apply (entry_syntax_lenient (chars "((") (chars "))" ++ ["010"%char])
           [] (chars " ") (chars " ") [] (chars "  ") [] 1 2 (-3));
    apply (bool_decide_unpack _); by vm_compute.
Defined.

(** * The program *)

(** ** Running a program *)

Section io_monad.
Context {A B : Type}.
Implicit Types (m : IO A) (f : A → IO B) (w : world).

Lemma io_bind m f w a w' :
  m w = (inr a, w') → (m ≫= f) w = f a w'.
Proof. unfold mbind, IO_bind. by intros ->. Qed.

Lemma io_bind_stop m f w s w' :
  m w = (inl s, w') → (m ≫= f) w = (inl s, w').
Proof. unfold mbind, IO_bind. by intros ->. Qed.

Lemma io_bind_inv m f w res w' :
  (m ≫= f) w = (res, w') →
  (∃ s, m w = (inl s, w') ∧ res = inl s)
  ∨ (∃ a w1, m w = (inr a, w1) ∧ f a w1 = (res, w')).
Proof.
  unfold mbind, IO_bind. destruct (m w) as [[s|a] w1].
  - intros [= <- <-]. left. by exists s.
  - intros Hf. right. by exists a, w1.
Qed.
End io_monad.

Lemma set_memory_id w : set_memory w (memory w) = w.
Proof. by destruct w. Qed.

#[global] Instance quiet_preorder : PreOrder quiet.
Proof.
  split.
  - intros w. split; [done|]. by rewrite set_memory_id.
  - intros w1 w2 w3 [Hm12 ->] [Hm23 ->]. split; [by etrans|done].
Qed.

Section keeps.
Context (R : relation world) `{!PreOrder R}.

Lemma keeps_ret {A} (a : A) : keeps R (mret a).
Proof. intros w res w' [= <- <-]. done. Qed.

Lemma keeps_stop {A} (s : signal) : keeps R (stop s : IO A).
Proof. intros w res w' [= <- <-]. done. Qed.

Lemma keeps_run_exc {A} (r : exception + A) : keeps R (run_exc r).
Proof. destruct r; [apply keeps_stop|apply keeps_ret]. Qed.

Lemma keeps_bind {A B} (m : IO A) (f : A → IO B) :
  keeps R m → (∀ a, keeps R (f a)) → keeps R (m ≫= f).
Proof.
  intros Hm Hf w res w' Hrun.
  apply io_bind_inv in Hrun as [(s & Hrun & _)|(a & w1 & Hrun & Hrest)].
  - by eapply Hm.
  - etrans; [by eapply Hm|by eapply Hf].
Qed.

Lemma keeps_for_in {X S} (xs : list X) (s : S) (body : S → X → IO S) :
  (∀ s x, keeps R (body s x)) → keeps R (for_in xs s body).
Proof.
  intros Hbody. revert s. induction xs as [|x xs IH]; intros s.
  - apply keeps_ret.
  - apply keeps_bind; [apply Hbody|]. intros s'. apply IH.
Qed.

Lemma keeps_except {A} (m : IO A) (h : exception → IO A) :
  keeps R m → (∀ e, keeps R (h e)) → keeps R (except_ValueError m h).
Proof.
  intros Hm Hh w res w' Hrun. unfold except_ValueError in Hrun.
  destruct (m w) as [[[e| |]|a] w1] eqn:Hmw;
    try (injection Hrun as <- <-; by eapply Hm).
  destruct (is_ValueError e).
  - etrans; [by eapply Hm|by eapply Hh].
  - injection Hrun as <- <-. by eapply Hm.
Qed.
End keeps.

Lemma keeps_weaken {A} (R1 R2 : relation world) (m : IO A) :
  (∀ w w', R1 w w' → R2 w w') → keeps R1 m → keeps R2 m.
Proof. intros HR Hm w res w' Hrun. by eapply HR, Hm. Qed.

(** ** The steps of the program *)

Lemma keeps_run_py {A} (m : Py A) :
  (∀ σ res σ', m σ = (res, σ') → σ ⊆ σ') → keeps quiet (run_py m).
Proof.
  intros Hm w res w' Hrun. unfold run_py in Hrun.
  destruct (m (memory w)) as [[a|e] σ'] eqn:Hmw; injection Hrun as <- <-;
    (split; [by eapply Hm|done]).
Qed.

Lemma heap_alloc_subseteq (σ : heap) o : σ ⊆ <[fresh (dom σ) := o]> σ.
Proof. apply insert_subseteq, fresh_unused. Qed.

Lemma init_file_grows text nr nc σ res σ' :
  SparseMatrix.__init__ (Some text) nr nc σ = (res, σ') → σ ⊆ σ'.
Proof.
  rewrite run_init_file. destruct (read_file text _).1;
    intros [= <- <-]; apply heap_alloc_subseteq.
Qed.

Lemma read_grows l σ res σ' : read l σ = (res, σ') → σ ⊆ σ'.
Proof. unfold read. by destruct (σ !! l); intros [= <- <-]. Qed.

Lemma str_grows l σ res σ' : SparseMatrix.__str__ l σ = (res, σ') → σ ⊆ σ'.
Proof.
  destruct (σ !! l) as [M|] eqn:Hl.
  - rewrite (run_str σ l M Hl). by case_decide; intros [= <- <-].
  - unfold SparseMatrix.__str__, mbind, Py_bind, read. rewrite Hl.
    by intros [= <- <-].
Qed.

Lemma func_grows op a b σ res σ' : func op a b σ = (res, σ') → σ ⊆ σ'.
Proof.
  destruct (σ !! a) as [A|] eqn:Ha; last first.
  { destruct op; simpl;
      unfold SparseMatrix.__add__, SparseMatrix.__sub__, SparseMatrix.__mul__;
      (erewrite run_bind_raised by (unfold read; by rewrite Ha));
      by intros [= <- <-]. }
  destruct (σ !! b) as [B|] eqn:Hb; last first.
  { destruct op; simpl;
      unfold SparseMatrix.__add__, SparseMatrix.__sub__, SparseMatrix.__mul__;
      (erewrite run_bind by (by apply run_read));
      (erewrite run_bind_raised by (unfold read; by rewrite Hb));
      by intros [= <- <-]. }
  destruct (decide (check op A B)) as [Hcheck|Hcheck].
  { erewrite run_func by done. intros [= <- <-]. apply heap_alloc_subseteq. }
  destruct op; simpl in Hcheck |- *.
  - erewrite run_add_mismatch; [by intros [= <- <-]|done..|].
    destruct (dims_equal_or_not A B); tauto.
  - erewrite run_sub_mismatch; [by intros [= <- <-]|done..|].
    destruct (dims_equal_or_not A B); tauto.
  - erewrite run_mul_mismatch by done. by intros [= <- <-].
Qed.

Lemma quiet_load f : keeps quiet (load f).
Proof.
  intros w res w' Hrun. unfold load in Hrun.
  eapply keeps_run_py; [|done]. apply init_file_grows.
Qed.

Lemma quiet_dimension_check op m1 m2 : keeps quiet (dimension_check op m1 m2).
Proof.
  unfold dimension_check.
  apply keeps_bind; [apply _|apply keeps_run_py, read_grows|]. intros a.
  apply keeps_bind; [apply _|apply keeps_run_py, read_grows|]. intros b.
  apply keeps_ret, _.
Qed.


(** ** The frame of the program *)

Lemma frame_refl o w : frame o 0 w w.
Proof. split_and!; [done|by exists 0%nat|done|by left|done..]. Qed.

Lemma frame_trans o n k w1 w2 w3 :
  frame o n w1 w2 → frame o k w2 w3 → frame o (n + k) w1 w3.
Proof.
  intros (Hm1 & (k1 & Hk1 & Hi1) & Ho1 & Hf1 & Hd1 & He1 & Hl1 & Ht1)
         (Hm2 & (k2 & Hk2 & Hi2) & Ho2 & Hf2 & Hd2 & He2 & Hl2 & Ht2).
  split_and!; [by etrans| |by etrans| |congruence..].
  - exists (k1 + k2)%nat. split; [lia|]. by rewrite Hi2, Hi1, drop_drop.
  - destruct Hf2 as [->|(op & text2 & -> & ->)]; [done|].
    right. exists op, text2. split; [done|].
    destruct Hf1 as [->|(op' & text1 & [= <-] & ->)]; [done|].
    by rewrite insert_insert_eq.
Qed.

Lemma frame_mono o n k w w' : (n ≤ k)%nat → frame o n w w' → frame o k w w'.
Proof.
  intros Hnk (Hm & (j & Hj & Hi) & Hrest). split_and!; [done| |apply Hrest..].
  exists j. split; [lia|done].
Qed.

Lemma frame_allowed op n w w' : frame None n w w' → frame (Some op) n w w'.
Proof.
  intros (Hm & Hi & Ho & [Hf|(op' & text & [=] & _)] & Hrest).
  split_and!; [done|done|done|by left|apply Hrest..].
Qed.

Lemma frame_None_output n w w' : frame None n w w' → output w' = output w.
Proof. by intros (_ & _ & _ & [Hf|(op' & text & [=] & _)] & _). Qed.

#[global] Instance frame_preorder o : PreOrder (frame o 0).
Proof.
  split; [intros w; apply frame_refl|].
  intros w1 w2 w3 H12 H23. by apply (frame_trans o 0 0 w1 w2 w3).
Qed.

Lemma quiet_frame o w w' : quiet w w' → frame o 0 w w'.
Proof.
  intros [Hm ->]. split_and!; [done|by exists 0%nat|done|by left|done..].
Qed.

Lemma keeps_quiet_frame {A} o n (m : IO A) :
  keeps quiet m → keeps (frame o n) m.
Proof.
  apply keeps_weaken. intros w w' Hq.
  apply (frame_mono o 0); [lia|by apply quiet_frame].
Qed.

Lemma keeps_frame_mono {A} o n k (m : IO A) :
  (n ≤ k)%nat → keeps (frame o n) m → keeps (frame o k) m.
Proof. intros Hnk. apply keeps_weaken. intros w w'. by apply frame_mono. Qed.

Lemma keeps_frame_bind {A B} o n k (m : IO A) (f : A → IO B) :
  keeps (frame o n) m → (∀ a, keeps (frame o k) (f a)) →
  keeps (frame o (n + k)) (m ≫= f).
Proof.
  intros Hm Hf w res w' Hrun.
  apply io_bind_inv in Hrun as [(s & Hrun & _)|(a & w1 & Hrun & Hrest)].
  - eapply frame_mono; [|by eapply Hm]. lia.
  - eapply frame_trans; [by eapply Hm|by eapply Hf].
Qed.

Lemma keeps_frame_except {A} o n k (m : IO A) (h : exception → IO A) :
  keeps (frame o n) m → (∀ e, keeps (frame o k) (h e)) →
  keeps (frame o (n + k)) (except_ValueError m h).
Proof.
  intros Hm Hh w res w' Hrun. unfold except_ValueError in Hrun.
  destruct (m w) as [[[e| |]|a] w1] eqn:Hmw;
    try (injection Hrun as <- <-; eapply frame_mono; [|by eapply Hm]; lia).
  destruct (is_ValueError e).
  - eapply frame_trans; [by eapply Hm|by eapply Hh].
  - injection Hrun as <- <-. eapply frame_mono; [|by eapply Hm]. lia.
Qed.

Lemma frame_print o s : keeps (frame o 0) (print s).
Proof.
  intros w res w' [= <- <-].
  split_and!; [done|by exists 0%nat|by apply prefix_app_r|by left|done..].
Qed.

Lemma frame_input o prompt : keeps (frame o 1) (input prompt).
Proof.
  intros w res w' Hrun. unfold input in Hrun.
  destruct (stdin w) as [|line lines] eqn:Hin; injection Hrun as <- <-.
  - split_and!; [done| |by apply prefix_app_r|by left|done..].
    exists 0%nat. split; [lia|done].
  - split_and!; [done| |by apply prefix_app_r|by left|done..].
    exists 1%nat. split; [lia|]. simpl. by rewrite Hin.
Qed.

Lemma frame_write_file op text :
  keeps (frame (Some op) 0) (write_file (result_file op) text).
Proof.
  intros w res w' [= <- <-].
  split_and!; [done|by exists 0%nat|done|right; by exists op, text|done..].
Qed.

Lemma frame_select o count : keeps (frame o 2) (select count).
Proof.
  unfold select. apply (keeps_frame_except o 2 0).
  - apply (keeps_frame_bind o 1 1); [apply frame_input|]. intros line1.
    apply (keeps_frame_bind o 0 1); [apply keeps_run_exc, _|]. intros n1.
    apply (keeps_frame_bind o 1 0); [apply frame_input|]. intros line2.
    apply keeps_bind; [apply _|apply keeps_run_exc, _|]. intros n2.
    case_decide.
    + apply keeps_bind; [apply _|apply frame_print|]. intros _.
      apply keeps_ret, _.
    + apply keeps_ret, _.
  - intros e. apply keeps_bind; [apply _|apply frame_print|]. intros _.
    apply keeps_ret, _.
Qed.

Lemma quiet_find_compatible_pairs op files :
  keeps quiet (find_compatible_pairs op files).
Proof.
  apply keeps_for_in; [apply _|]. intros pairs [i file1].
  apply keeps_bind; [apply _|apply quiet_load|].
  intros matrix1. apply keeps_for_in; [apply _|]. intros pairs' [j file2].
  case_decide; [|apply keeps_ret, _].
  apply keeps_bind; [apply _|apply quiet_load|]. intros matrix2.
  apply keeps_bind; [apply _|apply quiet_dimension_check|].
  intros []; apply keeps_ret, _.
Qed.

Lemma frame_display o op files pairs :
  keeps (frame o 0) (display op files pairs).
Proof.
  apply keeps_bind; [apply _|apply frame_print|]. intros _.
  apply keeps_bind; [apply _|apply frame_print|]. intros _.
  apply keeps_for_in; [apply _|]. intros _ [i file]. apply frame_print.
Qed.

Lemma frame_operate op files choice1 choice2 :
  keeps (frame (Some op) 0) (operate op files choice1 choice2).
Proof.
  apply keeps_bind; [apply _|apply keeps_run_exc, _|]. intros file1.
  apply keeps_bind; [apply _|apply keeps_quiet_frame, quiet_load|].
  intros matrix1.
  apply keeps_bind; [apply _|apply keeps_run_exc, _|]. intros file2.
  apply keeps_bind; [apply _|apply keeps_quiet_frame, quiet_load|].
  intros matrix2.
  apply keeps_bind; [apply _|apply keeps_quiet_frame, quiet_dimension_check|].
  intros compatible. destruct (negb compatible); [apply frame_print|].
  apply keeps_except; [apply _| |intros e; apply frame_print].
  apply keeps_bind;
    [apply _|apply keeps_quiet_frame, keeps_run_py, func_grows|].
  intros result.
  apply keeps_bind; [apply _|apply frame_print|]. intros _.
  apply keeps_bind;
    [apply _|apply keeps_quiet_frame, keeps_run_py, str_grows|].
  intros text.
  apply keeps_bind; [apply _|apply frame_print|]. intros _.
  apply keeps_bind;
    [apply _|apply keeps_quiet_frame, keeps_run_py, str_grows|].
  intros text'. apply frame_write_file.
Qed.

Lemma frame_matrix_operation op :
  keeps (frame (Some op) 2) (matrix_operation op).
Proof.
  unfold matrix_operation.
  apply (keeps_frame_bind (Some op) 0 2).
  { intros w res w' [= <- <-]. apply frame_refl. }
  intros files. case_decide.
  { apply (keeps_frame_mono (Some op) 0); [lia|apply frame_print]. }
  apply (keeps_frame_bind (Some op) 0 2);
    [apply keeps_quiet_frame, quiet_find_compatible_pairs|].
  intros pairs.
  apply (keeps_frame_bind (Some op) 0 2); [apply frame_display|]. intros _.
  apply (keeps_frame_bind (Some op) 2 0); [apply frame_select|].
  intros [[choice1 choice2]|]; [apply frame_operate|apply keeps_ret, _].
Qed.

(** ** Runs of the steps *)

Lemma run_load w f M :
  parse (texts w f) = inr M →
  load f w = (inr (fresh (dom (memory w))),
              set_memory w (<[fresh (dom (memory w)) := M]> (memory w))).
Proof.
  unfold parse, load, run_py. rewrite run_init_file.
  destruct (read_file (texts w f) _) as [[e|] o]; simpl; [done|].
  by intros [= ->].
Qed.

Lemma run_load_raised w f e :
  parse (texts w f) = inl e →
  ∃ σ', load f w = (inl (Error e), set_memory w σ') ∧ memory w ⊆ σ'.
Proof.
  unfold parse, load, run_py. rewrite run_init_file.
  destruct (read_file (texts w f) _) as [[e'|] o]; simpl; [|done].
  intros [= <-]. eexists. split; [done|apply heap_alloc_subseteq].
Qed.

Lemma run_dimension_check op w m1 m2 A B :
  memory w !! m1 = Some A → memory w !! m2 = Some B →
  dimension_check op m1 m2 w = (inr (bool_decide (check op A B)), w).
Proof.
  intros H1 H2. unfold dimension_check.
  erewrite io_bind; last first.
  { unfold run_py. by rewrite (run_read _ _ _ H1), set_memory_id. }
  erewrite io_bind; last first.
  { unfold run_py. by rewrite (run_read _ _ _ H2), set_memory_id. }
  done.
Qed.

Lemma except_returns {A} (m : IO A) h w a w' :
  m w = (inr a, w') → except_ValueError m h w = (inr a, w').
Proof. unfold except_ValueError. by intros ->. Qed.

Lemma except_caught {A} (m : IO A) h w e w' :
  m w = (inl (Error e), w') → is_ValueError e = true →
  except_ValueError m h w = h e w'.
Proof. unfold except_ValueError. by intros -> ->. Qed.

Lemma set_memory_set_memory w σ1 σ2 :
  set_memory (set_memory w σ1) σ2 = set_memory w σ2.
Proof. done. Qed.

Lemma quiet_texts w w' : quiet w w' → texts w' = texts w.
Proof. by intros [_ ->]. Qed.

(** ** The loops of [find_compatible_pairs] *)

Lemma inner_loop_returns op i matrix1 A (ixs : list (nat * list ascii)) :
  ∀ pairs w,
  memory w !! matrix1 = Some A →
  Forall (λ x, ∃ M, parse (texts w x.2) = inr M) ixs →
  ∃ pairs' w',
    for_in ixs pairs
      (λ (pairs : list (nat * nat)) '(j, file2),
         if decide (i ≠ j) then
           matrix2 ← load file2;
           compatible ← dimension_check op matrix1 matrix2;
           if compatible : bool then mret (pairs ++ [(i, j)]) else mret pairs
         else (mret pairs : IO (list (nat * nat)))) w
    = (inr pairs', w')
    ∧ quiet w w'.
Proof.
  induction ixs as [|[j file2] ixs IH]; intros pairs w Hm1 Hixs.
  { exists pairs, w. split; [done|reflexivity]. }
  apply Forall_cons in Hixs as [[M HM] Hixs]. cbn [for_in].
  destruct (decide (i ≠ j)) as [Hij|Hij].
  - set (w1 := set_memory w (<[fresh (dom (memory w)) := M]> (memory w))).
    assert (quiet w w1) as Hq1.
    { split; [apply heap_alloc_subseteq|done]. }
    destruct (IH (if bool_decide (check op A M) then pairs ++ [(i, j)]
                  else pairs) w1) as (pairs' & w' & Hrun & Hq).
    { by apply lookup_alloc. }
    { done. }
    exists pairs', w'. split; [|by etrans].
    erewrite io_bind; [exact Hrun|].
    erewrite io_bind by (by apply run_load).
    erewrite io_bind.
    2:{ apply (run_dimension_check op w1 _ _ A M);
          [by apply lookup_alloc|apply lookup_insert_eq]. }
    by destruct (bool_decide _).
  - destruct (IH pairs w) as (pairs' & w' & Hrun & Hq); [done..|].
    exists pairs', w'. split; [|done].
    erewrite io_bind; [exact Hrun|done].
Qed.

Lemma inner_loop_raises op i matrix1 A (pre : list (nat * list ascii))
    j f post e :
  ∀ pairs w,
  memory w !! matrix1 = Some A →
  Forall (λ x, ∃ M, parse (texts w x.2) = inr M) pre →
  i ≠ j → parse (texts w f) = inl e →
  ∃ w',
    for_in (pre ++ (j, f) :: post) pairs
      (λ (pairs : list (nat * nat)) '(j, file2),
         if decide (i ≠ j) then
           matrix2 ← load file2;
           compatible ← dimension_check op matrix1 matrix2;
           if compatible : bool then mret (pairs ++ [(i, j)]) else mret pairs
         else (mret pairs : IO (list (nat * nat)))) w
    = (inl (Error e), w')
    ∧ quiet w w'.
Proof.
  induction pre as [|[k g] pre IH]; intros pairs w Hm1 Hpre Hij Hf.
  { destruct (run_load_raised w f e) as (σ' & Hload & Hσ'); [done|].
    exists (set_memory w σ'). split; [|by split].
    cbn [app for_in]. rewrite decide_True by done.
    erewrite io_bind_stop; [done|]. by erewrite io_bind_stop. }
  apply Forall_cons in Hpre as [[M HM] Hpre]. cbn [app for_in].
  destruct (decide (i ≠ k)) as [Hik|Hik].
  - set (w1 := set_memory w (<[fresh (dom (memory w)) := M]> (memory w))).
    assert (quiet w w1) as Hq1.
    { split; [apply heap_alloc_subseteq|done]. }
    destruct (IH (if bool_decide (check op A M) then pairs ++ [(i, k)]
                  else pairs) w1) as (w' & Hrun & Hq); [|done..|].
    { by apply lookup_alloc. }
    exists w'. split; [|by etrans].
    erewrite io_bind; [exact Hrun|].
    erewrite io_bind by (by apply run_load).
    erewrite io_bind.
    2:{ apply (run_dimension_check op w1 _ _ A M);
          [by apply lookup_alloc|apply lookup_insert_eq]. }
    by destruct (bool_decide _).
  - destruct (IH pairs w) as (w' & Hrun & Hq); [done..|].
    exists w'. split; [|done].
    erewrite io_bind; [exact Hrun|done].
Qed.

Lemma Forall_enumerate {X} (P : X → Prop) (xs : list X) :
  Forall P xs → Forall (λ x, P x.2) (enumerate xs).
Proof.
  unfold enumerate. intros Hxs. apply Forall_forall. intros [i x] Hix.
  apply elem_of_lookup_imap in Hix as (i' & x' & [= -> ->] & Hx).
  rewrite Forall_forall in Hxs. eapply Hxs, list_elem_of_lookup_2, Hx.
Qed.

Lemma enumerate_app {X} (xs : list X) x ys :
  ∃ post,
    enumerate (xs ++ x :: ys) = enumerate xs ++ (length xs, x) :: post.
Proof.
  unfold enumerate. rewrite imap_app. cbn [imap]. rewrite Nat.add_0_r.
  by eexists.
Qed.

Lemma outer_loop_returns op files (ixs : list (nat * list ascii)) :
  ∀ pairs w,
  Forall (λ f, ∃ M, parse (texts w f) = inr M) files →
  Forall (λ x, ∃ M, parse (texts w x.2) = inr M) ixs →
  ∃ pairs' w',
    for_in ixs pairs
      (λ (pairs : list (nat * nat)) '(i, file1),
         matrix1 ← load file1;
         for_in (enumerate files) pairs
           (λ (pairs : list (nat * nat)) '(j, file2),
              if decide (i ≠ j) then
                matrix2 ← load file2;
                compatible ← dimension_check op matrix1 matrix2;
                if compatible : bool then mret (pairs ++ [(i, j)])
                else mret pairs
              else (mret pairs : IO (list (nat * nat))))) w
    = (inr pairs', w')
    ∧ quiet w w'.
Proof.
  induction ixs as [|[i file1] ixs IH]; intros pairs w Hfiles Hixs.
  { exists pairs, w. split; [done|reflexivity]. }
  apply Forall_cons in Hixs as [[M HM] Hixs]. cbn [for_in].
  set (w1 := set_memory w (<[fresh (dom (memory w)) := M]> (memory w))).
  destruct (inner_loop_returns op i (fresh (dom (memory w))) M
              (enumerate files) pairs w1) as (pairs1 & w2 & Hinner & Hq2).
  { apply lookup_insert_eq. }
  { by apply (Forall_enumerate (λ f, ∃ M, parse (texts w f) = inr M)). }
  assert (quiet w w2) as Hq.
  { etrans; [|done]. split; [apply heap_alloc_subseteq|done]. }
  destruct (IH pairs1 w2) as (pairs' & w' & Hrun & Hq').
  { by rewrite (quiet_texts w w2). }
  { by rewrite (quiet_texts w w2). }
  exists pairs', w'. split; [|by etrans].
  erewrite io_bind; [exact Hrun|].
  erewrite io_bind by (by apply run_load). exact Hinner.
Qed.

Lemma find_compatible_pairs_returns op files w :
  Forall (λ f, ∃ M, parse (texts w f) = inr M) files →
  ∃ pairs w', find_compatible_pairs op files w = (inr pairs, w') ∧ quiet w w'.
Proof.
  intros Hfiles. apply outer_loop_returns; [done|].
  by apply (Forall_enumerate (λ f, ∃ M, parse (texts w f) = inr M)).
Qed.

Lemma find_compatible_pairs_raises op good f rest e w :
  Forall (λ f, ∃ M, parse (texts w f) = inr M) good →
  parse (texts w f) = inl e →
  ∃ w',
    find_compatible_pairs op (good ++ f :: rest) w = (inl (Error e), w')
    ∧ quiet w w'.
Proof.
  intros Hgood Hf. unfold find_compatible_pairs.
  destruct good as [|g good].
  { destruct (run_load_raised w f e) as (σ' & Hload & Hσ'); [done|].
    exists (set_memory w σ'). split; [|by split].
    cbn [app enumerate imap for_in].
    erewrite io_bind_stop; [done|]. by erewrite io_bind_stop. }
  pose proof Hgood as Hgood'.
  apply Forall_cons in Hgood' as [[M HM] _].
  destruct (enumerate_app (g :: good) f rest) as [post Hpost].
  set (w1 := set_memory w (<[fresh (dom (memory w)) := M]> (memory w))).
  destruct (inner_loop_raises op 0%nat (fresh (dom (memory w))) M
              (enumerate (g :: good)) (length (g :: good)) f post e [] w1)
    as (w' & Hinner & Hq).
  { apply lookup_insert_eq. }
  { by apply (Forall_enumerate (λ f, ∃ M, parse (texts w f) = inr M)). }
  { done. }
  { done. }
  exists w'. split.
  - change (enumerate ((g :: good) ++ f :: rest))
      with ((0%nat, g) :: imap ((λ i x, (i, x)) ∘ S) (good ++ f :: rest)) at 1.
    cbn [for_in]. erewrite io_bind_stop; [done|].
    erewrite io_bind by (by apply run_load). rewrite Hpost. exact Hinner.
  - etrans; [|done]. split; [apply heap_alloc_subseteq|done].
Qed.
(** ** What is printed, what is read *)

Ltac world_simpl :=
  unfold set_memory, set_stdin, set_stdout, set_output;
  cbn [memory input_dir input_dir_exists listing texts stdin stdout output].

Ltac same_text :=
  repeat (rewrite <-(assoc_L (++)) || rewrite <-app_comm_cons); reflexivity.

Lemma set_stdout_set_stdout w a b :
  set_stdout (set_stdout w a) b = set_stdout w b.
Proof. done. Qed.

Lemma run_print_loop {X} (xs : list X) (body : unit → X → IO unit) :
  (∀ s x w, ∃ text, body s x w = print text w) →
  ∀ w, ∃ shown,
    for_in xs () body w = (inr (), set_stdout w (stdout w ++ shown)).
Proof.
  intros Hbody. induction xs as [|x xs IH]; intros w.
  { exists []. rewrite app_nil_r. by destruct w. }
  destruct (Hbody () x w) as [text Htext].
  destruct (IH (set_stdout w (stdout w ++ text ++ ["010"%char])))
    as [shown Hshown].
  exists ((text ++ ["010"%char]) ++ shown). cbn [for_in].
  erewrite io_bind by (by rewrite Htext).
  rewrite Hshown. cbn [stdout set_stdout]. by rewrite <-(assoc_L (++)).
Qed.

Lemma run_display op files pairs w :
  ∃ shown,
    display op files pairs w = (inr (), set_stdout w (stdout w ++ shown)).
Proof.
  unfold display.
  erewrite io_bind by done. erewrite io_bind by done.
  edestruct (run_print_loop (enumerate files)) as [shown ->].
  { intros _ [i file] w'. by eexists. }
  eexists. cbn [stdout set_stdout]. by rewrite <-!(assoc_L (++)).
Qed.

(** The two prompts. *)
Lemma run_select count w line1 line2 rest n1 n2 :
  stdin w = line1 :: line2 :: rest →
  builtins.int line1 = inr n1 → builtins.int line2 = inr n2 →
  select count w
  = if decide (n1 - 1 < 0 ∨ Z.of_nat count ≤ n1 - 1
               ∨ n2 - 1 < 0 ∨ Z.of_nat count ≤ n2 - 1)
    then (inr None,
          set_stdin
            (set_stdout w
               (stdout w ++ chars "Select first matrix (by number): "
                  ++ chars "Select second matrix (by number): "
                  ++ chars "Invalid selection. Please choose a number from the list."
                  ++ ["010"%char]))
            rest)
    else (inr (Some (n1 - 1, n2 - 1)),
          set_stdin
            (set_stdout w
               (stdout w ++ chars "Select first matrix (by number): "
                  ++ chars "Select second matrix (by number): "))
            rest).
Proof.
  intros Hin H1 H2. unfold select.
  destruct w as [σ dir ex ls tx inp out files]. simpl in Hin. subst inp.
  case_decide as Hrange.
  - apply except_returns.
    erewrite io_bind by done. rewrite H1. erewrite io_bind by done.
    erewrite io_bind by done. rewrite H2. erewrite io_bind by done.
    rewrite decide_True by done. erewrite io_bind by done.
    unfold mret, IO_ret, set_stdin, set_stdout. simpl.
    by rewrite <-!(assoc_L (++)).
  - apply except_returns.
    erewrite io_bind by done. rewrite H1. erewrite io_bind by done.
    erewrite io_bind by done. rewrite H2. erewrite io_bind by done.
    rewrite decide_False by done.
    unfold mret, IO_ret, set_stdin, set_stdout. simpl.
    by rewrite <-!(assoc_L (++)).
Qed.

Lemma int_error s e : builtins.int s = inl e → is_ValueError e = true.
Proof. by intros [-> | (n & -> & _)]%int_inl. Qed.

Lemma run_select_refused count w line1 rest e :
  stdin w = line1 :: rest →
  builtins.int line1 = inl e
  ∨ (∃ n1 line2 rest', builtins.int line1 = inr n1 ∧ rest = line2 :: rest'
                        ∧ builtins.int line2 = inl e) →
  ∃ shown lines,
    select count w
    = (inr None,
       set_stdin
         (set_stdout w
            (stdout w ++ shown
               ++ chars "Invalid input. Please enter a number."
               ++ ["010"%char]))
         lines)
    ∧ (builtins.int line1 = inl e → lines = rest)
    ∧ (∀ n1, builtins.int line1 = inr n1 → lines = tail rest).
Proof.
  intros Hin Hbad. unfold select.
  destruct w as [σ dir ex ls tx inp out files]. simpl in Hin. subst inp.
  destruct Hbad as [H1|(n1 & line2 & rest' & H1 & -> & H2)].
  - exists (chars "Select first matrix (by number): "), rest.
    split; [|split; [done|congruence]].
    erewrite except_caught; [|by erewrite io_bind by done; rewrite H1|];
      last by rewrite (int_error _ _ H1).
    erewrite io_bind by done.
    unfold mret, IO_ret, set_stdin, set_stdout. simpl.
    by rewrite <-!(assoc_L (++)).
  - exists (chars "Select first matrix (by number): "
              ++ chars "Select second matrix (by number): "), rest'.
    split; [|split; [congruence|done]].
    erewrite except_caught.
    2:{ erewrite io_bind by done. rewrite H1. erewrite io_bind by done.
        erewrite io_bind by done. by rewrite H2. }
    2:{ by rewrite (int_error _ _ H2). }
    erewrite io_bind by done.
    unfold mret, IO_ret, set_stdin, set_stdout. simpl.
    by rewrite <-!(assoc_L (++)).
Qed.

Lemma run_operate op files c1 c2 f1 f2 M1 M2 w :
  files !! Z.to_nat c1 = Some f1 → files !! Z.to_nat c2 = Some f2 →
  parse (texts w f1) = inr M1 → parse (texts w f2) = inr M2 →
  ∃ σ', memory w ⊆ σ'
    ∧ operate op files c1 c2 w
      = (inr (),
         if decide (check op M1 M2) then
           if decide (printable (result op M1 M2)) then
             set_output
               (set_stdout (set_memory w σ')
                  (stdout w ++ "010"%char :: capitalize (chars (name op))
                     ++ chars " Result:" ++ "010"%char
                     :: serialize (result op M1 M2) ++ ["010"%char]))
               (<[result_file op := serialize (result op M1 M2)]> (output w))
           else
             set_stdout (set_memory w σ')
               (stdout w ++ "010"%char :: capitalize (chars (name op))
                  ++ chars " Result:" ++ "010"%char
                  :: capitalize (chars (name op)) ++ chars " Error: "
                  ++ message (ExceedsLimit None) ++ ["010"%char])
         else
           set_stdout (set_memory w σ')
             (stdout w ++ capitalize (chars (name op))
                ++ chars " Error: Matrices dimensions do not match"
                ++ ["010"%char])).
Proof.
  intros Hf1 Hf2 HM1 HM2. unfold operate, builtins.getitem.
  rewrite Hf1, Hf2.
  set (m1 := fresh (dom (memory w))).
  set (σ1 := <[m1 := M1]> (memory w)).
  set (m2 := fresh (dom σ1)).
  set (σ2 := <[m2 := M2]> σ1).
  assert (σ2 !! m1 = Some M1) as Hm1 by apply lookup_alloc, lookup_insert_eq.
  assert (σ2 !! m2 = Some M2) as Hm2 by apply lookup_insert_eq.
  assert (memory w ⊆ σ2) as Hσ2.
  { etrans; apply heap_alloc_subseteq. }
  erewrite io_bind by done.
  erewrite io_bind by (by apply run_load).
  erewrite io_bind by done.
  erewrite io_bind by (by apply run_load).
  erewrite io_bind
    by (by apply (run_dimension_check op (set_memory w σ2) m1 m2 M1 M2)).
  case_decide as Hcheck.
  - rewrite bool_decide_eq_true_2 by done. cbn [negb].
    set (r := fresh (dom σ2)).
    set (σ3 := <[r := result op M1 M2]> σ2).
    exists σ3. split; [etrans; [done|apply heap_alloc_subseteq]|].
    case_decide as Hprint.
    + apply except_returns.
      erewrite io_bind.
      2:{ unfold run_py. cbn [memory set_memory].
          by erewrite (run_func op σ2 _ _ M1 M2) by done. }
      erewrite io_bind by done.
      erewrite io_bind.
      2:{ unfold run_py. cbn [memory set_memory set_stdout].
          by erewrite (run_str_printable _ _ (result op M1 M2))
            by (done || apply lookup_insert_eq). }
      erewrite io_bind by done.
      erewrite io_bind.
      2:{ unfold run_py. cbn [memory set_memory set_stdout].
          by erewrite (run_str_printable _ _ (result op M1 M2))
            by (done || apply lookup_insert_eq). }
      unfold write_file, result_file. world_simpl. same_text.
    + erewrite (except_caught _ _ _ (ExceedsLimit None)); [| |reflexivity].
      2:{ erewrite io_bind.
          2:{ unfold run_py. cbn [memory set_memory].
              by erewrite (run_func op σ2 _ _ M1 M2) by done. }
          erewrite io_bind by done.
          erewrite io_bind_stop; [done|].
          unfold run_py. cbn [memory set_memory set_stdout].
          rewrite (run_str _ _ (result op M1 M2)) by apply lookup_insert_eq.
          by rewrite decide_False by done. }
      unfold print. world_simpl. f_equal. f_equal. same_text.
  - rewrite bool_decide_eq_false_2 by done. cbn [negb].
    exists σ2. split; [done|]. unfold print. world_simpl. same_text.
Qed.

Lemma run_menu op w :
  matrix_files w ≠ [] →
  Forall (λ f, ∃ M, parse (texts w f) = inr M) (matrix_files w) →
  ∃ σ1 shown,
    memory w ⊆ σ1
    ∧ matrix_operation op w
      = (choices ← select (length (matrix_files w));
         match choices with
         | None => mret ()
         | Some (choice1, choice2) =>
           operate op (matrix_files w) choice1 choice2
         end) (set_stdout (set_memory w σ1) (stdout w ++ shown)).
Proof.
  intros Hfiles Hparse. unfold matrix_operation.
  erewrite io_bind by done. fold (matrix_files w).
  rewrite decide_False by done.
  destruct (find_compatible_pairs_returns op (matrix_files w) w Hparse)
    as (pairs & w1 & Hpairs & Hsub & Hw1).
  destruct (run_display op (matrix_files w) pairs w1) as [shown Hshown].
  exists (memory w1), shown. split; [done|].
  erewrite io_bind by done. erewrite io_bind by done.
  by rewrite Hw1.
Qed.

Lemma run_matrix_operation op w line1 line2 rest k1 k2 f1 f2 M1 M2 :
  readable w (matrix_files w) →
  stdin w = line1 :: line2 :: rest →
  builtins.int line1 = inr (Z.of_nat k1 + 1) →
  builtins.int line2 = inr (Z.of_nat k2 + 1) →
  matrix_files w !! k1 = Some f1 → matrix_files w !! k2 = Some f2 →
  parse (texts w f1) = inr M1 → parse (texts w f2) = inr M2 →
  ∃ σ' shown,
    memory w ⊆ σ'
    ∧ matrix_operation op w
      = (inr (),
         if decide (check op M1 M2) then
           if decide (printable (result op M1 M2)) then
             World σ' (input_dir w) (input_dir_exists w) (listing w) (texts w)
               rest
               (stdout w ++ shown ++ "010"%char
                  :: capitalize (chars (name op))
                  ++ chars " Result:" ++ "010"%char
                  :: serialize (result op M1 M2) ++ ["010"%char])
               (<[result_file op := serialize (result op M1 M2)]> (output w))
           else
             World σ' (input_dir w) (input_dir_exists w) (listing w) (texts w)
               rest
               (stdout w ++ shown ++ "010"%char
                  :: capitalize (chars (name op))
                  ++ chars " Result:" ++ "010"%char
                  :: capitalize (chars (name op)) ++ chars " Error: "
                  ++ message (ExceedsLimit None) ++ ["010"%char])
               (output w)
         else
           World σ' (input_dir w) (input_dir_exists w) (listing w) (texts w)
             rest
             (stdout w ++ shown ++ capitalize (chars (name op))
                ++ chars " Error: Matrices dimensions do not match"
                ++ ["010"%char])
             (output w)).
Proof.
  intros Hread Hin H1 H2 Hf1 Hf2 HM1 HM2.
  destruct (run_menu op w) as (σ1 & shown & Hσ1 & ->).
  { intros Hnil. by rewrite Hnil in Hf1. }
  { done. }
  set (w1 := set_stdout (set_memory w σ1) (stdout w ++ shown)).
  erewrite io_bind; last first.
  { rewrite (run_select _ w1 line1 line2 rest _ _ Hin H1 H2).
    rewrite decide_False; [done|].
    apply lookup_lt_Some in Hf1, Hf2. lia. }
  rewrite !Z.add_simpl_r.
  set (w2 := set_stdin _ rest).
  destruct (run_operate op (matrix_files w) (Z.of_nat k1) (Z.of_nat k2)
              f1 f2 M1 M2 w2) as (σ' & Hσ' & ->);
    [by rewrite Nat2Z.id..|done|done|].
  exists σ', (shown ++ chars "Select first matrix (by number): "
                ++ chars "Select second matrix (by number): ").
  split; [by etrans|].
  f_equal. repeat case_decide; unfold w2, w1; world_simpl; f_equal; same_text.
Qed.

(** ** How the program stops *)

Lemma parse_inl text e : parse text = inl e → ∃ cause, e = WrongFormat cause.
Proof.
  unfold parse. destruct (read_file text _).1; [|done].
  intros [= <-]. by eexists.
Qed.

Lemma first_failure w files :
  Forall (λ f, ∃ M, parse (texts w f) = inr M) files
  ∨ ∃ good f rest e,
      files = good ++ f :: rest
      ∧ Forall (λ f, ∃ M, parse (texts w f) = inr M) good
      ∧ parse (texts w f) = inl e.
Proof.
  induction files as [|f files IH]; [by left|].
  destruct (parse (texts w f)) as [e|M] eqn:Hf.
  { right. by exists [], f, files, e. }
  destruct IH as [Hall|(good & f' & rest & e & -> & Hgood & Hf')].
  - left. constructor; [by exists M|done].
  - right. exists (f :: good), f', rest, e.
    split_and!; [done| |done]. constructor; [by exists M|done].
Qed.

Lemma find_compatible_pairs_stops op files w s w' :
  find_compatible_pairs op files w = (inl s, w') →
  ∃ cause, s = Error (WrongFormat cause).
Proof.
  intros Hrun.
  destruct (first_failure w files)
    as [Hall|(good & f & rest & e & -> & Hgood & Hf)].
  - destruct (find_compatible_pairs_returns op files w Hall)
      as (pairs & w1 & Hret & _). congruence.
  - destruct (find_compatible_pairs_raises op good f rest e w Hgood Hf)
      as (w1 & Hstop & _).
    destruct (parse_inl _ _ Hf) as [cause ->]. exists cause. congruence.
Qed.

Lemma select_cases count w :
  (∃ w', select count w = (inl EOFError, w'))
  ∨ (∃ w', select count w = (inr None, w'))
  ∨ (∃ choice1 choice2 w',
       select count w = (inr (Some (choice1, choice2)), w')
       ∧ 0 ≤ choice1 < Z.of_nat count ∧ 0 ≤ choice2 < Z.of_nat count).
Proof.
  destruct (stdin w) as [|line1 rest] eqn:Hin.
  { left. unfold select, except_ValueError, mbind, IO_bind, input.
    rewrite Hin. by eexists. }
  destruct (builtins.int line1) as [e1|n1] eqn:H1.
  { right. left.
    destruct (run_select_refused count w line1 rest e1)
      as (shown & lines & -> & _); [done|by left|]. by eexists. }
  destruct rest as [|line2 rest].
  { left. unfold select, except_ValueError.
    erewrite io_bind by (unfold input; by rewrite Hin).
    rewrite H1. erewrite io_bind by done.
    unfold mbind, IO_bind, input. cbn [stdin set_stdin set_stdout].
    by eexists. }
  destruct (builtins.int line2) as [e2|n2] eqn:H2.
  { right. left.
    destruct (run_select_refused count w line1 (line2 :: rest) e2)
      as (shown & lines & -> & _); [done|right; by eexists _, _, _|].
    by eexists. }
  rewrite (run_select count w line1 line2 rest n1 n2 Hin H1 H2).
  case_decide as Hrange.
  - right. left. by eexists.
  - right. right. eexists _, _, _. split; [done|lia].
Qed.

Lemma select_stops count w s w' :
  select count w = (inl s, w') → s = EOFError.
Proof.
  destruct (select_cases count w)
    as [[w1 ->]|[[w1 ->]|(c1 & c2 & w1 & -> & _)]]; congruence.
Qed.

Lemma select_in_range count w choice1 choice2 w' :
  select count w = (inr (Some (choice1, choice2)), w') →
  0 ≤ choice1 < Z.of_nat count ∧ 0 ≤ choice2 < Z.of_nat count.
Proof.
  destruct (select_cases count w)
    as [[w1 ->]|[[w1 ->]|(c1 & c2 & w1 & -> & Hrange)]]; [done..|].
  by intros [= <- <- _].
Qed.

Lemma operate_stops op files choice1 choice2 w s w' :
  0 ≤ choice1 < Z.of_nat (length files) →
  0 ≤ choice2 < Z.of_nat (length files) →
  operate op files choice1 choice2 w = (inl s, w') →
  (∃ cause, s = Error (WrongFormat cause)) ∧ quiet w w'.
Proof.
  intros Hc1 Hc2 Hrun.
  destruct (lookup_lt_is_Some_2 files (Z.to_nat choice1)) as [f1 Hf1]; [lia|].
  destruct (lookup_lt_is_Some_2 files (Z.to_nat choice2)) as [f2 Hf2]; [lia|].
  destruct (parse (texts w f1)) as [e1|M1] eqn:HM1.
  { destruct (run_load_raised w f1 e1 HM1) as (σ' & Hload & Hσ').
    destruct (parse_inl _ _ HM1) as [cause ->].
    unfold operate, builtins.getitem in Hrun. rewrite Hf1 in Hrun.
    erewrite io_bind in Hrun by done.
    erewrite io_bind_stop in Hrun by done.
    injection Hrun as <- <-. split; [by exists cause|by split]. }
  destruct (parse (texts w f2)) as [e2|M2] eqn:HM2.
  { set (w1 := set_memory w (<[fresh (dom (memory w)) := M1]> (memory w))).
    destruct (run_load_raised w1 f2 e2 HM2) as (σ' & Hload & Hσ').
    destruct (parse_inl _ _ HM2) as [cause ->].
    unfold operate, builtins.getitem in Hrun. rewrite Hf1, Hf2 in Hrun.
    erewrite io_bind in Hrun by done.
    erewrite io_bind in Hrun by (by apply run_load).
    erewrite io_bind in Hrun by done.
    erewrite io_bind_stop in Hrun by done.
    injection Hrun as <- <-. split; [by exists cause|]. split; [|done].
    etrans; [apply heap_alloc_subseteq|exact Hσ']. }
  destruct (run_operate op files choice1 choice2 f1 f2 M1 M2 w)
    as (σ' & _ & Hret); [done..|]. congruence.
Qed.

Lemma matrix_operation_stops op w s w' :
  matrix_operation op w = (inl s, w') → fatal s ∧ output w' = output w.
Proof.
  unfold matrix_operation. erewrite io_bind by done.
  fold (matrix_files w). case_decide; [done|]. intros Hrun.
  apply io_bind_inv in Hrun as [(s' & Hrun & [= <-])|(pairs & w1 & H1 & Hrun)].
  { split.
    - right. by eapply find_compatible_pairs_stops.
    - apply quiet_find_compatible_pairs in Hrun as [_ ->]. done. }
  apply quiet_find_compatible_pairs in H1 as Hq1.
  apply io_bind_inv in Hrun as [(s' & Hrun & [= <-])|([] & w2 & H2 & Hrun)].
  { destruct (run_display op (matrix_files w) pairs w1) as [shown Hshown].
    congruence. }
  apply (frame_display None) in H2 as Hq2.
  assert (output w2 = output w) as Hout2.
  { rewrite (frame_None_output _ _ _ Hq2). by destruct Hq1 as [_ ->]. }
  apply io_bind_inv in Hrun
    as [(s' & Hrun & [= <-])|(choices & w3 & H3 & Hrun)].
  { split; [left; by eapply select_stops|].
    apply (frame_select None) in Hrun.
    by rewrite (frame_None_output _ _ _ Hrun). }
  apply (frame_select None) in H3 as Hq3.
  destruct choices as [[choice1 choice2]|]; [|done].
  apply select_in_range in H3 as [Hc1 Hc2].
  apply operate_stops in Hrun as [Hs [_ ->]]; [|done..].
  split; [by right|]. cbn [output set_memory].
  by rewrite (frame_None_output _ _ _ Hq3).
Qed.

(** ** [main] *)

Lemma run_main_menu w :
  input_dir_exists w = true →
  main w
  = (choice ← choose;
     match choice with
     | None => mret ()
     | Some choice =>
       match operations choice with
       | Some op => matrix_operation op
       | None => stop KeyError
       end
     end)
      (set_stdout w
         (stdout w ++ chars "Choose an operation:" ++ "010"%char
            :: chars "1. Addition" ++ "010"%char
            :: chars "2. Subtraction" ++ "010"%char
            :: chars "3. Multiplication" ++ ["010"%char])).
Proof.
  intros Hdir. unfold main. erewrite io_bind by done. rewrite Hdir.
  cbn [negb]. erewrite io_bind by done. cbn [for_in].
  erewrite io_bind; last first.
  { erewrite io_bind by done. erewrite io_bind by done.
    erewrite io_bind by done. done. }
  f_equal. world_simpl. f_equal. same_text.
Qed.

Lemma run_choose w line rest :
  stdin w = line :: rest →
  choose w
  = match builtins.int line with
    | inr n =>
      if decide (operations n = None) then
        (inr None,
         set_stdin
           (set_stdout w
              (stdout w ++ chars "Enter the operation number: "
                 ++ chars "Invalid choice. Please select a valid operation."
                 ++ ["010"%char]))
           rest)
      else
        (inr (Some n),
         set_stdin
           (set_stdout w (stdout w ++ chars "Enter the operation number: "))
           rest)
    | inl _ =>
      (inr None,
       set_stdin
         (set_stdout w
            (stdout w ++ chars "Enter the operation number: "
               ++ chars "Invalid input. Please enter a number."
               ++ ["010"%char]))
         rest)
    end.
Proof.
  intros Hin. unfold choose.
  destruct w as [σ dir ex ls tx inp out files]. simpl in Hin. subst inp.
  destruct (builtins.int line) as [e|n] eqn:Hline.
  - erewrite except_caught.
    2:{ erewrite io_bind by done. by rewrite Hline. }
    2:{ by rewrite (int_error _ _ Hline). }
    erewrite io_bind by done. unfold mret, IO_ret. world_simpl.
    do 2 f_equal. same_text.
  - case_decide as Hop.
    + apply except_returns.
      erewrite io_bind by done. rewrite Hline. erewrite io_bind by done.
      rewrite decide_True by done. erewrite io_bind by done.
      unfold mret, IO_ret. world_simpl. do 2 f_equal. same_text.
    + apply except_returns.
      erewrite io_bind by done. rewrite Hline. erewrite io_bind by done.
      by rewrite decide_False by done.
Qed.

Lemma choose_stops w s w' :
  choose w = (inl s, w') → s = EOFError ∧ output w' = output w.
Proof.
  destruct (stdin w) as [|line rest] eqn:Hin.
  - unfold choose, except_ValueError, mbind, IO_bind, input.
    rewrite Hin. by intros [= <- <-].
  - rewrite (run_choose w line rest Hin).
    destruct (builtins.int line); [done|]. by case_decide.
Qed.

Lemma frame_choose o : keeps (frame o 1) choose.
Proof.
  unfold choose. apply (keeps_frame_except o 1 0).
  - apply (keeps_frame_bind o 1 0); [apply frame_input|]. intros line.
    apply keeps_bind; [apply _|apply keeps_run_exc, _|]. intros n.
    case_decide.
    + apply keeps_bind; [apply _|apply frame_print|]. intros _.
      apply keeps_ret, _.
    + apply keeps_ret, _.
  - intros e. apply keeps_bind; [apply _|apply frame_print|]. intros _.
    apply keeps_ret, _.
Qed.

Lemma choose_valid w n w' :
  choose w = (inr (Some n), w') → is_Some (operations n).
Proof.
  destruct (stdin w) as [|line rest] eqn:Hin.
  - unfold choose, except_ValueError, mbind, IO_bind, input.
    by rewrite Hin.
  - rewrite (run_choose w line rest Hin).
    destruct (builtins.int line) as [e|n']; [done|].
    case_decide as Hop; [done|]. intros [= <- _].
    by destruct (operations n').
Qed.

(** ** The recommendations *)

Lemma inner_loop_pairs op tx i f1 matrix1 A (ixs : list (nat * list ascii)) :
  parse (tx f1) = inr A →
  ∀ pairs w,
  texts w = tx →
  memory w !! matrix1 = Some A →
  Forall (λ x, ∃ M, parse (tx x.2) = inr M) ixs →
  ∃ w',
    for_in ixs pairs
      (λ (pairs : list (nat * nat)) '(j, file2),
         if decide (i ≠ j) then
           matrix2 ← load file2;
           compatible ← dimension_check op matrix1 matrix2;
           if compatible : bool then mret (pairs ++ [(i, j)]) else mret pairs
         else (mret pairs : IO (list (nat * nat)))) w
    = (inr (pairs ++ compatible_with op tx i f1 ixs), w')
    ∧ quiet w w'.
Proof.
  intros HA. induction ixs as [|[j file2] ixs IH]; intros pairs w Htx Hm1 Hixs.
  { exists w. split; [|reflexivity]. cbn. by rewrite app_nil_r. }
  apply Forall_cons in Hixs as [[M HM] Hixs]. cbn [snd] in HM. cbn [for_in].
  unfold compatible_with. rewrite bind_cons. fold (compatible_with op tx i f1 ixs).
  cbn [fst snd].
  assert (compatible op tx f1 file2 ↔ check op A M) as Hcompat.
  { unfold compatible. by rewrite HA, HM. }
  destruct (decide (i ≠ j)) as [Hij|Hij].
  - set (w1 := set_memory w (<[fresh (dom (memory w)) := M]> (memory w))).
    assert (quiet w w1) as Hq1.
    { split; [apply heap_alloc_subseteq|done]. }
    destruct (IH (if bool_decide (check op A M) then pairs ++ [(i, j)]
                  else pairs) w1) as (w' & Hrun & Hq); [done| |done|].
    { by apply lookup_alloc. }
    exists w'. split; [|by etrans].
    erewrite (io_bind _ _ _ (if bool_decide (check op A M)
                             then pairs ++ [(i, j)] else pairs) w1);
      last first.
    { erewrite io_bind by (apply run_load; by rewrite Htx).
      erewrite io_bind.
      2:{ apply (run_dimension_check op w1 _ _ A M);
            [by apply lookup_alloc|apply lookup_insert_eq]. }
      by destruct (bool_decide _). }
    rewrite Hrun. f_equal. f_equal.
    destruct (decide (check op A M)) as [Hcheck|Hcheck].
    + rewrite bool_decide_eq_true_2 by done.
      rewrite decide_True by (split; [done|by apply Hcompat]).
      by rewrite <-(assoc_L (++)).
    + rewrite bool_decide_eq_false_2 by done.
      rewrite decide_False; [done|]. intros [_ Hc]. by apply Hcheck, Hcompat.
  - destruct (IH pairs w) as (w' & Hrun & Hq); [done..|].
    exists w'. split; [|done].
    erewrite io_bind by done. rewrite Hrun.
    rewrite decide_False; [done|]. by intros [? _].
Qed.

Lemma outer_loop_pairs op tx files (ixs : list (nat * list ascii)) :
  Forall (λ f, ∃ M, parse (tx f) = inr M) files →
  ∀ pairs w,
  texts w = tx →
  Forall (λ x, ∃ M, parse (tx x.2) = inr M) ixs →
  ∃ w',
    for_in ixs pairs
      (λ (pairs : list (nat * nat)) '(i, file1),
         matrix1 ← load file1;
         for_in (enumerate files) pairs
           (λ (pairs : list (nat * nat)) '(j, file2),
              if decide (i ≠ j) then
                matrix2 ← load file2;
                compatible ← dimension_check op matrix1 matrix2;
                if compatible : bool then mret (pairs ++ [(i, j)])
                else mret pairs
              else (mret pairs : IO (list (nat * nat))))) w
    = (inr (pairs
            ++ (x ← ixs; compatible_with op tx x.1 x.2 (enumerate files))),
       w')
    ∧ quiet w w'.
Proof.
  intros Hfiles.
  induction ixs as [|[i file1] ixs IH]; intros pairs w Htx Hixs.
  { exists w. split; [|reflexivity]. cbn. by rewrite app_nil_r. }
  apply Forall_cons in Hixs as [[M HM] Hixs]. cbn [snd] in HM. cbn [for_in].
  rewrite bind_cons. cbn [fst snd].
  set (w1 := set_memory w (<[fresh (dom (memory w)) := M]> (memory w))).
  destruct (inner_loop_pairs op tx i file1 (fresh (dom (memory w))) M
              (enumerate files) HM pairs w1) as (w2 & Hinner & Hq2).
  { done. }
  { apply lookup_insert_eq. }
  { by apply (Forall_enumerate (λ f, ∃ M, parse (tx f) = inr M)). }
  assert (quiet w w2) as Hq.
  { etrans; [|done]. split; [apply heap_alloc_subseteq|done]. }
  destruct (IH (pairs ++ compatible_with op tx i file1 (enumerate files)) w2)
    as (w' & Hrun & Hq').
  { by rewrite (quiet_texts w w2). }
  { done. }
  exists w'. split; [|by etrans].
  erewrite io_bind; last first.
  { erewrite io_bind by (apply run_load; by rewrite Htx). exact Hinner. }
  rewrite Hrun. by rewrite <-(assoc_L (++)).
Qed.

Lemma run_find_compatible_pairs op files w :
  Forall (λ f, ∃ M, parse (texts w f) = inr M) files →
  ∃ w',
    find_compatible_pairs op files w
    = (inr (compatible_pairs op (texts w) files), w')
    ∧ quiet w w'.
Proof.
  intros Hfiles.
  destruct (outer_loop_pairs op (texts w) files (enumerate files) Hfiles [] w)
    as (w' & Hrun & Hq); [done| |].
  { by apply (Forall_enumerate (λ f, ∃ M, parse (texts w f) = inr M)). }
  by exists w'.
Qed.

Lemma elem_of_enumerate {X} (xs : list X) i x :
  (i, x) ∈ enumerate xs ↔ xs !! i = Some x.
Proof.
  unfold enumerate. split.
  - intros (i' & x' & [= -> ->] & Hx)%elem_of_lookup_imap. done.
  - intros Hx. by apply (elem_of_lookup_imap_2 (λ i x, (i, x))).
Qed.

Lemma elem_of_compatible_pairs op tx files i j :
  (i, j) ∈ compatible_pairs op tx files
  ↔ i ≠ j
    ∧ ∃ fi fj, files !! i = Some fi ∧ files !! j = Some fj
               ∧ compatible op tx fi fj.
Proof.
  unfold compatible_pairs, compatible_with. rewrite list_elem_of_bind. split.
  - intros ([i' fi] & Hin & Hi). cbn [fst snd] in Hin.
    apply list_elem_of_bind in Hin as ([j' fj] & Hij & Hj).
    cbn [fst snd] in Hij. case_decide as Hc; [|by apply elem_of_nil in Hij].
    apply list_elem_of_singleton in Hij as [= -> ->].
    destruct Hc as [Hne Hc]. split; [done|]. exists fi, fj.
    by rewrite <-!elem_of_enumerate.
  - intros (Hne & fi & fj & Hi & Hj & Hc). exists (i, fi).
    split; [|by apply elem_of_enumerate].
    apply list_elem_of_bind. exists (j, fj).
    split; [|by apply elem_of_enumerate].
    cbn [fst snd]. rewrite decide_True by done. by apply list_elem_of_singleton.
Qed.

Lemma run_print_lines (ixs : list (nat * list ascii))
    (body : unit → nat * list ascii → IO unit) (text : nat * list ascii → list ascii) :
  (∀ s x w, body s x w = print (text x) w) →
  ∀ w,
    for_in ixs () body w
    = (inr (),
       set_stdout w
         (stdout w ++ concat ((λ x, text x ++ ["010"%char]) <$> ixs))).
Proof.
  intros Hbody. induction ixs as [|x ixs IH]; intros w.
  { cbn. rewrite app_nil_r. by destruct w. }
  cbn [for_in]. erewrite io_bind by (by rewrite Hbody).
  rewrite IH. cbn [fmap list_fmap concat]. world_simpl.
  by rewrite <-!(assoc_L (++)).
Qed.

Lemma run_display_lines op files pairs w :
  display op files pairs w
  = (inr (),
     set_stdout w
       (stdout w ++ "010"%char :: chars "Select matrices for "
          ++ chars (name op) ++ chars ":" ++ "010"%char
          :: chars "Available matrix files:" ++ "010"%char
          :: concat
               (listed
                  (λ i, bool_decide
                          (Exists (λ pair : nat * nat,
                                     i = pair.1 ∨ i = pair.2) pairs))
                <$> enumerate files))).
Proof.
  unfold display.
  erewrite io_bind by done. erewrite io_bind by done.
  erewrite (run_print_lines (enumerate files) _
              (λ x, builtins.decimal (Z.of_nat x.1 + 1) ++ chars ". " ++ x.2
                      ++ (if bool_decide
                               (Exists (λ pair : nat * nat,
                                          x.1 = pair.1 ∨ x.1 = pair.2) pairs)
                          then chars " (recommended)" else []))).
  2:{ intros _ [i file] w'. cbn [fst snd]. by case_decide;
        [rewrite bool_decide_eq_true_2 by done
        |rewrite bool_decide_eq_false_2 by done]. }
  f_equal. world_simpl. f_equal.
  match goal with
  | |- _ ++ concat ?l1 = ?rhs =>
    match rhs with context [concat ?l2] => assert (l2 = l1) as -> end
  end.
  { apply list_fmap_ext. intros k [i file] _. unfold listed. cbn [fst snd].
    by rewrite <-!(assoc_L (++)). }
  same_text.
Qed.

(** ** Properties of [matrix_operation] and [main] *)

Lemma parse_dims text M :
  parse text = inr M → is_Some (num_rows M) ∧ is_Some (num_cols M).
Proof.
  unfold parse.
  destruct (read_file text _) as [[e|] o] eqn:Hread; simpl; [done|].
  intros [= ->].
  destruct (read_file_dims _ _ _ _ Hread eq_refl)
    as (r & c & _ & _ & -> & -> & _).
  by split.
Qed.

Lemma parse_serialize M :
  printable M → is_Some (num_rows M) → is_Some (num_cols M) →
  parse (serialize M) = inr M.
Proof.
  intros Hprint [r Hr] [c Hc]. unfold parse.
  by rewrite (read_file_serialize M None None r c).
Qed.

Lemma message_limit :
  message (ExceedsLimit None)
  = chars "Exceeds the limit (4300 digits) for integer string conversion; use sys.set_int_max_str_digits() to increase the limit".
Proof. reflexivity. Qed.

Lemma result_dims op M1 M2 :
  is_Some (num_rows M1) → is_Some (num_cols M1) → is_Some (num_cols M2) →
  is_Some (num_rows (result op M1 M2)) ∧ is_Some (num_cols (result op M1 M2)).
Proof. by destruct op. Qed.

(** X20: a round of [matrix_operation] that goes well.  When every matrix
    file of the directory is read by the constructor, the two lines typed
    are the numbers of two files of the list, the matrices of these two
    files pass the check of the operation, and the result holds no integer
    of more than 4300 digits, the call returns, has read the two lines and
    no more, ends what it prints with the result as [__str__] gives it, and
    leaves that text in the result file of the operation; the parser reads
    this file back into the result. *)
Theorem operation_written (op : operation) (w : world)
    (line1 line2 : list ascii) (rest : list (list ascii)) (k1 k2 : nat)
    (f1 f2 : list ascii) (M1 M2 : object) :
  readable w (matrix_files w) →
  stdin w = line1 :: line2 :: rest →
  builtins.int line1 = inr (Z.of_nat k1 + 1) →
  builtins.int line2 = inr (Z.of_nat k2 + 1) →
  matrix_files w !! k1 = Some f1 → matrix_files w !! k2 = Some f2 →
  parse (texts w f1) = inr M1 → parse (texts w f2) = inr M2 →
  check op M1 M2 →
  printable (result op M1 M2) →
  ∃ w',
    matrix_operation op w = (inr (), w')
    ∧ stdin w' = rest
    ∧ shows w w' ("010"%char :: capitalize (chars (name op))
                    ++ chars " Result:" ++ "010"%char
                    :: serialize (result op M1 M2) ++ ["010"%char])
    ∧ output w'
      = <[result_file op := serialize (result op M1 M2)]> (output w)
    ∧ parse (serialize (result op M1 M2)) = inr (result op M1 M2).
Proof.
  intros Hread Hin H1 H2 Hf1 Hf2 HM1 HM2 Hcheck Hprint.
  destruct (run_matrix_operation op w line1 line2 rest k1 k2 f1 f2 M1 M2)
    as (σ' & shown & Hσ' & Hrun); [done..|].
  rewrite !decide_True in Hrun by done.
  eexists. split; [exact Hrun|]. split_and!; [done|by exists shown|done|].
  destruct (parse_dims _ _ HM1), (parse_dims _ _ HM2).
  by apply parse_serialize; [|apply result_dims..].
Qed.

Lemma sample_readable lines :
  readable (sample_world lines) (matrix_files (sample_world lines)).
Proof.
  repeat apply Forall_cons_2; [..|apply Forall_nil_2]; eexists; by vm_compute.
Qed.

Lemma operation_written_witness :
  ∃ w',
    matrix_operation multiplication (sample_world [chars "1"; chars " 3"])
    = (inr (), w')
    ∧ stdin w' = []
    ∧ shows (sample_world [chars "1"; chars " 3"]) w'
        ("010"%char :: capitalize (chars (name multiplication))
           ++ chars " Result:" ++ "010"%char
           :: serialize (result multiplication matrix_A matrix_C)
           ++ ["010"%char])
    ∧ output w'
      = <[result_file multiplication :=
            serialize (result multiplication matrix_A matrix_C)]> ∅
    ∧ parse (serialize (result multiplication matrix_A matrix_C))
      = inr (result multiplication matrix_A matrix_C).
Proof.
  apply (operation_written multiplication
           (sample_world [chars "1"; chars " 3"]) (chars "1") (chars " 3") []
           0 2 (chars "matrix1.txt") (chars "matrix3.txt") matrix_A matrix_C);
    [apply sample_readable|reflexivity..|by vm_compute|by vm_compute
     |by vm_compute|apply (bool_decide_unpack _); by vm_compute].
Defined.

(** X30: a result that cannot be printed.  With the same files and lines,
    when the check holds but the result holds an integer of more than 4300
    digits, as the sum of two entries of 4300 digits can, the call prints
    the heading of the result, then, [print(result)] having raised the
    [ValueError] of the limit, the error line of the operation with the
    message of that error; it returns and writes no file. *)
Theorem operation_unprintable (op : operation) (w : world)
    (line1 line2 : list ascii) (rest : list (list ascii)) (k1 k2 : nat)
    (f1 f2 : list ascii) (M1 M2 : object) :
  readable w (matrix_files w) →
  stdin w = line1 :: line2 :: rest →
  builtins.int line1 = inr (Z.of_nat k1 + 1) →
  builtins.int line2 = inr (Z.of_nat k2 + 1) →
  matrix_files w !! k1 = Some f1 → matrix_files w !! k2 = Some f2 →
  parse (texts w f1) = inr M1 → parse (texts w f2) = inr M2 →
  check op M1 M2 →
  ¬ printable (result op M1 M2) →
  ∃ w',
    matrix_operation op w = (inr (), w')
    ∧ stdin w' = rest
    ∧ shows w w'
        ("010"%char :: capitalize (chars (name op))
           ++ chars " Result:" ++ "010"%char
           :: capitalize (chars (name op)) ++ chars " Error: "
           ++ chars "Exceeds the limit (4300 digits) for integer string conversion; use sys.set_int_max_str_digits() to increase the limit"
           ++ ["010"%char])
    ∧ output w' = output w.
Proof.
  intros Hread Hin H1 H2 Hf1 Hf2 HM1 HM2 Hcheck Hprint.
  destruct (run_matrix_operation op w line1 line2 rest k1 k2 f1 f2 M1 M2)
    as (σ' & shown & Hσ' & Hrun); [done..|].
  rewrite decide_True, decide_False in Hrun by done.
  rewrite message_limit in Hrun.
  eexists. split; [exact Hrun|]. split_and!; [done|by exists shown|done].
Qed.

Lemma printable_matrix_H : printable matrix_H.
Proof. apply (bool_decide_unpack _). by vm_compute. Qed.

Lemma operation_unprintable_witness :
  ∃ w',
    matrix_operation addition (long_world [chars "1"; chars "1"])
    = (inr (), w')
    ∧ stdin w' = []
    ∧ shows (long_world [chars "1"; chars "1"]) w'
        ("010"%char :: capitalize (chars (name addition))
           ++ chars " Result:" ++ "010"%char
           :: capitalize (chars (name addition)) ++ chars " Error: "
           ++ chars "Exceeds the limit (4300 digits) for integer string conversion; use sys.set_int_max_str_digits() to increase the limit"
           ++ ["010"%char])
    ∧ output w' = ∅.
Proof.
  assert (parse (serialize matrix_H) = inr matrix_H) as Hparse.
  { apply parse_serialize; [apply printable_matrix_H|by eexists..]. }
  apply (operation_unprintable addition (long_world [chars "1"; chars "1"])
           (chars "1") (chars "1") [] 0 0 (chars "matrix1.txt")
           (chars "matrix1.txt") matrix_H matrix_H);
    [|reflexivity..|exact Hparse|exact Hparse|by split|].
  - apply Forall_cons_2; [by exists matrix_H|apply Forall_nil_2].
  - apply (bool_decide_unpack (¬ printable (result addition matrix_H matrix_H))).
    by vm_compute.
Defined.

(** X21: a round that the check refuses.  With the same files and the same
    two lines, when the matrices of the two files chosen do not pass the
    check of the operation, the call returns, has read the two lines, ends
    what it prints with the error line of the operation, and writes no
    file: the operator is not called, and the handler of [ValueError] after
    it is never run. *)
Theorem operation_mismatch (op : operation) (w : world)
    (line1 line2 : list ascii) (rest : list (list ascii)) (k1 k2 : nat)
    (f1 f2 : list ascii) (M1 M2 : object) :
  readable w (matrix_files w) →
  stdin w = line1 :: line2 :: rest →
  builtins.int line1 = inr (Z.of_nat k1 + 1) →
  builtins.int line2 = inr (Z.of_nat k2 + 1) →
  matrix_files w !! k1 = Some f1 → matrix_files w !! k2 = Some f2 →
  parse (texts w f1) = inr M1 → parse (texts w f2) = inr M2 →
  ¬ check op M1 M2 →
  ∃ w',
    matrix_operation op w = (inr (), w')
    ∧ stdin w' = rest
    ∧ shows w w' (capitalize (chars (name op))
                    ++ chars " Error: Matrices dimensions do not match"
                    ++ ["010"%char])
    ∧ output w' = output w.
Proof.
  intros Hread Hin H1 H2 Hf1 Hf2 HM1 HM2 Hcheck.
  destruct (run_matrix_operation op w line1 line2 rest k1 k2 f1 f2 M1 M2)
    as (σ' & shown & Hσ' & Hrun); [done..|].
  rewrite decide_False in Hrun by done.
  eexists. split; [exact Hrun|]. split_and!; [done|by exists shown|done].
Qed.

Lemma operation_mismatch_witness :
  ∃ w',
    matrix_operation addition (sample_world [chars "2"; chars "3"])
    = (inr (), w')
    ∧ stdin w' = []
    ∧ shows (sample_world [chars "2"; chars "3"]) w'
        (capitalize (chars (name addition))
           ++ chars " Error: Matrices dimensions do not match"
           ++ ["010"%char])
    ∧ output w' = ∅.
Proof.
  apply (operation_mismatch addition
           (sample_world [chars "2"; chars "3"]) (chars "2") (chars "3") []
           1 2 (chars "matrix2.txt") (chars "matrix3.txt") matrix_B matrix_C);
    [apply sample_readable|reflexivity..|by vm_compute|by vm_compute
     |by intros [_ [=]]].
Defined.

(** X22: one bad matrix file stops every operation.  When the constructor
    raises for a matrix file of the directory, and returns for the files
    listed before it, [matrix_operation] stops with the exception of that
    file while it looks for the compatible pairs: nothing has been printed,
    no line read, no file written, whatever the user meant to choose. *)
Theorem malformed_file_stops (op : operation) (w : world)
    (good : list (list ascii)) (f : list ascii) (rest : list (list ascii))
    (e : exception) :
  matrix_files w = good ++ f :: rest →
  readable w good →
  parse (texts w f) = inl e →
  ∃ w',
    matrix_operation op w = (inl (Error e), w')
    ∧ (∃ cause, e = WrongFormat cause)
    ∧ memory w ⊆ memory w'
    ∧ stdin w' = stdin w ∧ stdout w' = stdout w ∧ output w' = output w.
Proof.
  intros Hfiles Hgood Hf.
  destruct (find_compatible_pairs_raises op good f rest e w)
    as (w' & Hrun & Hsub & Hw'); [done|done|].
  exists w'. split_and!; [|  |done|by rewrite Hw'..].
  - unfold matrix_operation. erewrite io_bind by done.
    fold (matrix_files w). rewrite Hfiles.
    rewrite decide_False by (by destruct good).
    by erewrite io_bind_stop.
  - unfold parse in Hf. destruct (read_file _ _).1; [|done].
    injection Hf as <-. by eexists.
Qed.

Lemma malformed_file_stops_witness :
  ∃ w',
    matrix_operation addition (broken_world [chars "1"; chars "2"])
    = (inl (Error (WrongFormat IndexError)), w')
    ∧ (∃ cause, WrongFormat IndexError = WrongFormat cause)
    ∧ memory (broken_world [chars "1"; chars "2"]) ⊆ memory w'
    ∧ stdin w' = stdin (broken_world [chars "1"; chars "2"])
    ∧ stdout w' = stdout (broken_world [chars "1"; chars "2"])
    ∧ output w' = output (broken_world [chars "1"; chars "2"]).
Proof.
  apply (malformed_file_stops addition (broken_world [chars "1"; chars "2"])
           [chars "matrix1.txt"; chars "matrix2.txt"]
           (chars "matrix_bad.txt") [chars "matrix3.txt"]);
    [reflexivity| |by vm_compute].
  repeat apply Forall_cons_2; [..|apply Forall_nil_2]; eexists; by vm_compute.
Defined.

(** X23: the selections that are refused.  With matrix files in the
    directory that the constructor reads, and two lines at the keyboard
    that are not the numbers of two files of the list, the call returns
    after a line of excuse and writes no file.  A first line that is no
    integer is the only line read; a number that is not in the list, such
    as 0, is refused once the second line has been read. *)
Theorem selection_refused (op : operation) (w : world)
    (line1 line2 : list ascii) (rest : list (list ascii)) :
  matrix_files w ≠ [] →
  readable w (matrix_files w) →
  stdin w = line1 :: line2 :: rest →
  ¬ (∃ k1 k2 : nat,
       builtins.int line1 = inr (Z.of_nat k1 + 1)
       ∧ builtins.int line2 = inr (Z.of_nat k2 + 1)
       ∧ (k1 < length (matrix_files w))%nat
       ∧ (k2 < length (matrix_files w))%nat) →
  ∃ w' excuse,
    matrix_operation op w = (inr (), w')
    ∧ shows w w' (excuse ++ ["010"%char])
    ∧ output w' = output w
    ∧ match builtins.int line1, builtins.int line2 with
      | inl _, _ =>
        excuse = chars "Invalid input. Please enter a number."
        ∧ stdin w' = line2 :: rest
      | inr _, inl _ =>
        excuse = chars "Invalid input. Please enter a number."
        ∧ stdin w' = rest
      | inr _, inr _ =>
        excuse
        = chars "Invalid selection. Please choose a number from the list."
        ∧ stdin w' = rest
      end.
Proof.
  intros Hfiles Hread Hin Hbad.
  destruct (run_menu op w) as (σ1 & shown & Hσ1 & ->);
    [done|done|].
  set (w1 := set_stdout (set_memory w σ1) (stdout w ++ shown)).
  destruct (builtins.int line1) as [e1|n1] eqn:H1.
  { destruct (run_select_refused (length (matrix_files w)) w1 line1
                (line2 :: rest) e1) as (shown' & lines & Hsel & Hlines & _);
      [done|by left|].
    rewrite Hlines in Hsel by done.
    eexists _, _. split; [by erewrite io_bind by exact Hsel|].
    split_and!; [|done..].
    exists (shown ++ shown'). unfold w1. world_simpl. same_text. }
  destruct (builtins.int line2) as [e2|n2] eqn:H2.
  { destruct (run_select_refused (length (matrix_files w)) w1 line1
                (line2 :: rest) e2) as (shown' & lines & Hsel & _ & Hlines);
      [done|right; by eexists _, _, _|].
    rewrite (Hlines n1) in Hsel by done.
    eexists _, _. split; [by erewrite io_bind by exact Hsel|].
    split_and!; [|done..].
    exists (shown ++ shown'). unfold w1. world_simpl. same_text. }
  eexists _, _. split.
  { erewrite io_bind; last first.
    { rewrite (run_select _ w1 line1 line2 rest n1 n2 Hin H1 H2).
      rewrite decide_True; [done|].
      destruct (decide (1 ≤ n1 ∧ 1 ≤ n2
                        ∧ n1 - 1 < Z.of_nat (length (matrix_files w))
                        ∧ n2 - 1 < Z.of_nat (length (matrix_files w))))
        as [Hin_range|]; [|lia].
      destruct Hbad. exists (Z.to_nat (n1 - 1)), (Z.to_nat (n2 - 1)).
      split_and!; [f_equal; lia..|lia|lia]. }
    done. }
  split_and!; [|done..].
  exists (shown ++ chars "Select first matrix (by number): "
            ++ chars "Select second matrix (by number): ").
  unfold w1. world_simpl. same_text.
Qed.

Lemma selection_refused_witness :
  ∃ w' excuse,
    matrix_operation addition (sample_world [chars "0"; chars "2"])
    = (inr (), w')
    ∧ shows (sample_world [chars "0"; chars "2"]) w' (excuse ++ ["010"%char])
    ∧ output w' = ∅
    ∧ excuse
      = chars "Invalid selection. Please choose a number from the list."
    ∧ stdin w' = [].
Proof.
  apply (selection_refused addition (sample_world [chars "0"; chars "2"])
           (chars "0") (chars "2") []);
    [done|apply sample_readable|reflexivity|].
  intros (k1 & k2 & Hk1 & _).
  change (builtins.int (chars "0")) with (inr 0 : exception + Z) in Hk1.
  injection Hk1. lia.
Defined.

(** X24: what a call of [matrix_operation] can touch, whatever is in the
    directory and at the keyboard and however the call ends.  The objects
    that existed are as they were; at most two lines have been read; what
    had been printed is still there; the directory and its files are as
    they were; and in the output directory either nothing has changed or
    the one file [result_<name>.txt] of the operation has been written. *)
Theorem matrix_operation_frame (op : operation) (w w' : world)
    (res : signal + unit) :
  matrix_operation op w = (res, w') →
  memory w ⊆ memory w'
  ∧ (∃ k, (k ≤ 2)%nat ∧ stdin w' = drop k (stdin w))
  ∧ stdout w `prefix_of` stdout w'
  ∧ (output w' = output w
     ∨ ∃ text, output w' = <[result_file op := text]> (output w))
  ∧ input_dir w' = input_dir w
  ∧ input_dir_exists w' = input_dir_exists w
  ∧ listing w' = listing w
  ∧ texts w' = texts w.
Proof.
  intros Hrun.
  destruct (frame_matrix_operation op w res w' Hrun)
    as (Hm & Hi & Ho & Hf & Hrest).
  split_and!; [done|done|done| |apply Hrest..].
  destruct Hf as [Hf|(op' & text & [= <-] & Hf)]; [by left|].
  right. by exists text.
Qed.

Lemma matrix_operation_frame_witness :
  let w := sample_world [chars "1"; chars "2"; chars "3"] in
  let w' := (matrix_operation subtraction w).2 in
  memory w ⊆ memory w'
  ∧ (∃ k, (k ≤ 2)%nat ∧ stdin w' = drop k (stdin w))
  ∧ stdout w `prefix_of` stdout w'
  ∧ (output w' = output w
     ∨ ∃ text, output w' = <[result_file subtraction := text]> (output w))
  ∧ input_dir w' = input_dir w
  ∧ input_dir_exists w' = input_dir_exists w
  ∧ listing w' = listing w
  ∧ texts w' = texts w.
Proof.
  intros w w'.
  apply (matrix_operation_frame subtraction w w'
           (matrix_operation subtraction w).1).
  unfold w'. by destruct (matrix_operation _ _).
Defined.
(** X25: how [matrix_operation] stops.  A call that does not return has
    stopped for one of two reasons, the keyboard without a line left or
    the format error of a matrix file, and has written no file.  The
    index error of [matrix_files[choice]] cannot happen, the numbers having
    been checked; nor can the mismatch error of an operator leave the
    call, the check coming first. *)
Theorem stops_only (op : operation) (w w' : world) (s : signal) :
  matrix_operation op w = (inl s, w') →
  (s = EOFError ∨ ∃ cause, s = Error (WrongFormat cause))
  ∧ output w' = output w.
Proof. apply matrix_operation_stops. Qed.

Lemma stops_only_witness :
  (EOFError = EOFError ∨ ∃ cause, EOFError = Error (WrongFormat cause))
  ∧ output (matrix_operation addition (sample_world [chars "1"])).2
    = output (sample_world [chars "1"]).
Proof.
  apply (stops_only addition (sample_world [chars "1"])). by vm_compute.
Defined.

(** X26: [main] hands over to [matrix_operation].  When the input
    directory exists and the line typed is 1, 2 or 3, white space around it
    or not, [main] does what [matrix_operation] does for the operation of
    that number, once the menu has been printed and the line read. *)
Theorem main_dispatch (w : world) (line : list ascii)
    (rest : list (list ascii)) (n : Z) (op : operation) :
  input_dir_exists w = true →
  stdin w = line :: rest →
  builtins.int line = inr n → operations n = Some op →
  main w
  = matrix_operation op (set_stdin (set_stdout w (stdout w ++ menu)) rest).
Proof.
  intros Hdir Hin Hline Hop. rewrite run_main_menu by done.
  erewrite io_bind; last first.
  { erewrite run_choose by done. rewrite Hline.
    rewrite decide_False by congruence. done. }
  cbv beta iota. rewrite Hop. f_equal. unfold menu. world_simpl. f_equal.
  same_text.
Qed.

Lemma main_dispatch_witness :
  main (sample_world [chars " 3 "; chars "1"; chars "3"])
  = matrix_operation multiplication
      (set_stdin
         (set_stdout (sample_world [chars " 3 "; chars "1"; chars "3"]) menu)
         [chars "1"; chars "3"]).
Proof.
  apply (main_dispatch (sample_world [chars " 3 "; chars "1"; chars "3"])
           (chars " 3 ") [chars "1"; chars "3"] 3 multiplication);
    reflexivity.
Defined.

(** X27: the lines that [main] refuses.  When the input directory exists
    and the line typed is no integer, or an integer other than 1, 2 and 3,
    [main] returns after its excuse: it has read that one line, and it has
    neither looked at the directory nor built an object nor written a
    file. *)
Theorem main_refuses (w : world) (line : list ascii)
    (rest : list (list ascii)) :
  input_dir_exists w = true →
  stdin w = line :: rest →
  (∀ n, builtins.int line = inr n → n ≠ 1 ∧ n ≠ 2 ∧ n ≠ 3) →
  main w
  = (inr (),
     set_stdin
       (set_stdout w
          (stdout w ++ menu
             ++ match builtins.int line with
                | inr _ =>
                  chars "Invalid choice. Please select a valid operation."
                | inl _ => chars "Invalid input. Please enter a number."
                end ++ ["010"%char]))
       rest).
Proof.
  intros Hdir Hin Hline. rewrite run_main_menu by done.
  destruct (builtins.int line) as [e|n] eqn:Hint.
  - erewrite io_bind by (erewrite run_choose by done; by rewrite Hint).
    unfold mret, IO_ret, menu. world_simpl. do 2 f_equal. same_text.
  - destruct (Hline n eq_refl) as (H1 & H2 & H3).
    erewrite io_bind.
    2:{ erewrite run_choose by done. rewrite Hint. rewrite decide_True; [done|].
        unfold operations. by rewrite !decide_False by done. }
    unfold mret, IO_ret, menu. world_simpl. do 2 f_equal. same_text.
Qed.

Lemma main_refuses_witness :
  main (sample_world [chars "4"; chars "1"])
  = (inr (),
     set_stdin
       (set_stdout (sample_world [chars "4"; chars "1"])
          (menu ++ chars "Invalid choice. Please select a valid operation."
             ++ ["010"%char]))
       [chars "1"]).
Proof.
  apply (main_refuses (sample_world [chars "4"; chars "1"]) (chars "4")
           [chars "1"]); [reflexivity..|].
  intros n. change (builtins.int (chars "4")) with (inr 4 : exception + Z).
  intros [= <-]. lia.
Defined.

(** X28: what a run of [main] can touch, and how it ends.  Whatever the
    directory and the keyboard hold, [main] leaves the objects, the
    directory and what had been printed as they were, reads at most three
    lines, and writes at most the result file of one operation; when it
    does not return it has stopped at the end of the keyboard or on the
    format error of a matrix file, never on a missing key of its table,
    and has written nothing; and without an input directory it returns
    without reading a line. *)
Theorem main_frame (w w' : world) (res : signal + unit) :
  main w = (res, w') →
  (∃ allowed, frame allowed 3 w w')
  ∧ (∀ s, res = inl s → fatal s ∧ output w' = output w)
  ∧ (input_dir_exists w = false →
     res = inr () ∧ stdin w' = stdin w ∧ output w' = output w).
Proof.
  destruct (input_dir_exists w) eqn:Hdir.
  2:{ unfold main. erewrite io_bind by done. rewrite Hdir. cbn [negb].
      erewrite io_bind by done. intros Hrun.
      pose proof (frame_print None _ _ _ _ Hrun) as Hframe.
      injection Hrun as <- <-. split_and!; [|done..].
      exists None. eapply frame_mono; [|done]. lia. }
  rewrite run_main_menu by done.
  set (w1 := set_stdout w _).
  assert (frame None 0 w w1) as Hw1.
  { split_and!; [done|by exists 0%nat|by apply prefix_app_r|by left|done..]. }
  intros Hrun. split_and!; [| |done].
  - apply io_bind_inv in Hrun
      as [(s & Hrun & _)|([n|] & w2 & Hchoose & Hrun)].
    + exists None. apply (frame_choose None) in Hrun.
      apply (frame_trans None 0 3 w w1 w'); [done|].
      eapply frame_mono; [|done]. lia.
    + apply choose_valid in Hchoose as Hop. destruct Hop as [op Hop].
      rewrite Hop in Hrun. exists (Some op).
      apply (frame_choose (Some op)) in Hchoose.
      apply frame_matrix_operation in Hrun.
      apply (frame_trans (Some op) 0 3 w w1 w'); [by apply frame_allowed|].
      by apply (frame_trans (Some op) 1 2 w1 w2 w').
    + injection Hrun as <- <-. exists None.
      apply (frame_choose None) in Hchoose.
      apply (frame_trans None 0 3 w w1 w2); [done|].
      eapply frame_mono; [|done]. lia.
  - intros s ->.
    apply io_bind_inv in Hrun
      as [(s' & Hrun & [= <-])|([n|] & w2 & Hchoose & Hrun)].
    + apply choose_stops in Hrun as [-> ->]. split; [by left|done].
    + apply choose_valid in Hchoose as Hop. destruct Hop as [op Hop].
      rewrite Hop in Hrun.
      apply matrix_operation_stops in Hrun as [Hs ->]. split; [done|].
      apply (frame_choose None) in Hchoose.
      by rewrite (frame_None_output _ _ _ Hchoose).
    + done.
Qed.

Lemma main_frame_witness :
  let w := sample_world [chars "2"; chars "1"; chars "2"; chars "3"] in
  (∃ allowed, frame allowed 3 w (main w).2)
  ∧ (∀ s, (main w).1 = inl s → fatal s ∧ output (main w).2 = output w)
  ∧ (input_dir_exists w = false →
     (main w).1 = inr () ∧ stdin (main w).2 = stdin w
     ∧ output (main w).2 = output w).
Proof.
  intros w. apply (main_frame w (main w).2 (main w).1).
  by destruct (main w).
Defined.
(** X29: the list of files and its recommendations.  When the directory
    has matrix files and the constructor reads them all, the call prints,
    before anything is read, a heading and one numbered line for each file;
    the line ends with [(recommended)] exactly when the file is compatible,
    as left or as right operand of the operation, with another file of the
    list.  What the call prints afterwards comes after these lines. *)
Theorem recommended_files (op : operation) (w w' : world)
    (res : signal + unit) :
  matrix_files w ≠ [] →
  readable w (matrix_files w) →
  matrix_operation op w = (res, w') →
  ∃ mark : nat → bool,
    (∀ i fi, matrix_files w !! i = Some fi →
       (mark i = true
        ↔ ∃ j fj, i ≠ j ∧ matrix_files w !! j = Some fj
                  ∧ (compatible op (texts w) fi fj
                     ∨ compatible op (texts w) fj fi)))
    ∧ (stdout w ++ "010"%char :: chars "Select matrices for "
         ++ chars (name op) ++ chars ":" ++ "010"%char
         :: chars "Available matrix files:" ++ "010"%char
         :: concat (listed mark <$> enumerate (matrix_files w)))
      `prefix_of` stdout w'.
Proof.
  intros Hfiles Hread Hrun.
  set (pairs := compatible_pairs op (texts w) (matrix_files w)).
  exists (λ i, bool_decide
                 (Exists (λ pair : nat * nat, i = pair.1 ∨ i = pair.2) pairs)).
  split.
  - intros i fi Hi. rewrite bool_decide_eq_true, Exists_exists. split.
    + intros ([i' j'] & Hin & Hor). cbn [fst snd] in Hor.
      apply elem_of_compatible_pairs in Hin
        as (Hne & fi' & fj' & Hi' & Hj' & Hc).
      destruct Hor as [->| ->].
      * exists j', fj'. split_and!; [done..|]. left.
        by replace fi with fi' by congruence.
      * exists i', fi'. split_and!; [done..|]. right.
        by replace fi with fj' by congruence.
    + intros (j & fj & Hne & Hj & [Hc|Hc]).
      * exists (i, j). split; [|by left].
        apply elem_of_compatible_pairs. split; [done|]. by exists fi, fj.
      * exists (j, i). split; [|by right].
        apply elem_of_compatible_pairs. split; [done|]. by exists fj, fi.
  - unfold matrix_operation in Hrun. erewrite io_bind in Hrun by done.
    fold (matrix_files w) in Hrun. rewrite decide_False in Hrun by done.
    destruct (run_find_compatible_pairs op (matrix_files w) w)
      as (w1 & Hfind & _ & Hw1); [done|].
    erewrite io_bind in Hrun by exact Hfind.
    erewrite io_bind in Hrun by apply run_display_lines.
    revert Hrun. set (w2 := set_stdout w1 _). intros Hrun.
    assert (frame (Some op) 2 w2 w') as (_ & _ & Hout & _).
    { revert Hrun. apply (keeps_frame_bind (Some op) 2 0);
        [apply frame_select|].
      intros [[choice1 choice2]|]; [apply frame_operate|apply keeps_ret, _]. }
    etrans; [|exact Hout]. unfold w2. rewrite Hw1. reflexivity.
Qed.

Lemma recommended_files_witness :
  let w := sample_world [chars "1"; chars "3"] in
  ∃ mark : nat → bool,
    (∀ i fi, matrix_files w !! i = Some fi →
       (mark i = true
        ↔ ∃ j fj, i ≠ j ∧ matrix_files w !! j = Some fj
                  ∧ (compatible multiplication (texts w) fi fj
                     ∨ compatible multiplication (texts w) fj fi)))
    ∧ (stdout w ++ "010"%char :: chars "Select matrices for "
         ++ chars (name multiplication) ++ chars ":" ++ "010"%char
         :: chars "Available matrix files:" ++ "010"%char
         :: concat (listed mark <$> enumerate (matrix_files w)))
      `prefix_of` stdout (matrix_operation multiplication w).2.
Proof.
  intros w.
  apply (recommended_files multiplication w
           (matrix_operation multiplication w).2
           (matrix_operation multiplication w).1);
    [done|apply sample_readable|by destruct (matrix_operation _ _)].
Defined.
